(** * heyoka: model builders, pairwise summation and Taylor jets

    A shallow embedding of the parts of the heyoka sources that the
    specification talks about:

    - [pairwise_sum], [mascon_dynamics], [compute_energy] and
      [make_mascon_system] of [benchmark/mascon_model_itokawa.cpp];
    - [make_nbody_sys_fixed_masses], [make_nbody_sys_par_masses],
      [random_elliptic_state] and [cartesian_to_oe] of [src/nbody.cpp];
    - the Taylor jets exercised by [test/taylor_mul.cpp].

    C++ [double] values are IEEE binary64 numbers ([PrimFloat.float]) where
    the code depends on rounding, infinities or NaN.  Symbolic expressions
    carry rationals, the values of their floating-point constants; the
    arithmetic of [number] that computes the constants of the N-body
    systems rounds, and is a parameter of the model. *)

From Stdlib Require Import ZArith NArith QArith Qcanon List Lia Bool Floats.
From stdpp Require Import base list strings gmap pretty.
From Equations Require Import Equations.
Import ListNotations.

#[local] Set Warnings "-clear-no-such-hyp".

(* ===================================================================== *)
(** * Exceptions *)
(* ===================================================================== *)

(** The exception classes the modelled functions throw. *)
Inductive exn : Type :=
| invalid_argument
| overflow_error
| not_implemented_error.

(** A call returns a value or throws. *)
Inductive result (A : Type) : Type :=
| Return (v : A)
| Throw (e : exn).
Arguments Return {A} v.
Arguments Throw {A} e.

Definition bind {A B : Type} (m : result A) (k : A -> result B) : result B :=
  match m with
  | Return v => k v
  | Throw e => Throw e
  end.

Notation "'do' x <- m ; k" := (bind m (fun x => k))
  (at level 10, x name, m at level 100, k at level 200).

(** [for (i = lo; i < lo + count; ++i) body], threading the state [s]. *)
Fixpoint for_loop {S : Type} (lo count : nat) (body : nat -> S -> result S)
    (s : S) : result S :=
  match count with
  | O => Return s
  | Datatypes.S c => do s' <- body lo s; for_loop (Datatypes.S lo) c body s'
  end.

(* ===================================================================== *)
(** * Pairwise summation *)
(* ===================================================================== *)

Module Pairwise.

(** [std::numeric_limits<std::size_t>::max()] on the 64-bit targets. *)
Definition size_max : N := (2 ^ 64 - 1)%N.

Section Sum.
Context {A : Type}.
(** The addition of the element type ([operator+]) and the value returned
    for an empty vector ([0.]). *)
Variable add : A -> A -> A.
Variable zero : A.

(** One execution of the [for] loop in the body of the [while]: it walks
    [sum] two elements at a time and fills [new_sum]; a lone last element
    is appended as it is. *)
Fixpoint pairwise_round (sum : list A) : list A :=
  match sum with
  | [] => []
  | [x] => [x]
  | x :: y :: rest => add x y :: pairwise_round rest
  end.

(** The [while (sum.size() != 1u)] loop followed by [return sum[0]].  The
    loop is only entered with a non-empty vector (the empty one is
    answered before it); the first equation is there to make the function
    total. *)
Equations? pairwise_loop (sum : list A) : A by wf (length sum) lt :=
  pairwise_loop [] := zero;
  pairwise_loop [x] := x;
  pairwise_loop (x :: y :: rest) :=
    pairwise_loop (pairwise_round (x :: y :: rest)).
Proof.
  clear pairwise_loop. cbn [pairwise_round length].
  enough (H : forall n l, length l <= n -> length (pairwise_round l) <= length l)
    by (specialize (H _ rest (le_n _)); lia).
  clear. induction n as [|n IH]; intros [|a [|b l]] Hl; cbn in *; try lia.
  specialize (IH l). lia.
Qed.

(** [pairwise_sum]: the overflow guard, the empty case, the loop. *)
Definition pairwise_sum (sum : list A) : result A :=
  if (N.of_nat (length sum) =? size_max)%N then Throw overflow_error
  else match sum with
       | [] => Return zero
       | _ :: _ => Return (pairwise_loop sum)
       end.

End Sum.

(** ** The shape of a reduction *)

(** The additions performed, as a term over the operands. *)
Inductive tree (A : Type) : Type :=
| Leaf (a : A)
| Node (l r : tree A).
Arguments Leaf {A} a.
Arguments Node {A} l r.

Section Trees.
Context {A : Type}.

Fixpoint leaves (t : tree A) : list A :=
  match t with
  | Leaf a => [a]
  | Node l r => leaves l ++ leaves r
  end.

Fixpoint height (t : tree A) : nat :=
  match t with
  | Leaf _ => 0
  | Node l r => S (Nat.max (height l) (height r))
  end.

(** The value of a reduction tree under an addition. *)
Fixpoint eval (add : A -> A -> A) (t : tree A) : A :=
  match t with
  | Leaf a => a
  | Node l r => add (eval add l) (eval add r)
  end.

(** A complete binary tree with [2 ^ k] leaves. *)
Inductive perfect : nat -> tree A -> Prop :=
| perfect_leaf a : perfect 0 (Leaf a)
| perfect_node k l r :
    perfect k l -> perfect k r -> perfect (S k) (Node l r).

(** At every addition the left operand is a complete tree and the right
    operand is no deeper: when operands are missing they are missing on
    the right. *)
Inductive left_leaning : tree A -> Prop :=
| ll_leaf a : left_leaning (Leaf a)
| ll_node l r :
    perfect (height l) l -> left_leaning r -> height r <= height l ->
    left_leaning (Node l r).

(** The state of the loop after [k] rounds: every element is a complete
    tree of height [k], except for the last one, which is left-leaning and
    of height at most [k]. *)
Fixpoint level (k : nat) (ts : list (tree A)) : Prop :=
  match ts with
  | [] => True
  | [t] => left_leaning t /\ height t <= k
  | t :: rest => perfect k t /\ level k rest
  end.

(** Left-to-right sum of a non-empty list. *)
Definition sum_from (add : A -> A -> A) (x : A) (l : list A) : A :=
  fold_left add l x.

End Trees.

End Pairwise.

(* ===================================================================== *)
(** * Symbolic expressions *)
(* ===================================================================== *)

Module Expr.

(** The tag of a binary operator. *)
Inductive binop : Type := op_add | op_sub | op_mul | op_div.

(** Modelled from the spec: the class [expression] ([heyoka/expression.hpp]
    is not among the sources).  "A recursively defined value with exactly
    one of the following shapes: number, variable, parameter, binary op,
    function (a name and an ordered sequence of argument expressions)".
    A number is represented by its value, a rational. *)
Unset Elimination Schemes.
Inductive expression : Type :=
| Num (q : Q)
| Var (name : string)
| Par (idx : nat)
| Bin (op : binop) (a b : expression)
| Func (name : string) (args : list expression).
Set Elimination Schemes.

#[global] Instance expression_inhabited : Inhabited expression :=
  populate (Num 0).

#[global] Instance Q_inhabited : Inhabited Q := populate 0%Q.

(** [variable(name)] and [par[i]]. *)
Definition variable (name : string) : expression := Var name.
Definition par (i : nat) : expression := Par i.

Definition is_number (e : expression) (p : Q -> bool) : bool :=
  match e with
  | Num q => p q
  | _ => false
  end.

(** Modelled from the spec: the arithmetic operators of [expression]
    (defined outside the sources at hand).  "Literal folding of
    constant±constant; x*1 → x, x+0 → x.  Beyond these trivial reductions
    the algebra is deliberately non-simplifying". *)
Definition expr_add (a b : expression) : expression :=
  match a, b with
  | Num x, Num y => Num (x + y)
  | _, _ => if is_number b (fun q => Qeq_bool q 0) then a else Bin op_add a b
  end.

Definition expr_sub (a b : expression) : expression :=
  match a, b with
  | Num x, Num y => Num (x - y)
  | _, _ => Bin op_sub a b
  end.

Definition expr_mul (a b : expression) : expression :=
  if is_number b (fun q => Qeq_bool q 1) then a else Bin op_mul a b.

Definition expr_div (a b : expression) : expression := Bin op_div a b.

(** Modelled from the spec: unary minus.  The data model has no unary
    operator: the opposite of a number is a number, the opposite of
    anything else is its product with the number -1. *)
Definition expr_neg (a : expression) : expression :=
  match a with
  | Num x => Num (- x)
  | _ => expr_mul (Num (-1)) a
  end.

(** Modelled from the spec: the named functions [pow] and [square]
    ([heyoka/math.hpp] and the definition of [square] are not among the
    sources; [heyoka/square.hpp] declares the latter). *)
Definition pow (b e : expression) : expression := Func "pow" [b; e].
Definition square (a : expression) : expression := Func "square" [a].

(** [prime(x) = rhs]: an equation of the system. *)
Definition prime_eq (x rhs : expression) : expression * expression := (x, rhs).

(** The variables, the parameter indices and the numbers that occur in an
    expression. *)
Fixpoint get_variables (e : expression) : gset string :=
  match e with
  | Num _ | Par _ => ∅
  | Var s => {[ s ]}
  | Bin _ a b => get_variables a ∪ get_variables b
  | Func _ args =>
      (fix go (l : list expression) : gset string :=
         match l with
         | [] => ∅
         | a :: l' => get_variables a ∪ go l'
         end) args
  end.

Fixpoint get_params (e : expression) : gset nat :=
  match e with
  | Num _ | Var _ => ∅
  | Par i => {[ i ]}
  | Bin _ a b => get_params a ∪ get_params b
  | Func _ args =>
      (fix go (l : list expression) : gset nat :=
         match l with
         | [] => ∅
         | a :: l' => get_params a ∪ go l'
         end) args
  end.

Fixpoint get_numbers (e : expression) : list Q :=
  match e with
  | Num q => [q]
  | Var _ | Par _ => []
  | Bin _ a b => get_numbers a ++ get_numbers b
  | Func _ args =>
      (fix go (l : list expression) : list Q :=
         match l with
         | [] => []
         | a :: l' => get_numbers a ++ go l'
         end) args
  end.

(** Modelled from the spec: the value of an expression (the evaluation
    functions of [expression] are not among the sources).  Variables take
    their values from the state, "parameters are resolved against the
    parameter buffer", and the arithmetic is exact; [pow] is a parameter
    because a real power is not a rational function. *)
Section Eval.
Variable env : string -> Qc.
Variable pars : nat -> Qc.
Variable pow_fn : Qc -> Qc -> Qc.

Definition eval_binop (op : binop) (x y : Qc) : Qc :=
  match op with
  | op_add => x + y
  | op_sub => x - y
  | op_mul => x * y
  | op_div => x / y
  end.

Definition eval_func (name : string) (vals : list Qc) : Qc :=
  match vals with
  | [x] => if String.eqb name "square" then x * x else 0
  | [x; y] => if String.eqb name "pow" then pow_fn x y else 0
  | _ => 0
  end.

Fixpoint eval (e : expression) : Qc :=
  match e with
  | Num q => Q2Qc q
  | Var s => env s
  | Par i => pars i
  | Bin op a b => eval_binop op (eval a) (eval b)
  | Func name args =>
      eval_func name
        ((fix go (l : list expression) : list Qc :=
            match l with
            | [] => []
            | a :: l' => eval a :: go l'
            end) args)
  end.
End Eval.

(** [pairwise_sum] on a vector of expressions: the algorithm of
    [pairwise_sum], with the addition of expressions and the number zero
    for an empty vector. *)
Definition pairwise_sum (terms : list expression) : result expression :=
  Pairwise.pairwise_sum expr_add (Num 0) terms.

End Expr.

(* ===================================================================== *)
(** * N-body systems *)
(* ===================================================================== *)

Module NBody.
Import Expr.

(** [is_zero] on a [number]. *)
Definition is_zero (x : Q) : bool := Qeq_bool x 0.

(** [detail::li_to_string]: the decimal digits of an index. *)
Definition li_to_string (i : nat) : string := pretty i.

(** The six vectors of state variables. *)
Definition make_vars (prefix : string) (n : nat) : list expression :=
  (fun i => variable (prefix +:+ li_to_string i)) <$> seq 0 n.

(** The return value under construction and the accumulators [x_acc],
    [y_acc], [z_acc]. *)
Record accs : Type := {
  retval : list (expression * expression);
  x_acc : list (list expression);
  y_acc : list (list expression);
  z_acc : list (list expression)
}.

Definition push_back {A : Type} (v : list A) (x : A) : list A := v ++ [x].

(** [acc[j].push_back(e)]. *)
Definition push_back_at (acc : list (list expression)) (j : nat)
    (e : expression) : list (list expression) :=
  alter (fun v => push_back v e) j acc.

Section Bodies.
Variable n : nat.

Definition x_vars : list expression := make_vars "x_" n.
Definition y_vars : list expression := make_vars "y_" n.
Definition z_vars : list expression := make_vars "z_" n.
Definition vx_vars : list expression := make_vars "vx_" n.
Definition vy_vars : list expression := make_vars "vy_" n.
Definition vz_vars : list expression := make_vars "vz_" n.

(** The accumulators after [x_acc.resize(n)], and the empty [retval]. *)
Definition init_accs : accs :=
  {| retval := []; x_acc := replicate n []; y_acc := replicate n [];
     z_acc := replicate n [] |}.

Definition diff (vs : list expression) (i j : nat) : expression :=
  expr_sub (vs !!! j) (vs !!! i).

Definition r_m3 (i j : nat) : expression :=
  pow (expr_add (expr_add (square (diff x_vars i j)) (square (diff y_vars i j)))
                (square (diff z_vars i j)))
      (Num (-3 # 2)).

(** "r' = v": the three equations that open the block of body [i]. *)
Definition push_velocities (i : nat) (st : accs) : accs :=
  {| retval := push_back (push_back (push_back (retval st)
       (prime_eq (x_vars !!! i) (vx_vars !!! i)))
       (prime_eq (y_vars !!! i) (vy_vars !!! i)))
       (prime_eq (z_vars !!! i) (vz_vars !!! i));
     x_acc := x_acc st; y_acc := y_acc st; z_acc := z_acc st |}.

(** "Add the expressions of the accelerations to the system". *)
Definition push_accelerations (i : nat) (st : accs) : result accs :=
  do sx <- pairwise_sum (x_acc st !!! i);
  do sy <- pairwise_sum (y_acc st !!! i);
  do sz <- pairwise_sum (z_acc st !!! i);
  Return {| retval := push_back (push_back (push_back (retval st)
              (prime_eq (vx_vars !!! i) sx))
              (prime_eq (vy_vars !!! i) sy))
              (prime_eq (vz_vars !!! i) sz);
            x_acc := x_acc st; y_acc := y_acc st; z_acc := z_acc st |}.

(** The two branches of the body of the loop over [j]: bodies [i] and [j]
    interact mutually, or [j] only feels [i]. *)
Definition mutual (fac_j c_ij : expression) (i j : nat) (st : accs) : accs :=
  {| retval := retval st;
     x_acc := push_back_at
                (push_back_at (x_acc st) i (expr_mul (diff x_vars i j) fac_j))
                j (expr_mul (expr_mul (diff x_vars i j) fac_j) c_ij);
     y_acc := push_back_at
                (push_back_at (y_acc st) i (expr_mul (diff y_vars i j) fac_j))
                j (expr_mul (expr_mul (diff y_vars i j) fac_j) c_ij);
     z_acc := push_back_at
                (push_back_at (z_acc st) i (expr_mul (diff z_vars i j) fac_j))
                j (expr_mul (expr_mul (diff z_vars i j) fac_j) c_ij) |}.

Definition one_way (fac : expression) (i j : nat) (st : accs) : accs :=
  {| retval := retval st;
     x_acc := push_back_at (x_acc st) j (expr_mul (diff x_vars i j) fac);
     y_acc := push_back_at (y_acc st) j (expr_mul (diff y_vars i j) fac);
     z_acc := push_back_at (z_acc st) j (expr_mul (diff z_vars i j) fac) |}.

(** The factors that carry the masses: [fac_j] and [c_ij] of the mutual
    branch and [fac] of the one-way branch, as functions of [i], [j] and
    [r_m3].  The loops of the restricted case of
    [make_nbody_sys_fixed_masses] and the loops of
    [make_nbody_sys_par_masses] are the same text but for these factors. *)
Record mass_factors : Type := {
  fac_j_of : nat -> nat -> expression -> expression;
  c_ij_of : nat -> nat -> expression;
  fac_of : nat -> nat -> expression -> expression
}.

Section Restricted.
Variable mf : mass_factors.
Variable n_massive : nat.

(** The body of [for (j = i + 1; j < n; ++j)]. *)
Definition restricted_interaction (i : nat) (st : accs) (j : nat) : accs :=
  if j <? n_massive
  then mutual (fac_j_of mf i j (r_m3 i j)) (c_ij_of mf i j) i j st
  else one_way (fac_of mf i j (r_m3 i j)) i j st.

(** The body of the loop over the massive bodies. *)
Definition massive_body (i : nat) (st : accs) : result accs :=
  let st := push_velocities i st in
  let st := fold_left (restricted_interaction i) (seq (S i) (n - S i)) st in
  push_accelerations i st.

(** The body of the loop over the massless bodies. *)
Definition massless_body (i : nat) (st : accs) : result accs :=
  push_accelerations i (push_velocities i st).

Definition restricted_system : result (list (expression * expression)) :=
  do st <- for_loop 0 n_massive massive_body init_accs;
  do st <- for_loop n_massive (n - n_massive) massless_body st;
  Return (retval st).

End Restricted.

End Bodies.

(** The [while] loops that count: as long as the iterator [it] is not at
    the end and [p] holds of the mass it points to, the count and the
    iterator are advanced.  The result is the count and the position at
    which the iterator stops. *)
Fixpoint count_while (p : Q -> bool) (it : list Q) : nat * list Q :=
  match it with
  | [] => (0, [])
  | m :: rest =>
      if p m then let '(c, stop) := count_while p rest in (S c, stop)
      else (0, it)
  end.

(** The arithmetic of [number].  A [number] holds a floating-point value
    ([double], [long double], ...); [operator*] and [operator/] compute in
    the type of their operands and round.  The class [number] is not part
    of the sources at hand, so the two operations are parameters of the
    model: a number is represented by its value, a rational, and [num_mul]
    and [num_div] give the value of the product and of the quotient as the
    code computes them.  The unary minus is exact in every floating-point
    type. *)
Class number_arith : Type := {
  num_mul : Q -> Q -> Q;
  num_div : Q -> Q -> Q
}.

(** Rounding of the quotient [a / d], [d > 0], to the nearest integer,
    ties to even. *)
Definition round_half_even (a d : Z) : Z :=
  let q := (a / d)%Z in
  let r := (a mod d)%Z in
  if (2 * r <? d)%Z then q
  else if (d <? 2 * r)%Z then (q + 1)%Z
  else if Z.even q then q else (q + 1)%Z.

(** Is [a / d >= 2^k]? *)
Definition above_pow2 (a d k : Z) : bool :=
  if (0 <=? k)%Z then (d * 2 ^ k <=? a)%Z else (d <=? a * 2 ^ (- k))%Z.

(** Rounding to the nearest floating-point number in radix 2 with a
    significand of [prec] bits, ties to even.  The exponent is not bounded:
    this is the rounding of the IEEE formats as long as there is neither
    overflow nor underflow. *)
Definition round_float (prec : Z) (x : Q) : Q :=
  let a := Z.abs (Qnum x) in
  let d := Z.pos (Qden x) in
  if (a =? 0)%Z then 0
  else
    let l0 := (Z.log2 a - Z.log2 d)%Z in
    let l := if above_pow2 a d l0 then l0 else (l0 - 1)%Z in
    let e := (l - prec + 1)%Z in
    let m := if (e <=? 0)%Z then round_half_even (a * 2 ^ (- e)) d
             else round_half_even a (d * 2 ^ e) in
    let sm := (Z.sgn (Qnum x) * m)%Z in
    Qred (if (e <=? 0)%Z then Qmake sm (Z.to_pos (2 ^ (- e)))
          else inject_Z (sm * 2 ^ e)).

(** The arithmetic of a [number] that holds a [double]: the exact product
    or quotient, rounded to 53 bits. *)
Definition binary64_arith : number_arith :=
  {| num_mul := fun a b => round_float 53 (a * b);
     num_div := fun a b => round_float 53 (a / b) |}.

Section Fixed.
Context {arith : number_arith}.
Variable n : nat.
Variable Gconst : Q.
Variable masses : list Q.

(** The factors of [make_nbody_sys_fixed_masses]: numbers computed from the
    masses, [Gconst * masses[j]], [-masses[i] / masses[j]] and
    [-Gconst * masses[i]]. *)
Definition fixed_factors : mass_factors :=
  {| fac_j_of := fun i j r => expr_mul (Num (num_mul Gconst (masses !!! j))) r;
     c_ij_of := fun i j => Num (num_div (- masses !!! i) (masses !!! j));
     fac_of := fun i j r => expr_mul (Num (num_mul (- Gconst) (masses !!! i))) r |}.

(** The constants of the pair [i < j] are exact: the product
    [-Gconst * masses[i]] when [j] has no mass, the product
    [Gconst * masses[j]] and the quotient [-masses[i] / masses[j]] when it
    has one, as the code computes them, have the values of the exact
    product and quotient.  These are the constants that the loop over [j]
    of the general case computes for the pair; the loop of the restricted
    case computes the same ones when [i] is massive. *)
Definition exact_pair (i j : nat) : bool :=
  if is_zero (masses !!! j)
  then Qeq_bool (num_mul (- Gconst) (masses !!! i)) (- Gconst * masses !!! i)
  else Qeq_bool (num_mul Gconst (masses !!! j)) (Gconst * masses !!! j)
       && Qeq_bool (num_div (- masses !!! i) (masses !!! j))
                   (- masses !!! i / masses !!! j).

(** All the constants of the system are exact. *)
Definition exact_constants : bool :=
  forallb (fun i => forallb (exact_pair i) (seq (S i) (n - S i))) (seq 0 n).

(** The body of the loop over [j] when the problem is not restricted. *)
Definition general_interaction (i : nat) (st : accs) (j : nat) : accs :=
  if is_zero (masses !!! j)
  then one_way n (fac_of fixed_factors i j (r_m3 n i j)) i j st
  else mutual n (fac_j_of fixed_factors i j (r_m3 n i j))
              (c_ij_of fixed_factors i j) i j st.

Definition general_body (i : nat) (st : accs) : result accs :=
  let st := push_velocities n i st in
  let st := fold_left (general_interaction i) (seq (S i) (n - S i)) st in
  push_accelerations n i st.

Definition general_system : result (list (expression * expression)) :=
  do st <- for_loop 0 n general_body (init_accs n);
  Return (retval st).

(** The number of massive particles at the beginning of [masses], and the
    number of massless particles that follow them. *)
Definition n_fc_massive : nat :=
  fst (count_while (fun m => negb (is_zero m)) masses).
Definition n_fc_massless : nat :=
  fst (count_while is_zero
         (snd (count_while (fun m => negb (is_zero m)) masses))).

(** [make_nbody_sys_fixed_masses(n, Gconst, masses)], for [n >= 2]. *)
Definition make_nbody_sys_fixed_masses
  : result (list (expression * expression)) :=
  if negb (length masses =? n) then Throw invalid_argument
  else if negb (n_fc_massless =? 0) && (n_fc_massive + n_fc_massless =? n)
  then restricted_system n fixed_factors n_fc_massive
  else general_system.

End Fixed.

(** The factors of [make_nbody_sys_par_masses]: the masses are run-time
    parameters. *)
Definition par_factors (Gconst : Q) : mass_factors :=
  {| fac_j_of := fun i j r => expr_mul (expr_mul (Num Gconst) (par j)) r;
     c_ij_of := fun i j => expr_div (expr_neg (par i)) (par j);
     fac_of := fun i j r => expr_mul (expr_mul (Num (- Gconst)) (par i)) r |}.

(** [make_nbody_sys_par_masses(n, Gconst, n_massive)], for [n >= 2]. *)
Definition make_nbody_sys_par_masses (n : nat) (Gconst : Q) (n_massive : nat)
  : result (list (expression * expression)) :=
  if n <? n_massive then Throw invalid_argument
  else restricted_system n (par_factors Gconst) n_massive.

End NBody.

(* ===================================================================== *)
(** * N-body systems: what the loops build *)
(* ===================================================================== *)

Module NBodyTerms.
Import Expr NBody.

Section Terms.
Variable n : nat.
Variable mf : mass_factors.
Variable n_massive : nat.

(** The three kinds of terms the loop over [j] pushes: on the accumulator
    of [i] in the mutual branch, on the accumulator of [j] in the mutual
    branch, and on the accumulator of [j] in the one-way branch. *)
Definition by_term (vs : list expression) (i j : nat) : expression :=
  expr_mul (diff vs i j) (fac_j_of mf i j (r_m3 n i j)).
Definition on_term (vs : list expression) (i j : nat) : expression :=
  expr_mul (by_term vs i j) (c_ij_of mf i j).
Definition ow_term (vs : list expression) (i j : nat) : expression :=
  expr_mul (diff vs i j) (fac_of mf i j (r_m3 n i j)).

(** What body [k] has received from the massive bodies [0 .. upto - 1]
    that come before it. *)
Definition from_earlier (vs : list expression) (k upto : nat)
  : list expression :=
  map (fun i => if k <? n_massive then on_term vs i k else ow_term vs i k)
      (seq 0 upto).

(** What the massive body [k] has received from the massive bodies after
    it. *)
Definition from_later (vs : list expression) (k : nat) : list expression :=
  map (fun j => by_term vs k j) (seq (S k) (n_massive - S k)).

(** The accumulator of body [k] when its sum is taken. *)
Definition terms (vs : list expression) (k : nat) : list expression :=
  if k <? n_massive then from_earlier vs k k ++ from_later vs k
  else from_earlier vs k n_massive.

(** The expression [pairwise_sum] returns when it does not throw. *)
Definition sum_expr (l : list expression) : expression :=
  Pairwise.pairwise_loop expr_add (Num 0) l.

(** The six equations of body [k]. *)
Definition block (k : nat) : list (expression * expression) :=
  [prime_eq (x_vars n !!! k) (vx_vars n !!! k);
   prime_eq (y_vars n !!! k) (vy_vars n !!! k);
   prime_eq (z_vars n !!! k) (vz_vars n !!! k);
   prime_eq (vx_vars n !!! k) (sum_expr (terms (x_vars n) k));
   prime_eq (vy_vars n !!! k) (sum_expr (terms (y_vars n) k));
   prime_eq (vz_vars n !!! k) (sum_expr (terms (z_vars n) k))].

Definition blocks (upto : nat) : list (expression * expression) :=
  flat_map block (seq 0 upto).

(** The accumulator of one coordinate during the loop over [j]. *)
Definition cell_step (vs : list expression) (i : nat)
    (a : list (list expression)) (j : nat) : list (list expression) :=
  if j <? n_massive
  then push_back_at (push_back_at a i (by_term vs i j)) j (on_term vs i j)
  else push_back_at a j (ow_term vs i j).

(** The invariant of the two loops over the bodies: when the bodies below
    [I] have been dealt with, [retval] holds their blocks and the
    accumulator of every other body holds what the massive bodies below [I]
    have pushed on it. *)
Definition cells_ok (I : nat) (vs : list expression)
    (a : list (list expression)) : Prop :=
  length a = n /\
  forall k, I <= k < n ->
            a !! k = Some (from_earlier vs k (Nat.min I n_massive)).

Definition loop_inv (I : nat) (st : accs) : Prop :=
  retval st = blocks I /\
  cells_ok I (x_vars n) (x_acc st) /\
  cells_ok I (y_vars n) (y_acc st) /\
  cells_ok I (z_vars n) (z_acc st).

End Terms.

(** Every accumulator holds at most [b] terms. *)
Definition cells_le (b : nat) (st : accs) : Prop :=
  Forall (fun c => length c <= b) (x_acc st) /\
  Forall (fun c => length c <= b) (y_acc st) /\
  Forall (fun c => length c <= b) (z_acc st).

(** The names of the position variables of body [k]. *)
Definition pos_vars (k : nat) : gset string :=
  {[ "x_" +:+ li_to_string k; "y_" +:+ li_to_string k;
     "z_" +:+ li_to_string k ]}.

(** The numbers that may occur in the parametric system: the constant of
    gravity and its opposite, the exponent, the -1 of a unary minus and the
    zero of an empty sum. *)
Definition allowed_numbers (Gconst : Q) : list Q :=
  [Gconst; - Gconst; -3 # 2; -1; 0]%Q.

(** A sum or product whose parameters are masses of massive bodies and
    whose numbers are allowed. *)
Definition par_shaped (nm : nat) (Gconst : Q) (e : expression) : Prop :=
  (e = Num 0 \/ exists op a b, e = Bin op a b) /\
  (forall i, i ∈ get_params e -> i < nm) /\
  (forall q, In q (get_numbers e) -> In q (allowed_numbers Gconst)).

(** A term of an acceleration in the parametric system: the mass of a body
    is the parameter of its index, alone or in a ratio. *)
Definition mass_term (n : nat) (Gconst : Q) (nm : nat) (p : string)
    (t : expression) : Prop :=
  exists i j, i < n /\ j < n /\
    let d := diff (make_vars p n) i j in
    ((j < nm /\
      t = Bin op_mul d
            (Bin op_mul (Bin op_mul (Num Gconst) (Par j)) (r_m3 n i j)))
     \/ (i < nm /\ j < nm /\
         t = Bin op_mul
               (Bin op_mul d
                  (Bin op_mul (Bin op_mul (Num Gconst) (Par j)) (r_m3 n i j)))
               (Bin op_div (Bin op_mul (Num (-1)) (Par i)) (Par j)))
     \/ (i < nm /\
         t = Bin op_mul d
               (Bin op_mul (Bin op_mul (Num (- Gconst)) (Par i))
                           (r_m3 n i j)))).

End NBodyTerms.

(* ===================================================================== *)
(** * Taylor decomposition and jets *)
(* ===================================================================== *)

Module Jet.
Import Expr.

(** Modelled from the spec: the Taylor decomposition, the recurrences and
    the jet function.  [add_taylor_jet_batch] and the code it drives are not
    among the sources, only their test [test/taylor_mul.cpp] is.  The model
    follows the sections 3, 4.2, 4.3 and 4.4 of the specification for the
    operators the test uses (numbers, variables, sums, differences and
    products), in exact arithmetic, and the layout of the slab is the one of
    the test: [p + 1] blocks, one for each order, of [S] rows of [B]
    lanes. *)

(** An argument of a three-address assignment: "a state variable, a
    constant, or a previously defined [u_j]"; the state variables are
    [u_0 .. u_(S-1)]. *)
Inductive arg : Type :=
| ANum (q : Q)
| AU (j : nat).

(** [u_k := op(lhs, rhs)]. *)
Record assignment : Type := {
  a_op : binop;
  a_lhs : arg;
  a_rhs : arg
}.

(** A decomposition: [S] state entries at the head, the intermediates
    [u_S, u_(S+1), ...], and [S] entries at the tail, "recording the
    derivative of each state variable as a reference to the top of its
    right-hand side". *)
Record decomposition : Type := {
  d_states : nat;
  d_defs : list assignment;
  d_tail : list arg
}.

(** Structural equality of assignments. *)
Definition binop_eqb (o1 o2 : binop) : bool :=
  match o1, o2 with
  | op_add, op_add | op_sub, op_sub | op_mul, op_mul | op_div, op_div => true
  | _, _ => false
  end.

Definition arg_eqb (a b : arg) : bool :=
  match a, b with
  | ANum p, ANum q => Z.eqb (Qnum p) (Qnum q) && Pos.eqb (Qden p) (Qden q)
  | AU i, AU j => Nat.eqb i j
  | _, _ => false
  end.

Definition assignment_eqb (x y : assignment) : bool :=
  binop_eqb (a_op x) (a_op y) && arg_eqb (a_lhs x) (a_lhs y)
  && arg_eqb (a_rhs x) (a_rhs y).

(** "Commutative normalisation for add and mul (sorted child indices)". *)
Definition normalise (op : binop) (a b : arg) : assignment :=
  match op, a, b with
  | (op_add | op_mul), AU i, AU j =>
      if j <? i then {| a_op := op; a_lhs := AU j; a_rhs := AU i |}
      else {| a_op := op; a_lhs := a; a_rhs := b |}
  | _, _, _ => {| a_op := op; a_lhs := a; a_rhs := b |}
  end.

(** The position of the first element that satisfies [p]. *)
Fixpoint find_index {A : Type} (p : A -> bool) (l : list A) : option nat :=
  match l with
  | [] => None
  | x :: rest => if p x then Some 0 else S <$> find_index p rest
  end.

(** The bottom-up walk of a right-hand side: leaves are emitted in place, a
    compound is looked up among the assignments emitted so far and appended
    when it is new.  [None] for an identifier that is not a state variable
    and for an operator outside the model. *)
Fixpoint decompose_expr (vars : list string) (e : expression)
    (defs : list assignment) : option (arg * list assignment) :=
  match e with
  | Num q => Some (ANum q, defs)
  | Var s => (fun i => (AU i, defs)) <$> find_index (String.eqb s) vars
  | Bin op a b =>
      match op with
      | op_div => None
      | _ =>
          match decompose_expr vars a defs with
          | None => None
          | Some (ra, defs1) =>
              match decompose_expr vars b defs1 with
              | None => None
              | Some (rb, defs2) =>
                  let rhs := normalise op ra rb in
                  match find_index (assignment_eqb rhs) defs2 with
                  | Some j => Some (AU (length vars + j), defs2)
                  | None => Some (AU (length vars + length defs2),
                                  defs2 ++ [rhs])
                  end
              end
          end
      end
  | Par _ | Func _ _ => None
  end.

Fixpoint decompose_rhs (vars : list string) (rhss : list expression)
    (defs : list assignment) : option (list arg * list assignment) :=
  match rhss with
  | [] => Some ([], defs)
  | e :: rest =>
      match decompose_expr vars e defs with
      | None => None
      | Some (r, defs1) =>
          match decompose_rhs vars rest defs1 with
          | None => None
          | Some (tail, defs2) => Some (r :: tail, defs2)
          end
      end
  end.

(** The decomposition of a system of equations [(v_i, rhs_i)]. *)
Definition taylor_decompose (sys : list (string * expression))
  : option decomposition :=
  match decompose_rhs (fst <$> sys) (snd <$> sys) [] with
  | None => None
  | Some (tail, defs) =>
      Some {| d_states := length sys; d_defs := defs; d_tail := tail |}
  end.

(** ** The recurrences, for one lane *)

(** The rows of one order: the coefficients of [u_0, u_1, ...]. *)
Abbreviation row := (list Q).

(** The coefficient of order [k] of an argument; a constant has no
    coefficient beyond the order zero. *)
Definition arg_coef (tbl : list row) (a : arg) (k : nat) : Q :=
  match a with
  | ANum q => if k =? 0 then q else 0%Q
  | AU j => (tbl !!! k) !!! j
  end.

Definition sumQ (l : list Q) : Q := fold_right Qplus 0%Q l.

(** The table of section 4.3: sums and differences order by order, and
    [a^(k) = Σ_(j=0..k) b^(j) c^(k-j)] for a product. *)
Definition recurrence (tbl : list row) (k : nat) (d : assignment) : Q :=
  match a_op d with
  | op_add => (arg_coef tbl (a_lhs d) k + arg_coef tbl (a_rhs d) k)%Q
  | op_sub => (arg_coef tbl (a_lhs d) k - arg_coef tbl (a_rhs d) k)%Q
  | op_mul =>
      sumQ (map (fun j => (arg_coef tbl (a_lhs d) j
                           * arg_coef tbl (a_rhs d) (k - j))%Q)
                (seq 0 (S k)))
  | op_div => 0%Q (* never emitted by [decompose_expr] *)
  end.

(** The row of order [k]: the state coefficients [st], then "every
    intermediate in order", each from the rows of the lower orders [tbl]
    and from the part of the row that precedes it. *)
Definition compute_row (D : decomposition) (tbl : list row) (k : nat)
    (st : row) : row :=
  fold_left (fun cur d => cur ++ [recurrence (tbl ++ [cur]) k d])
            (d_defs D) st.

(** The state coefficients of order [k + 1]: the derivative entries of
    order [k], divided by [k + 1]. *)
Definition next_states (D : decomposition) (tbl : list row) (k : nat) : row :=
  map (fun a => (arg_coef tbl a k / inject_Z (Z.of_nat (S k)))%Q) (d_tail D).

(** The state coefficients of the orders [k + 1, ..., k + orders]. *)
Fixpoint lane_rows (D : decomposition) (orders k : nat) (tbl : list row)
    (st : row) : list row :=
  match orders with
  | O => []
  | S m =>
      let tbl' := tbl ++ [compute_row D tbl k st] in
      let st' := next_states D tbl' k in
      st' :: lane_rows D m (S k) tbl' st'
  end.

(** ** The jet function on the slab *)

Section Slab.
Variable D : decomposition.
Variables p B : nat.

(** The position of the coefficient of order [k] of the state variable [i]
    in lane [l]. *)
Definition slab_index (k i l : nat) : nat := (k * d_states D + i) * B + l.

(** The order-0 state of lane [l], read from the caller's slab. *)
Definition load_state (slab : list Q) (l : nat) : row :=
  (fun i => slab !!! slab_index 0 i l) <$> seq 0 (d_states D).

(** The stores of one row, of one lane, and of all the lanes. *)
Definition row_stores (k l : nat) (r : row) : list (nat * Q) :=
  (fun '(i, v) => (slab_index k i l, v)) <$> zip (seq 0 (d_states D)) r.

Definition lane_stores (slab : list Q) (l : nat) : list (nat * Q) :=
  concat ((fun '(k, r) => row_stores k l r)
          <$> zip (seq 1 p) (lane_rows D p 0 [] (load_state slab l))).

Definition stores (slab : list Q) : list (nat * Q) :=
  concat (lane_stores slab <$> seq 0 B).

(** The compiled function: the slab after the call. *)
Definition jet (slab : list Q) : list Q :=
  fold_left (fun s w => <[w.1 := w.2]> s) (stores slab) slab.

End Slab.

(** [add_taylor_jet_batch(name, sys, order, batch_size)] followed by
    [compile] and [fetch_taylor_jet_batch]: the function that is called on
    the slab. *)
Definition add_taylor_jet_batch (sys : list (string * expression))
    (order batch_size : nat) : option (list Q -> list Q) :=
  (fun D => jet D order batch_size) <$> taylor_decompose sys.

(** ** The system and the driver of the test *)

(** The decomposition of [x' = x y, y' = y x]: one product, shared by the
    two equations. *)
Definition product_decomposition : decomposition :=
  {| d_states := 2;
     d_defs := [{| a_op := op_mul; a_lhs := AU 0; a_rhs := AU 1 |}];
     d_tail := [AU 2; AU 2] |}.


(** The slab of a test: the initial state followed by zeros
    ([jet.resize]). *)
Definition test_slab (init : list Q) (size : nat) : list Q :=
  init ++ replicate (size - length init) 0%Q.

(** Equality of two slabs, entry by entry, as rational numbers. *)
Definition slab_eqb (a b : list Q) : bool :=
  Nat.eqb (length a) (length b) && forallb (fun '(x, y) => Qeq_bool x y) (zip a b).

(** The run of a test: the slab after the call. *)
Definition run_test (sys : list (string * expression)) (order batch : nat)
    (init : list Q) : list Q :=
  match add_taylor_jet_batch sys order batch with
  | Some jet_fn => jet_fn (test_slab init (length sys * batch * (order + 1)))
  | None => []
  end.

End Jet.

(* ===================================================================== *)
(** * The mascon benchmark: the right-hand side functor for odeint *)
(* ===================================================================== *)

Module Mascon.
Import Pairwise.
Local Open Scope float_scope.

(** C++ [double]. *)
Abbreviation double := PrimFloat.float (only parsing).

(** [v[i]] and [a[i][j]] (only in-range accesses are meaningful). *)
Definition at1 (v : list double) (i : nat) : double := nth i v 0.
Definition at2 (a : list (list double)) (i j : nat) : double :=
  nth j (nth i a []) 0.

(** The data members of [struct mascon_dynamics]. *)
Record mascon_dynamics : Type := {
  m_mascon_points : list (list double);
  m_mascon_masses : list double;
  m_p : double;
  m_q : double;
  m_r : double;
  m_G : double
}.

(** The constructor: the masses are copied, then one point is stored for
    each mass. *)
Definition mascon_dynamics_ctor (mascon_points : list (list double))
    (mascon_masses : list double) (p q r G : double) : mascon_dynamics :=
  {| m_mascon_points :=
       map (fun i => [at2 mascon_points i 0; at2 mascon_points i 1;
                      at2 mascon_points i 2])
           (seq 0 (length mascon_masses));
     m_mascon_masses := mascon_masses;
     m_p := p; m_q := q; m_r := r; m_G := G |}.

Section Call.
(** The file-scope array of [data/mascon_itokawa.hpp]; the header is not
    part of the sources at hand, so the array is a parameter. *)
Variable mascon_points_itokawa : list (list double).
(** [std::pow] of the C library. *)
Variable std_pow : double -> double -> double.

Variable d : mascon_dynamics.
Variable x : list double.

(** [r2] in iteration [i] of the first loop of [operator()]. *)
Definition r2 (i : nat) : double :=
  (at1 x 0 - at2 (m_mascon_points d) i 0)
  * (at1 x 0 - at2 (m_mascon_points d) i 0)
  + (at1 x 1 - at2 (m_mascon_points d) i 1)
    * (at1 x 1 - at2 (m_mascon_points d) i 1)
  + (at1 x 2 - at2 mascon_points_itokawa i 2)
    * (at1 x 2 - at2 (m_mascon_points d) i 2).

Definition mGpow (i : nat) : double :=
  m_G d * std_pow (r2 i) (-3 / 2) * at1 (m_mascon_masses d) i.

(** The vectors [x_acc], [y_acc], [z_acc] when the first loop is over. *)
Definition acc (c : nat) : list double :=
  map (fun i => (at2 (m_mascon_points d) i c - at1 x c) * mGpow i)
      (seq 0 (length (m_mascon_masses d))).

Definition centripetal_x : double :=
  - m_q d * m_q d * at1 x 0 - m_r d * m_r d * at1 x 0
  + m_q d * at1 x 1 * m_p d + m_r d * at1 x 2 * m_p d.
Definition centripetal_y : double :=
  - m_p d * m_p d * at1 x 1 - m_r d * m_r d * at1 x 1
  + m_p d * at1 x 0 * m_q d + m_r d * at1 x 2 * m_q d.
Definition centripetal_z : double :=
  - m_p d * m_p d * at1 x 2 - m_q d * m_q d * at1 x 2
  + m_p d * at1 x 0 * m_r d + m_q d * at1 x 1 * m_r d.

Definition coriolis_x : double := 2 * (m_q d * at1 x 5 - m_r d * at1 x 4).
Definition coriolis_y : double := 2 * (m_r d * at1 x 3 - m_p d * at1 x 5).
Definition coriolis_z : double := 2 * (m_p d * at1 x 4 - m_q d * at1 x 3).

(** [operator()(x, dxdt, t)]: the contents of [dxdt] after the call. *)
Definition operator_call (dxdt : list double) (t : double)
  : result (list double) :=
  let dxdt := <[0%nat := at1 x 3]> dxdt in
  let dxdt := <[1%nat := at1 x 4]> dxdt in
  let dxdt := <[2%nat := at1 x 5]> dxdt in
  do sx <- pairwise_sum PrimFloat.add 0 (acc 0);
  let dxdt := <[3%nat := sx - centripetal_x - coriolis_x]> dxdt in
  do sy <- pairwise_sum PrimFloat.add 0 (acc 1);
  let dxdt := <[4%nat := sy - centripetal_y - coriolis_y]> dxdt in
  do sz <- pairwise_sum PrimFloat.add 0 (acc 2);
  Return (<[5%nat := sz - centripetal_z - coriolis_z]> dxdt).

End Call.

End Mascon.

(* ===================================================================== *)
(** * Random elliptic orbits *)
(* ===================================================================== *)

Module Elliptic.
Local Open Scope float_scope.

Abbreviation double := PrimFloat.float (only parsing).

(** [std::numeric_limits<double>::max()] and
    [boost::math::constants::pi<double>()]. *)
Definition dbl_max : double := 0x1.fffffffffffffp+1023.
Definition pi : double := 0x1.921fb54442d18p+1.

(** [std::isfinite]. *)
Definition isfinite (x : double) : bool := PrimFloat.is_finite x.

(** [bounds[i]] of the [std::array] of six pairs. *)
Definition bound (bounds : list (double * double)) (i : nat)
  : double * double := nth i bounds (0, 0).

(** The test in the body of the loop over [bounds]. *)
Definition bad_bounds (b : double * double) : bool :=
  let '(lb, ub) := b in
  negb (isfinite lb) || negb (isfinite ub) || negb (lb <? ub).

(** The loop over [bounds]: the first bad pair throws. *)
Fixpoint check_bounds (bounds : list (double * double)) : result unit :=
  match bounds with
  | [] => Return tt
  | b :: rest =>
      if bad_bounds b then Throw invalid_argument else check_bounds rest
  end.

(** [ub - lb > std::numeric_limits<double>::max()]. *)
Definition range_overflows (b : double * double) : bool :=
  let '(lb, ub) := b in dbl_max <? ub - lb.

(** The validation of the arguments, from "Validate input params" down to
    the check of the true anomaly range. *)
Definition validate (mu : double) (bounds : list (double * double))
  : result unit :=
  if negb (isfinite mu) || (mu <=? 0) then Throw invalid_argument else
  do _ <- check_bounds bounds;
  if fst (bound bounds 0) <=? 0 then Throw invalid_argument else
  if range_overflows (bound bounds 0) then Throw overflow_error else
  if (fst (bound bounds 1) <=? 0) || (1 <? snd (bound bounds 1))
  then Throw invalid_argument else
  if (fst (bound bounds 2) <=? 0) || (pi <? snd (bound bounds 2))
  then Throw invalid_argument else
  if range_overflows (bound bounds 3) then Throw overflow_error else
  if range_overflows (bound bounds 4) then Throw overflow_error else
  if range_overflows (bound bounds 5) then Throw overflow_error else
  Return tt.

(** [detail::dot]. *)
Definition dot (a b : double * double * double) : double :=
  let '(a0, a1, a2) := a in
  let '(b0, b1, b2) := b in
  a0 * b0 + a1 * b1 + a2 * b2.

Section Draw.
(** The standard library is a parameter: the state of a [std::mt19937], its
    [seed] member, a draw of a [std::uniform_real_distribution] with the
    given parameters, and the functions of [<cmath>] that are not IEEE
    operations. *)
Variable mt19937 : Type.
Variable mt19937_seed : N -> mt19937.
Variable uniform_real : double -> double -> mt19937 -> double * mt19937.
Variables atan tan cos sin : double -> double.

(** [random_elliptic_state(mu, bounds, seed)].  The generator [rng] is a
    [static thread_local] object: its state comes in with the call and goes
    out with the result. *)
Definition random_elliptic_state (mu : double)
    (bounds : list (double * double)) (seed : N) (rng : mt19937)
  : result (list double) * mt19937 :=
  match validate mu bounds with
  | Throw e => (Throw e, rng)
  | Return _ =>
      let '(a_min, a_max) := bound bounds 0 in
      let '(e_min, e_max) := bound bounds 1 in
      let '(inc_min, inc_max) := bound bounds 2 in
      let '(om_min, om_max) := bound bounds 3 in
      let '(Om_min, Om_max) := bound bounds 4 in
      let '(f_min, f_max) := bound bounds 5 in
      (* Setup the rng. *)
      let rng := mt19937_seed seed in
      (* Throw the dice for the orbital elements. *)
      let '(a, rng) := uniform_real a_min a_max rng in
      let '(e, rng) := uniform_real e_min e_max rng in
      let '(inc, rng) := uniform_real inc_min inc_max rng in
      let '(om, rng) := uniform_real om_min om_max rng in
      let '(Om, rng) := uniform_real Om_min Om_max rng in
      let '(f, rng) := uniform_real f_min f_max rng in
      (* Transform into cartesian state. *)
      let E := 2 * atan (sqrt ((1 - e) / (1 + e)) * tan (f / 2)) in
      let n := sqrt (mu / (a * a * a)) in
      let q := (a * (cos E - e), a * sqrt (1 - e * e) * sin E, 0) in
      let vq := (- n * a * sin E / (1 - e * cos E),
                 n * a * sqrt (1 - e * e) * cos E / (1 - e * cos E), 0) in
      let r1 := (cos Om * cos om - sin Om * cos inc * sin om,
                 - cos Om * sin om - sin Om * cos inc * cos om,
                 sin Om * sin inc) in
      let r2 := (sin Om * cos om + cos Om * cos inc * sin om,
                 - sin Om * sin om + cos Om * cos inc * cos om,
                 - cos Om * sin inc) in
      let r3 := (sin inc * sin om, sin inc * cos om, cos inc) in
      (Return [dot r1 q; dot r2 q; dot r3 q; dot r1 vq; dot r2 vq; dot r3 vq],
       rng)
  end.

End Draw.

(** The checks that come before every overflow test: [mu], the six pairs,
    and the sign of [a_min]. *)
Definition leading_checks_pass (mu : double)
    (a e inc om Om f : double * double) : bool :=
  isfinite mu && negb (mu <=? 0)
  && negb (bad_bounds a) && negb (bad_bounds e) && negb (bad_bounds inc)
  && negb (bad_bounds om) && negb (bad_bounds Om) && negb (bad_bounds f)
  && negb (fst a <=? 0).

(** The eccentricity and inclination ranges are accepted. *)
Definition shape_checks_pass (e inc : double * double) : bool :=
  negb (fst e <=? 0) && negb (1 <? snd e)
  && negb (fst inc <=? 0) && negb (pi <? snd inc).

(** The first half of the claim as the specification words it: with a good
    [mu] and six good pairs, [std::overflow_error] exactly when one of the
    four ranges is wider than the largest finite double. *)
Definition overflow_exactly_when_wide (mu : double)
    (a e inc om Om f : double * double) : Prop :=
  isfinite mu && negb (mu <=? 0) = true ->
  forallb (fun b => negb (bad_bounds b)) [a; e; inc; om; Om; f] = true ->
  (validate mu [a; e; inc; om; Om; f] = Throw overflow_error <->
   range_overflows a = true \/ range_overflows om = true \/
   range_overflows Om = true \/ range_overflows f = true).

End Elliptic.

(* ===================================================================== *)
(** * N-body systems: what the general loop builds *)
(* ===================================================================== *)

Module NBodyGeneralTerms.
Import Expr NBody NBodyTerms.

Section Terms.
Context {arith : number_arith}.
Variable n : nat.
Variable Gconst : Q.
Variable masses : list Q.

Local Abbreviation ff := (fixed_factors Gconst masses).

(** The bodies after [k] that have a mass: those for which the loop over
    [j] takes the mutual branch. *)
Definition later_massive (k : nat) : list nat :=
  List.filter (fun j => negb (is_zero (masses !!! j))) (seq (S k) (n - S k)).

(** What body [k] has received from the bodies [0 .. upto - 1] that come
    before it: the one-way term when [k] has no mass, the second term of the
    mutual branch when it has one. *)
Definition general_from_earlier (vs : list expression) (k upto : nat)
  : list expression :=
  map (fun i => if is_zero (masses !!! k) then ow_term n ff vs i k
                else on_term n ff vs i k)
      (seq 0 upto).

(** What body [k] has received from the bodies after it. *)
Definition general_from_later (vs : list expression) (k : nat)
  : list expression :=
  map (fun j => by_term n ff vs k j) (later_massive k).

(** The accumulator of body [k] when its sum is taken. *)
Definition general_terms (vs : list expression) (k : nat) : list expression :=
  general_from_earlier vs k k ++ general_from_later vs k.

(** The six equations of body [k]. *)
Definition general_block (k : nat) : list (expression * expression) :=
  [prime_eq (x_vars n !!! k) (vx_vars n !!! k);
   prime_eq (y_vars n !!! k) (vy_vars n !!! k);
   prime_eq (z_vars n !!! k) (vz_vars n !!! k);
   prime_eq (vx_vars n !!! k) (sum_expr (general_terms (x_vars n) k));
   prime_eq (vy_vars n !!! k) (sum_expr (general_terms (y_vars n) k));
   prime_eq (vz_vars n !!! k) (sum_expr (general_terms (z_vars n) k))].

Definition general_blocks (upto : nat) : list (expression * expression) :=
  flat_map general_block (seq 0 upto).

(** The accumulator of one coordinate during the loop over [j]. *)
Definition general_cell_step (vs : list expression) (i : nat)
    (a : list (list expression)) (j : nat) : list (list expression) :=
  if is_zero (masses !!! j)
  then push_back_at a j (ow_term n ff vs i j)
  else push_back_at (push_back_at a i (by_term n ff vs i j)) j
                    (on_term n ff vs i j).

(** The invariant of the loop over the bodies. *)
Definition general_cells_ok (I : nat) (vs : list expression)
    (a : list (list expression)) : Prop :=
  length a = n /\
  forall k, I <= k < n -> a !! k = Some (general_from_earlier vs k I).

Definition general_loop_inv (I : nat) (st : accs) : Prop :=
  retval st = general_blocks I /\
  general_cells_ok I (x_vars n) (x_acc st) /\
  general_cells_ok I (y_vars n) (y_acc st) /\
  general_cells_ok I (z_vars n) (z_acc st).

End Terms.
End NBodyGeneralTerms.

(* ===================================================================== *)
(** * Newton's law of gravitation *)
(* ===================================================================== *)

Module Gravity.
Import NBody.
Local Open Scope Qc_scope.

(** The sum of a list of rationals. *)
Definition sumQc (l : list Qc) : Qc := fold_right Qcplus 0 l.

(** The bodies other than [k] among the first [m]. *)
Definition others (m k : nat) : list nat :=
  List.filter (fun i => negb (Nat.eqb i k)) (seq 0 m).

Section Law.
(** The constant of gravity, the masses, the state and the power
    function. *)
Variable G : Qc.
Variable M : nat -> Qc.
Variable env : string -> Qc.
Variable pow_fn : Qc -> Qc -> Qc.

(** A coordinate of body [k]: the value of the variable [p ++ k]. *)
Definition coord (p : string) (k : nat) : Qc := env (p +:+ li_to_string k).

(** The square of the distance between two bodies. *)
Definition dist2 (i k : nat) : Qc :=
  (coord "x_" i - coord "x_" k) * (coord "x_" i - coord "x_" k)
  + (coord "y_" i - coord "y_" k) * (coord "y_" i - coord "y_" k)
  + (coord "z_" i - coord "z_" k) * (coord "z_" i - coord "z_" k).

(** The acceleration that body [i] gives to body [k], along the coordinate
    [p]: [G m_i (p_i - p_k) / |r_i - r_k|^3]. *)
Definition attraction (p : string) (i k : nat) : Qc :=
  G * M i * (coord p i - coord p k) * pow_fn (dist2 i k) (Q2Qc (-3 # 2)).

(** Newton's law for body [k] among [m] bodies. *)
Definition newton_acceleration (m : nat) (p : string) (k : nat) : Qc :=
  sumQc (map (fun i => attraction p i k) (others m k)).

End Law.
End Gravity.

(* ===================================================================== *)
(** * N-body systems: the shape of a system *)
(* ===================================================================== *)

Module NBodyShape.
Import Expr NBody NBodyTerms Gravity.

(** The coordinates, by index in the block of a body, with the prefix of
    their variables. *)
Definition coords : list (nat * string) := [(0, "x_"); (1, "y_"); (2, "z_")].

(** The shape of the masses in the restricted case: massive bodies, then at
    least one massless body, and nothing else. *)
Definition restricted_shape (masses massive massless : list Q) : Prop :=
  masses = massive ++ massless /\ massless <> [] /\
  Forall (fun m => is_zero m = false) massive /\
  Forall (fun m => is_zero m = true) massless.

(** A system in which every variable that occurs on a right-hand side has
    an equation of its own, and no variable has two. *)
Definition well_posed (sys : list (expression * expression)) : Prop :=
  NoDup (fst <$> sys) /\
  forall lhs rhs s,
    (lhs, rhs) ∈ sys -> s ∈ get_variables rhs ->
    exists rhs', (Var s, rhs') ∈ sys.

(** The layout shared by the systems of the two builders: [6 n] equations,
    body by body; the accelerations mention positions only. *)
Definition laid_out (n : nat) (sys : list (expression * expression)) : Prop :=
  length sys = 6 * n /\
  forall k c p, k < n -> (c, p) ∈ coords ->
    sys !! (6 * k + c)
    = Some (Var (p +:+ li_to_string k), Var ("v" +:+ p +:+ li_to_string k)) /\
    exists rhs,
      sys !! (6 * k + 3 + c)
      = Some (Var ("v" +:+ p +:+ li_to_string k), rhs) /\
      forall s, s ∈ get_variables rhs -> exists i, i < n /\ s ∈ pos_vars i.

(** The name on the left of equation [r] of body [k]. *)
Definition lhs_name (k r : nat) : string :=
  match r with
  | 0 => "x_" | 1 => "y_" | 2 => "z_" | 3 => "vx_" | 4 => "vy_" | _ => "vz_"
  end +:+ li_to_string k.

(** The last part of the claim about the parametric masses as the
    specification words it: whatever masses a buffer supplies for the
    [n_massive] massive bodies, the parametric system evaluates correctly
    against it, that is, every acceleration has the value that Newton's law
    gives for these masses. *)
Definition evaluates_correctly (n : nat) (Gconst : Q) (n_massive : nat)
    (buffer : list Q) : Prop :=
  length buffer = n_massive ->
  forall sys,
    make_nbody_sys_par_masses n Gconst n_massive = Return sys ->
    forall k c p lhs rhs,
      k < n -> (c, p) ∈ coords ->
      sys !! (6 * k + 3 + c) = Some (lhs, rhs) ->
      forall env pars pow_fn,
        (forall i, i < n_massive -> pars i = Q2Qc (buffer !!! i)) ->
        eval env pars pow_fn rhs
        = newton_acceleration (Q2Qc Gconst) pars env pow_fn n_massive p k.

End NBodyShape.

(* ===================================================================== *)
(** * The mascon benchmark: the symbolic system *)
(* ===================================================================== *)

Module MasconSystem.
Import Expr.

Section Make.
(** The arguments: the points and the masses of the mascons (finite
    doubles, taken as the rationals they are), the angular velocity, and
    the named argument [G] when it is given. *)
Variable mascon_points : list (list Q).
Variable mascon_masses : list Q.
Variables pd qd rd : Q.
Variable G_kw : option Q.

(** [mascon_points[i][c]] and [mascon_masses[i]]. *)
Definition point (i c : nat) : Q := nth c (nth i mascon_points []) 0%Q.
Definition mass (i : nat) : Q := nth i mascon_masses 0%Q.

(** "G constant (defaults to 1)". *)
Definition G_const : expression :=
  Num (match G_kw with Some g => g | None => 1%Q end).

(** [make_vars("x", "y", "z", "vx", "vy", "vz")]. *)
Definition x : expression := variable "x".
Definition y : expression := variable "y".
Definition z : expression := variable "z".
Definition vx : expression := variable "vx".
Definition vy : expression := variable "vy".
Definition vz : expression := variable "vz".

Definition x_masc (i : nat) : expression := Num (point i 0).
Definition y_masc (i : nat) : expression := Num (point i 1).
Definition z_masc (i : nat) : expression := Num (point i 2).
Definition m_masc (i : nat) : expression := Num (mass i).

Definition r2 (i : nat) : expression :=
  expr_add
    (expr_add (expr_mul (expr_sub x (x_masc i)) (expr_sub x (x_masc i)))
              (expr_mul (expr_sub y (y_masc i)) (expr_sub y (y_masc i))))
    (expr_mul (expr_sub z (z_masc i)) (expr_sub z (z_masc i))).

(** The term pushed on an accumulator in iteration [i]. *)
Definition acc_term (i : nat) (c_masc c : expression) : expression :=
  expr_mul (expr_mul (expr_mul G_const (m_masc i)) (expr_sub c_masc c))
           (pow (r2 i) (Num (-3 # 2))).

(** The accumulators when the loop is over. *)
Definition x_acc : list expression :=
  map (fun i => acc_term i (x_masc i) x) (seq 0 (length mascon_masses)).
Definition y_acc : list expression :=
  map (fun i => acc_term i (y_masc i) y) (seq 0 (length mascon_masses)).
Definition z_acc : list expression :=
  map (fun i => acc_term i (z_masc i) z) (seq 0 (length mascon_masses)).

Definition p : expression := Num pd.
Definition q : expression := Num qd.
Definition r : expression := Num rd.

(** "w x w x r". *)
Definition centripetal_x : expression :=
  expr_add
    (expr_add
       (expr_sub (expr_mul (expr_mul (expr_neg q) q) x)
                 (expr_mul (expr_mul r r) x))
       (expr_mul (expr_mul q y) p))
    (expr_mul (expr_mul r z) p).
Definition centripetal_y : expression :=
  expr_add
    (expr_add
       (expr_sub (expr_mul (expr_mul (expr_neg p) p) y)
                 (expr_mul (expr_mul r r) y))
       (expr_mul (expr_mul p x) q))
    (expr_mul (expr_mul r z) q).
Definition centripetal_z : expression :=
  expr_add
    (expr_add
       (expr_sub (expr_mul (expr_mul (expr_neg p) p) z)
                 (expr_mul (expr_mul q q) z))
       (expr_mul (expr_mul p x) r))
    (expr_mul (expr_mul q y) r).

(** "2 w x v". *)
Definition coriolis_x : expression :=
  expr_mul (Num 2) (expr_sub (expr_mul q vz) (expr_mul r vy)).
Definition coriolis_y : expression :=
  expr_mul (Num 2) (expr_sub (expr_mul r vx) (expr_mul p vz)).
Definition coriolis_z : expression :=
  expr_mul (Num 2) (expr_sub (expr_mul p vy) (expr_mul q vx)).

(** [make_mascon_system(mascon_points, mascon_masses, pd, qd, rd, kw::G = g)]. *)
Definition make_mascon_system : result (list (expression * expression)) :=
  do sx <- pairwise_sum x_acc;
  do sy <- pairwise_sum y_acc;
  do sz <- pairwise_sum z_acc;
  Return [prime_eq x vx; prime_eq y vy; prime_eq z vz;
          prime_eq vx (expr_sub (expr_sub sx centripetal_x) coriolis_x);
          prime_eq vy (expr_sub (expr_sub sy centripetal_y) coriolis_y);
          prime_eq vz (expr_sub (expr_sub sz centripetal_z) coriolis_z)].

End Make.

(** ** The equations of motion in a rotating frame *)

Local Open Scope Qc_scope.

(** The cross product of two vectors. *)
Definition cross3 (a b : Qc * Qc * Qc) : Qc * Qc * Qc :=
  let '(a1, a2, a3) := a in
  let '(b1, b2, b3) := b in
  (a2 * b3 - a3 * b2, a3 * b1 - a1 * b3, a1 * b2 - a2 * b1).

(** A component of a vector. *)
Definition comp (c : nat) (a : Qc * Qc * Qc) : Qc :=
  let '(a1, a2, a3) := a in
  match c with 0%nat => a1 | 1%nat => a2 | _ => a3 end.
Arguments comp c%_nat a.

(** The attraction of the mascons at the position [pos], along the
    coordinate [c]: [Σ_i G m_i (r_i - pos) pow (|pos - r_i|^2, -3/2)]. *)
Definition mascon_gravity (G : Qc) (points : list (list Q)) (masses : list Q)
    (pow_fn : Qc -> Qc -> Qc) (pos : Qc * Qc * Qc) (c : nat) : Qc :=
  Gravity.sumQc
    (map (fun i =>
            let P := fun c => Q2Qc (point points i c) in
            G * Q2Qc (mass masses i) * (P c - comp c pos)
            * pow_fn ((comp 0 pos - P 0%nat) * (comp 0 pos - P 0%nat)
                      + (comp 1 pos - P 1%nat) * (comp 1 pos - P 1%nat)
                      + (comp 2 pos - P 2%nat) * (comp 2 pos - P 2%nat))
                     (Q2Qc (-3 # 2)))
         (seq 0 (length masses))).

(** The six state variables. *)
Definition state_vars : gset string :=
  {[ "x"; "y"; "z"; "vx"; "vy"; "vz" ]}.

End MasconSystem.

(* ===================================================================== *)
(** * From a cartesian state to orbital elements *)
(* ===================================================================== *)

Module Kepler.
Import Elliptic.
Local Open Scope float_scope.

(** The helpers that [cartesian_to_oe] defines as lambdas. *)
Definition cross (a b : double * double * double) : double * double * double :=
  let '(a1, a2, a3) := a in
  let '(b1, b2, b3) := b in
  (a2 * b3 - a3 * b2, a3 * b1 - a1 * b3, a1 * b2 - a2 * b1).

Definition div (a : double * double * double) (d : double)
  : double * double * double :=
  let '(a0, a1, a2) := a in (a0 / d, a1 / d, a2 / d).

Definition sub (a b : double * double * double) : double * double * double :=
  let '(a0, a1, a2) := a in
  let '(b0, b1, b2) := b in
  (a0 - b0, a1 - b1, a2 - b2).

Definition norm2 (a : double * double * double) : double :=
  let '(a0, a1, a2) := a in a0 * a0 + a1 * a1 + a2 * a2.

Definition norm (a : double * double * double) : double := sqrt (norm2 a).

Section Acos.
(** [std::acos] of the C library. *)
Variable acos : double -> double.

(** [cartesian_to_oe(mu, s)], for a state [s] of six components. *)
Definition cartesian_to_oe (mu : double) (s : list double)
  : result (list double) :=
  if existsb (fun x => negb (isfinite x)) s then Throw invalid_argument else
  let x := nth 0 s 0 in
  let y := nth 1 s 0 in
  let z := nth 2 s 0 in
  let vx := nth 3 s 0 in
  let vy := nth 4 s 0 in
  let vz := nth 5 s 0 in
  let pos := (x, y, z) in
  let vel := (vx, vy, vz) in
  let h := cross pos vel in
  let e_v := sub (div (cross vel h) mu) (div pos (norm pos)) in
  let '(h0, h1, h2) := h in
  let n := (- h1, h0, 0) in
  let f := acos (dot e_v pos / (norm e_v * norm pos)) in
  let f := if dot pos vel <? 0 then 2 * pi - f else f in
  let inc := acos (h2 / norm h) in
  let e := norm e_v in
  let '(n0, n1, _) := n in
  let Om := acos (n0 / norm n) in
  let Om := if n1 <? 0 then 2 * pi - Om else Om in
  let om := acos (dot n e_v / (norm n * norm e_v)) in
  let '(_, _, e_v2) := e_v in
  let om := if e_v2 <? 0 then 2 * pi - om else om in
  let a := 1 / (2 / norm pos - norm2 vel / mu) in
  Return [a; e; inc; om; Om; f].

End Acos.
End Kepler.

(* ===================================================================== *)
(** * The mascon benchmark: the energy *)
(* ===================================================================== *)

Module MasconEnergy.
Import Mascon.
Local Open Scope float_scope.

(** [compute_energy(x, mascon_points, mascon_masses, p, q, r, G)]. *)
Definition compute_energy (x : list double) (mascon_points : list (list double))
    (mascon_masses : list double) (p q r G : double) : double :=
  let kinetic :=
    (at1 x 3 * at1 x 3 + at1 x 4 * at1 x 4 + at1 x 5 * at1 x 5) / 2 in
  let potential_g :=
    fold_left
      (fun potential_g i =>
         let distance :=
           sqrt ((at1 x 0 - at2 mascon_points i 0)
                 * (at1 x 0 - at2 mascon_points i 0)
                 + (at1 x 1 - at2 mascon_points i 1)
                   * (at1 x 1 - at2 mascon_points i 1)
                 + (at1 x 2 - at2 mascon_points i 2)
                   * (at1 x 2 - at2 mascon_points i 2)) in
         potential_g - G * at1 mascon_masses i / distance)
      (seq 0 (length mascon_masses)) 0 in
  let potential_c :=
    (-0.5) * (p * p + q * q + r * r)
    * (at1 x 0 * at1 x 0 + at1 x 1 * at1 x 1 + at1 x 2 * at1 x 2)
    + 0.5 * (at1 x 0 * p + at1 x 1 * q + at1 x 2 * r)
      * (at1 x 0 * p + at1 x 1 * q + at1 x 2 * r) in
  kinetic + potential_g + potential_c.

End MasconEnergy.

(* ===================================================================== *)
(** * The lanes of a slab *)
(* ===================================================================== *)

Module JetLanes.
Import Expr Jet.

(** Lane [l] of a slab of [count] rows of [B] lanes: the slab of a batch of
    size one that holds, row by row, the entries of that lane. *)
Definition lane (B l count : nat) (slab : list Q) : list Q :=
  (fun m => slab !!! (m * B + l)) <$> seq 0 count.

End JetLanes.

(* ===================================================================== *)
(** * Facts about pairwise summation *)
(* ===================================================================== *)

Module PairwiseFacts.
Import Pairwise.

(** Induction following [pairwise_round]: two elements at a time. *)
Lemma pair_ind {A : Type} (P : list A -> Prop) :
  P [] -> (forall x, P [x]) -> (forall x y l, P l -> P (x :: y :: l)) ->
  forall l, P l.
Proof.
  intros H0 H1 H2.
  enough (H : forall l, P l /\ forall x, P (x :: l)) by (intros l; apply H).
  induction l as [|y l [IH1 IH2]]; split; auto.
Qed.

Lemma pairwise_round_length_le {A : Type} (add : A -> A -> A) (l : list A) :
  length (pairwise_round add l) <= length l.
Proof. induction l as [|x|x y l IH] using pair_ind; cbn; lia. Qed.

Lemma pairwise_round_nonempty {A : Type} (add : A -> A -> A) (l : list A) :
  l <> [] -> pairwise_round add l <> [].
Proof. destruct l as [|x [|y rest]]; cbn; congruence. Qed.

(** Induction following the [while] loop: a property of the result that
    holds when the loop stops, and that a round carries backwards, holds for
    every non-empty vector. *)
Lemma pairwise_loop_ind {A : Type} (add : A -> A -> A) (zero : A)
    (P : list A -> A -> Prop) :
  (forall x, P [x] x) ->
  (forall x y rest r,
      P (pairwise_round add (x :: y :: rest)) r -> P (x :: y :: rest) r) ->
  forall l, l <> [] -> P l (pairwise_loop add zero l).
Proof.
  intros Hstop Hround.
  enough (H : forall n l, length l <= n -> l <> [] ->
                          P l (pairwise_loop add zero l))
    by (intros l; apply (H (length l)); lia).
  induction n as [|n IH]; intros [|x [|y rest]] Hn Hne; try congruence.
  - cbn in Hn. lia.
  - cbn in Hn. lia.
  - rewrite pairwise_loop_equation_2. apply Hstop.
  - rewrite pairwise_loop_equation_3. apply Hround, IH.
    + pose proof (pairwise_round_length_le add rest).
      cbn [pairwise_round length] in *. lia.
    + apply pairwise_round_nonempty. discriminate.
Qed.

Section Homomorphism.
Context {A B : Type}.
Variables (addA : A -> A -> A) (zeroA : A).
Variables (addB : B -> B -> B) (zeroB : B).
Variable f : A -> B.
Hypothesis f_add : forall x y, f (addA x y) = addB (f x) (f y).

Lemma pairwise_round_map (l : list A) :
  map f (pairwise_round addA l) = pairwise_round addB (map f l).
Proof.
  induction l as [|x|x y rest IH] using pair_ind; try reflexivity.
  cbn [pairwise_round map]. now rewrite f_add, IH.
Qed.

Lemma pairwise_loop_map (l : list A) :
  l <> [] ->
  f (pairwise_loop addA zeroA l) = pairwise_loop addB zeroB (map f l).
Proof.
  apply (pairwise_loop_ind addA zeroA
           (fun l r => f r = pairwise_loop addB zeroB (map f l))).
  - intros x. cbn [map]. now simp pairwise_loop.
  - intros x y rest r ->. rewrite pairwise_round_map.
    cbn [map]. now simp pairwise_loop.
Qed.
End Homomorphism.

Section Shape.
Context {A : Type}.
Implicit Types (t : tree A) (ts : list (tree A)).

Lemma perfect_height k t : perfect k t -> height t = k.
Proof. induction 1; cbn; lia. Qed.

Lemma perfect_left_leaning k t : perfect k t -> left_leaning t.
Proof.
  induction 1 as [a|k l r Hl IHl Hr IHr]; constructor; auto.
  - now rewrite (perfect_height _ _ Hl).
  - rewrite (perfect_height _ _ Hl), (perfect_height _ _ Hr). lia.
Qed.

Lemma perfect_leaves k t : perfect k t -> length (leaves t) = 2 ^ k.
Proof.
  induction 1; cbn [leaves]; [reflexivity|].
  rewrite length_app, Nat.pow_succ_r'. lia.
Qed.

Lemma level_leaves (l : list A) : l <> [] -> level 0 (map (@Leaf A) l).
Proof.
  induction l as [|x [|y l] IH]; intros Hne; [congruence| |].
  - cbn. split; [constructor|lia].
  - change (perfect 0 (Leaf x) /\ level 0 (map (@Leaf A) (y :: l))).
    split; [constructor|]. apply IH. congruence.
Qed.

Lemma pairwise_round_level k ts :
  level k ts -> level (S k) (pairwise_round (@Node A) ts).
Proof.
  induction ts as [|x|x y rest IH] using pair_ind; intros H.
  - exact I.
  - cbn in *. intuition lia.
  - destruct H as [Hx Hy]. cbn [pairwise_round].
    destruct rest as [|z rest'].
    + cbn in Hy |- *. destruct Hy as [Hy Hh].
      rewrite <- (perfect_height _ _ Hx) in Hh |- *.
      split; [|cbn; lia].
      constructor; auto. now rewrite (perfect_height _ _ Hx) in *.
    + destruct Hy as [Hy Hrest].
      assert (Hlev : level (S k) (pairwise_round (@Node A) (z :: rest')))
        by (apply IH; exact Hrest).
      destruct (pairwise_round (@Node A) (z :: rest')) eqn:E.
      * destruct rest' as [|? ?]; discriminate E.
      * split; [now constructor|exact Hlev].
Qed.

Lemma pairwise_round_leaves ts :
  concat (map leaves (pairwise_round (@Node A) ts)) = concat (map leaves ts).
Proof.
  induction ts as [|x|x y rest IH] using pair_ind; try reflexivity.
  cbn [pairwise_round map concat leaves].
  now rewrite IH, app_assoc.
Qed.

Lemma pairwise_loop_shape (d : tree A) ts :
  ts <> [] ->
  forall k, level k ts ->
  left_leaning (pairwise_loop (@Node A) d ts) /\
  leaves (pairwise_loop (@Node A) d ts) = concat (map leaves ts).
Proof.
  apply (pairwise_loop_ind (@Node A) d
           (fun ts r => forall k, level k ts ->
              left_leaning r /\ leaves r = concat (map leaves ts))).
  - intros x k [Hll _]. cbn. now rewrite app_nil_r.
  - intros x y rest r IH k Hlev.
    destruct (IH (S k) (pairwise_round_level _ _ Hlev)) as [Hll Hlv].
    split; [exact Hll|].
    rewrite Hlv. apply pairwise_round_leaves.
Qed.

(** A left-leaning tree is as shallow as a binary tree over its leaves can
    be: its height is the base-2 logarithm of their number, rounded up. *)
Lemma left_leaning_height t :
  left_leaning t ->
  2 ^ height t < 2 * length (leaves t) <= 2 ^ S (height t).
Proof.
  induction 1 as [a|l r Hl Hr IH Hh]; [cbn; lia|].
  cbn [leaves height]. rewrite length_app, (perfect_leaves _ _ Hl).
  replace (Nat.max (height l) (height r)) with (height l) by lia.
  pose proof (Nat.pow_le_mono_r 2 _ _ ltac:(lia) Hh) as Hpow.
  rewrite !Nat.pow_succ_r' in *. lia.
Qed.

Lemma leaves_nonempty t : leaves t <> [].
Proof.
  induction t as [a|l IHl r IHr]; cbn; [discriminate|].
  destruct (leaves l); [congruence|discriminate].
Qed.
End Shape.

Section Exact.
Context {A : Type}.
Variable add : A -> A -> A.
Hypothesis add_assoc : forall x y z, add x (add y z) = add (add x y) z.

Lemma fold_left_add_shift (l : list A) (a b : A) :
  add a (fold_left add l b) = fold_left add l (add a b).
Proof.
  revert b. induction l as [|c l IH]; intros b; cbn; [reflexivity|].
  now rewrite IH, add_assoc.
Qed.

(** With an associative addition the value of a reduction tree is the
    left-to-right sum of its leaves. *)
Lemma eval_sum_from (t : tree A) :
  exists x l, leaves t = x :: l /\ eval add t = sum_from add x l.
Proof.
  induction t as [a|l (x1 & l1 & E1 & S1) r (x2 & l2 & E2 & S2)].
  - exists a, []. split; reflexivity.
  - exists x1, (l1 ++ x2 :: l2). cbn [leaves eval].
    rewrite E1, E2, S1, S2. split; [reflexivity|].
    unfold sum_from. rewrite fold_left_app. cbn [fold_left].
    apply fold_left_add_shift.
Qed.
End Exact.

Lemma concat_map_leaves_Leaf {A : Type} (l : list A) :
  concat (map leaves (map (@Leaf A) l)) = l.
Proof. induction l as [|x l IH]; cbn; congruence. Qed.

Lemma map_eval_Leaf {A : Type} (add : A -> A -> A) (l : list A) :
  map (eval add) (map (@Leaf A) l) = l.
Proof. induction l as [|x l IH]; cbn; congruence. Qed.

End PairwiseFacts.

(* ===================================================================== *)
(** * Facts about the N-body builders *)
(* ===================================================================== *)

Module NBodyFacts.
Import Expr NBody NBodyTerms.

Lemma for_loop_invariant {S : Type} (Inv : nat -> S -> Prop)
    (body : nat -> S -> result S) (hi : nat) :
  (forall i s, i < hi -> Inv i s ->
               exists s', body i s = Return s' /\ Inv (Datatypes.S i) s') ->
  forall count lo s, lo + count <= hi -> Inv lo s ->
  exists s', for_loop lo count body s = Return s' /\ Inv (lo + count) s'.
Proof.
  intros Hbody. induction count as [|c IH]; intros lo s Hle Hinv.
  - exists s. rewrite Nat.add_0_r. split; [reflexivity|exact Hinv].
  - destruct (Hbody lo s ltac:(lia) Hinv) as (s1 & E1 & I1).
    destruct (IH (Datatypes.S lo) s1 ltac:(lia) I1) as (s2 & E2 & I2).
    exists s2. cbn [for_loop]. rewrite E1. cbn [bind].
    split; [exact E2|]. now replace (lo + Datatypes.S c) with (Datatypes.S lo + c) by lia.
Qed.

Lemma pairwise_sum_sum_expr (l : list expression) :
  N.of_nat (length l) <> Pairwise.size_max ->
  pairwise_sum l = Return (sum_expr l).
Proof.
  intros H. unfold pairwise_sum, Pairwise.pairwise_sum, sum_expr.
  destruct (N.eqb_spec (N.of_nat (length l)) Pairwise.size_max); [contradiction|].
  destruct l; [|reflexivity]. now rewrite Pairwise.pairwise_loop_equation_1.
Qed.

Section Loops.
Variable n : nat.
Variable mf : mass_factors.
Variable nm : nat.
Hypothesis nm_le_n : nm <= n.

Local Abbreviation cstep := (cell_step n mf nm).
Local Abbreviation cells_ok := (NBodyTerms.cells_ok n mf nm).
Local Abbreviation loop_inv := (NBodyTerms.loop_inv n mf nm).

Lemma option_fmap_app_nil {A} (o : option (list A)) :
  (fun l => l ++ []) <$> o = o.
Proof. destruct o; cbn; [now rewrite app_nil_r|reflexivity]. Qed.

(** The loop over [j], on the accumulator of one coordinate. *)
Lemma cell_fold (vs : list expression) (i : nat) (a : list (list expression))
    (m : nat) :
  let a' := fold_left (cstep vs i) (seq (S i) m) a in
  length a' = length a /\
  a' !! i = (fun l => l ++ map (by_term n mf vs i)
                              (seq (S i) (Nat.min (S i + m) nm - S i)))
            <$> a !! i /\
  (forall k, S i <= k < S i + m ->
     a' !! k = (fun l => l ++ [if k <? nm then on_term n mf vs i k
                               else ow_term n mf vs i k]) <$> a !! k) /\
  (forall k, S i + m <= k -> a' !! k = a !! k).
Proof.
  induction m as [|m (IHlen & IHi & IHmid & IHhi)]; cbn zeta.
  - cbn [seq fold_left].
    replace (Nat.min (S i + 0) nm - S i) with 0 by lia. cbn [seq map].
    split; [reflexivity|]. split; [now rewrite option_fmap_app_nil|].
    split; [intros; lia|reflexivity].
  - cbn zeta in *. rewrite seq_S, fold_left_app. cbn [fold_left].
    set (a1 := fold_left (cstep vs i) (seq (S i) m) a) in *.
    set (j := S i + m). unfold cell_step.
    destruct (Nat.ltb_spec j nm) as [Hj|Hj].
    + unfold push_back_at. rewrite !length_alter.
      split; [exact IHlen|]. split; [|split].
      * rewrite list_lookup_alter_ne by lia.
        rewrite list_lookup_alter_eq, IHi.
        replace (Nat.min (S i + S m) nm - S i) with (S m) by lia.
        replace (Nat.min (S i + m) nm - S i) with m by lia.
        rewrite seq_S, map_app. cbn [map]. fold j.
        destruct (a !! i); cbn; [|reflexivity].
        unfold push_back. now rewrite <- app_assoc.
      * intros k Hk. destruct (decide (k = j)) as [->|Hne].
        -- rewrite list_lookup_alter_eq, list_lookup_alter_ne by lia.
           rewrite IHhi by lia.
           destruct (Nat.ltb_spec j nm); [reflexivity|lia].
        -- rewrite !list_lookup_alter_ne by lia. apply IHmid. lia.
      * intros k Hk. rewrite !list_lookup_alter_ne by lia. apply IHhi. lia.
    + unfold push_back_at. rewrite !length_alter.
      split; [exact IHlen|]. split; [|split].
      * rewrite list_lookup_alter_ne by lia. rewrite IHi.
        now replace (Nat.min (S i + S m) nm - S i)
          with (Nat.min (S i + m) nm - S i) by lia.
      * intros k Hk. destruct (decide (k = j)) as [->|Hne].
        -- rewrite list_lookup_alter_eq. rewrite IHhi by lia.
           destruct (Nat.ltb_spec j nm); [lia|reflexivity].
        -- rewrite !list_lookup_alter_ne by lia. apply IHmid. lia.
      * intros k Hk. rewrite !list_lookup_alter_ne by lia. apply IHhi. lia.
Qed.

(** The loop over [j] works on the three accumulators separately and leaves
    [retval] alone. *)
Lemma interaction_fold (i : nat) (js : list nat) (st : accs) :
  let st' := fold_left (restricted_interaction n mf nm i) js st in
  retval st' = retval st /\
  x_acc st' = fold_left (cstep (x_vars n) i) js (x_acc st) /\
  y_acc st' = fold_left (cstep (y_vars n) i) js (y_acc st) /\
  z_acc st' = fold_left (cstep (z_vars n) i) js (z_acc st).
Proof.
  revert st. induction js as [|j js IH]; intros st; [now cbn|].
  cbn [fold_left]. cbn zeta in *.
  destruct (IH (restricted_interaction n mf nm i st j)) as (-> & -> & -> & ->).
  unfold restricted_interaction, cell_step, by_term, on_term, ow_term.
  destruct (j <? nm); cbn; auto.
Qed.

Hypothesis n_small : (N.of_nat n < Pairwise.size_max)%N.


Lemma terms_length (vs : list expression) (k : nat) :
  length (terms n mf nm vs k) <= nm.
Proof.
  unfold terms, from_earlier, from_later.
  destruct (Nat.ltb_spec k nm);
    rewrite ?length_app, !length_map, !length_seq; lia.
Qed.

Lemma pairwise_sum_terms (vs : list expression) (k : nat) :
  pairwise_sum (terms n mf nm vs k) = Return (sum_expr (terms n mf nm vs k)).
Proof.
  apply pairwise_sum_sum_expr. pose proof (terms_length vs k). lia.
Qed.

Lemma blocks_S (I : nat) :
  blocks n mf nm (S I) = blocks n mf nm I ++ block n mf nm I.
Proof.
  unfold blocks. rewrite seq_S, flat_map_app. cbn [flat_map].
  now rewrite app_nil_r.
Qed.

Lemma cells_ok_massive (I : nat) (vs : list expression)
    (a : list (list expression)) :
  I < nm -> cells_ok I vs a ->
  let a' := fold_left (cstep vs I) (seq (S I) (n - S I)) a in
  a' !!! I = terms n mf nm vs I /\ cells_ok (S I) vs a'.
Proof.
  intros HI [Hlen Hcells] a'.
  destruct (cell_fold vs I a (n - S I)) as (Hl & Hi & Hmid & _).
  fold a' in Hl, Hi, Hmid. split; [|split].
  - apply list_lookup_total_correct. rewrite Hi, Hcells by lia.
    cbn [fmap option_fmap option_map].
    unfold terms. destruct (Nat.ltb_spec I nm); [|lia].
    unfold from_later.
    replace (Nat.min (S I + (n - S I)) nm - S I) with (nm - S I) by lia.
    now replace (Nat.min I nm) with I by lia.
  - lia.
  - intros k Hk. rewrite Hmid, Hcells by lia.
    cbn [fmap option_fmap option_map]. f_equal.
    unfold from_earlier.
    replace (Nat.min (S I) nm) with (S I) by lia.
    replace (Nat.min I nm) with I by lia.
    now rewrite seq_S, map_app.
Qed.

Lemma cells_ok_massless (I : nat) (vs : list expression)
    (a : list (list expression)) :
  nm <= I < n -> cells_ok I vs a ->
  a !!! I = terms n mf nm vs I /\ cells_ok (S I) vs a.
Proof.
  intros HI [Hlen Hcells]. split; [|split; [exact Hlen|]].
  - apply list_lookup_total_correct. rewrite Hcells by lia.
    unfold terms. destruct (Nat.ltb_spec I nm); [lia|].
    now replace (Nat.min I nm) with nm by lia.
  - intros k Hk. rewrite Hcells by lia.
    now replace (Nat.min (S I) nm) with (Nat.min I nm) by lia.
Qed.

Lemma push_accelerations_terms (I : nat) (st : accs) :
  x_acc st !!! I = terms n mf nm (x_vars n) I ->
  y_acc st !!! I = terms n mf nm (y_vars n) I ->
  z_acc st !!! I = terms n mf nm (z_vars n) I ->
  exists st',
    push_accelerations n I st = Return st' /\
    retval st' = retval st ++ drop 3 (block n mf nm I) /\
    x_acc st' = x_acc st /\ y_acc st' = y_acc st /\ z_acc st' = z_acc st.
Proof.
  intros Hx Hy Hz. unfold push_accelerations.
  rewrite Hx, Hy, Hz, !pairwise_sum_terms. cbn [bind].
  eexists. split; [reflexivity|]. cbn [x_acc y_acc z_acc retval].
  unfold push_back, block. rewrite <- !app_assoc. now cbn.
Qed.

Lemma push_velocities_retval (I : nat) (st : accs) :
  retval (push_velocities n I st) = retval st ++ take 3 (block n mf nm I).
Proof.
  unfold push_velocities, push_back, block. cbn [retval].
  rewrite <- !app_assoc. now cbn.
Qed.

Lemma block_take_drop (I : nat) (r : list (expression * expression)) :
  (r ++ take 3 (block n mf nm I)) ++ drop 3 (block n mf nm I)
  = r ++ block n mf nm I.
Proof. now rewrite <- app_assoc, take_drop. Qed.

Lemma massive_body_inv (I : nat) (st : accs) :
  I < nm -> loop_inv I st ->
  exists st', massive_body n mf nm I st = Return st' /\ loop_inv (S I) st'.
Proof.
  intros HI (Hret & Hx & Hy & Hz). unfold massive_body. cbn zeta.
  set (st0 := push_velocities n I st).
  set (st1 := fold_left (restricted_interaction n mf nm I)
                        (seq (S I) (n - S I)) st0).
  destruct (interaction_fold I (seq (S I) (n - S I)) st0)
    as (Er & Ex & Ey & Ez). fold st1 in Er, Ex, Ey, Ez.
  change (x_acc st0) with (x_acc st) in Ex.
  change (y_acc st0) with (y_acc st) in Ey.
  change (z_acc st0) with (z_acc st) in Ez.
  destruct (cells_ok_massive I _ _ HI Hx) as [Tx Cx].
  destruct (cells_ok_massive I _ _ HI Hy) as [Ty Cy].
  destruct (cells_ok_massive I _ _ HI Hz) as [Tz Cz].
  cbn zeta in *. rewrite <- Ex in Tx, Cx. rewrite <- Ey in Ty, Cy.
  rewrite <- Ez in Tz, Cz.
  destruct (push_accelerations_terms I st1 Tx Ty Tz)
    as (st' & E' & Hr' & Hx' & Hy' & Hz').
  exists st'. split; [exact E'|]. unfold NBodyTerms.loop_inv.
  rewrite Hr', Hx', Hy', Hz', Er. subst st0.
  rewrite push_velocities_retval, block_take_drop, Hret, blocks_S. auto.
Qed.

Lemma massless_body_inv (I : nat) (st : accs) :
  I < n -> nm <= I /\ loop_inv I st ->
  exists st', massless_body n I st = Return st' /\
              (nm <= S I /\ loop_inv (S I) st').
Proof.
  intros HI (Hnm & Hret & Hx & Hy & Hz). unfold massless_body.
  destruct (cells_ok_massless I _ _ ltac:(lia) Hx) as [Tx Cx].
  destruct (cells_ok_massless I _ _ ltac:(lia) Hy) as [Ty Cy].
  destruct (cells_ok_massless I _ _ ltac:(lia) Hz) as [Tz Cz].
  destruct (push_accelerations_terms I (push_velocities n I st) Tx Ty Tz)
    as (st' & E' & Hr' & Hx' & Hy' & Hz').
  exists st'. split; [exact E'|]. split; [lia|]. unfold NBodyTerms.loop_inv.
  rewrite Hr', Hx', Hy', Hz'.
  rewrite push_velocities_retval, block_take_drop, Hret, blocks_S. auto.
Qed.

Lemma init_accs_inv : loop_inv 0 (init_accs n).
Proof.
  unfold NBodyTerms.loop_inv, NBodyTerms.cells_ok, init_accs. cbn [retval x_acc y_acc z_acc].
  rewrite !length_replicate.
  repeat split; try reflexivity; intros k Hk;
    now rewrite lookup_replicate_2 by lia.
Qed.

(** The two loops build the blocks of the [n] bodies, one after the other,
    and nothing is thrown. *)
Theorem restricted_system_blocks :
  restricted_system n mf nm = Return (blocks n mf nm n).
Proof.
  unfold restricted_system.
  destruct (for_loop_invariant loop_inv (massive_body n mf nm) nm
              massive_body_inv nm 0 (init_accs n) ltac:(lia) init_accs_inv)
    as (st1 & E1 & I1).
  rewrite E1. cbn [bind].
  destruct (for_loop_invariant (fun i st => nm <= i /\ loop_inv i st)
              (massless_body n) n massless_body_inv (n - nm) nm st1
              ltac:(lia) (conj (le_n _) I1))
    as (st2 & E2 & _ & I2).
  rewrite E2. cbn [bind]. f_equal.
  destruct I2 as [-> _]. f_equal. lia.
Qed.

End Loops.

(** ** Indexing the system *)

Lemma blocks_length n mf nm I : length (blocks n mf nm I) = 6 * I.
Proof.
  induction I as [|I IH]; [reflexivity|].
  rewrite blocks_S, length_app, IH. cbn [block length]. lia.
Qed.

Lemma blocks_lookup n mf nm I k r :
  k < I -> r < 6 -> blocks n mf nm I !! (6 * k + r) = block n mf nm k !! r.
Proof.
  intros Hk Hr. induction I as [|I IH]; [lia|].
  rewrite blocks_S. destruct (decide (k = I)) as [->|Hne].
  - rewrite lookup_app_r by (rewrite blocks_length; lia).
    rewrite blocks_length. f_equal. lia.
  - rewrite lookup_app_l by (rewrite blocks_length; lia). apply IH. lia.
Qed.

Lemma make_vars_lookup (p : string) (n i : nat) :
  i < n -> make_vars p n !!! i = Var (p +:+ li_to_string i).
Proof.
  intros Hi. unfold make_vars. apply list_lookup_total_correct.
  rewrite list_lookup_fmap, lookup_seq_lt by exact Hi. reflexivity.
Qed.

(** ** Sums of expressions *)

Lemma pairwise_round_Forall {A : Type} (P : A -> Prop) (add : A -> A -> A)
    (l : list A) :
  (forall a b, P a -> P b -> P (add a b)) ->
  Forall P l -> Forall P (Pairwise.pairwise_round add l).
Proof.
  intros Hadd.
  induction l as [|x|x y l IH] using PairwiseFacts.pair_ind; intros H.
  - constructor.
  - exact H.
  - cbn [Pairwise.pairwise_round].
    apply Forall_cons in H as [Hx H]. apply Forall_cons in H as [Hy H].
    constructor; auto.
Qed.

Lemma pairwise_loop_closed {A : Type} (P : A -> Prop) (add : A -> A -> A)
    (zero : A) (l : list A) :
  (forall a b, P a -> P b -> P (add a b)) ->
  l <> [] -> Forall P l -> P (Pairwise.pairwise_loop add zero l).
Proof.
  intros Hadd Hne.
  apply (PairwiseFacts.pairwise_loop_ind add zero
           (fun l r => Forall P l -> P r)); [| |exact Hne].
  - intros x Hx. now apply Forall_cons in Hx as [Hx _].
  - intros x y rest r IH H. apply IH.
    now apply pairwise_round_Forall.
Qed.

Lemma sum_expr_closed (P : expression -> Prop) (l : list expression) :
  P (Num 0) ->
  (forall a b, P a -> P b -> P (expr_add a b)) ->
  Forall P l -> P (sum_expr l).
Proof.
  intros H0 Hadd Hl. unfold sum_expr. destruct l as [|x l].
  - now rewrite Pairwise.pairwise_loop_equation_1.
  - now apply pairwise_loop_closed.
Qed.

(** ** The variables of the terms *)

Lemma get_variables_expr_add a b :
  get_variables (expr_add a b) ⊆ get_variables a ∪ get_variables b.
Proof.
  unfold expr_add.
  destruct a, b; cbn; try set_solver;
    match goal with |- context [Qeq_bool ?q 0] => destruct (Qeq_bool q 0) end;
    cbn; set_solver.
Qed.

Lemma get_variables_expr_sub a b :
  get_variables (expr_sub a b) ⊆ get_variables a ∪ get_variables b.
Proof. unfold expr_sub. destruct a, b; cbn; set_solver. Qed.

Lemma get_variables_expr_mul a b :
  get_variables (expr_mul a b) ⊆ get_variables a ∪ get_variables b.
Proof.
  unfold expr_mul. destruct (is_number b _); cbn; set_solver.
Qed.

Lemma get_variables_diff (p : string) (n i j : nat) :
  i < n -> j < n ->
  get_variables (diff (make_vars p n) i j)
  ⊆ {[ p +:+ li_to_string i; p +:+ li_to_string j ]}.
Proof.
  intros Hi Hj. unfold diff. rewrite !make_vars_lookup by assumption.
  cbn. set_solver.
Qed.

Lemma get_variables_r_m3 (n i j : nat) :
  i < n -> j < n -> get_variables (r_m3 n i j) ⊆ pos_vars i ∪ pos_vars j.
Proof.
  intros Hi Hj. unfold r_m3, pow, square. cbn [get_variables].
  pose proof (get_variables_diff "x_" n i j Hi Hj).
  pose proof (get_variables_diff "y_" n i j Hi Hj).
  pose proof (get_variables_diff "z_" n i j Hi Hj).
  fold (x_vars n) (y_vars n) (z_vars n) in *.
  pose proof (get_variables_expr_add
                (expr_add (Func "square" [diff (x_vars n) i j])
                          (Func "square" [diff (y_vars n) i j]))
                (Func "square" [diff (z_vars n) i j])).
  pose proof (get_variables_expr_add
                (Func "square" [diff (x_vars n) i j])
                (Func "square" [diff (y_vars n) i j])).
  cbn [get_variables] in *. unfold pos_vars. set_solver.
Qed.

Lemma pos_vars_inj (i j : nat) (s : string) :
  s ∈ pos_vars i -> s ∈ pos_vars j -> i = j.
Proof.
  unfold pos_vars, li_to_string.
  rewrite !elem_of_union, !elem_of_singleton. cbn.
  intros [[->| ->]| ->] [[E|E]|E]; try discriminate E;
    injection E as E; exact (inj pretty _ _ E).
Qed.

(** ** The counting loops *)

Lemma count_while_all (p : Q -> bool) (l rest : list Q) :
  Forall (fun m => p m = true) l ->
  match rest with [] => True | m :: _ => p m = false end ->
  count_while p (l ++ rest) = (length l, rest).
Proof.
  intros Hl Hrest. induction Hl as [|m l Hm _ IH]; cbn.
  - destruct rest as [|m rest]; [reflexivity|]. cbn. now rewrite Hrest.
  - now rewrite Hm, IH.
Qed.

Lemma n_fc_split (massive massless : list Q) :
  Forall (fun m => is_zero m = false) massive ->
  Forall (fun m => is_zero m = true) massless ->
  n_fc_massive (massive ++ massless) = length massive /\
  n_fc_massless (massive ++ massless) = length massless.
Proof.
  intros H1 H2. unfold n_fc_massive, n_fc_massless.
  rewrite (count_while_all (fun m => negb (is_zero m)) massive massless).
  - cbn [fst snd]. split; [reflexivity|].
    rewrite <- (app_nil_r massless) at 1.
    now rewrite (count_while_all is_zero massless []).
  - eapply Forall_impl; [exact H1|]. cbn. now intros m ->.
  - destruct H2 as [|m l Hm _]; [exact I|]. now rewrite Hm.
Qed.

(** ** No overflow in the general case *)

Section General.
Context {arith : number_arith}.
Variables (n : nat) (Gconst : Q) (masses : list Q).
Hypothesis n_u32 : (N.of_nat n < 2 ^ 32)%N.


Lemma push_back_at_lookup_le (b : nat) (a : list (list expression)) j e :
  Forall (fun c => length c <= b) a ->
  forall k c, push_back_at a j e !! k = Some c ->
              length c <= (if decide (j = k) then S b else b).
Proof.
  intros H k c. unfold push_back_at. rewrite Forall_lookup in H.
  destruct (decide (j = k)) as [->|Hne].
  - rewrite list_lookup_alter_eq. destruct (a !! k) as [c0|] eqn:E; [|easy].
    cbn. intros [= <-]. unfold push_back. rewrite length_app. cbn.
    specialize (H k c0 E). cbn in H. lia.
  - rewrite list_lookup_alter_ne by exact Hne. intros E.
    specialize (H k c E). cbn in H. lia.
Qed.

Lemma push_back_at_le (b : nat) (a : list (list expression)) j e :
  Forall (fun c => length c <= b) a ->
  Forall (fun c => length c <= S b) (push_back_at a j e).
Proof.
  intros H. apply Forall_lookup. intros k c Hc.
  pose proof (push_back_at_lookup_le b a j e H k c Hc) as Hle.
  cbn. destruct (decide (j = k)); lia.
Qed.

Lemma push_back_at_twice_le (b : nat) (a : list (list expression)) i j e1 e2 :
  i <> j ->
  Forall (fun c => length c <= b) a ->
  Forall (fun c => length c <= S b)
         (push_back_at (push_back_at a i e1) j e2).
Proof.
  intros Hij H. apply Forall_lookup. intros k c. unfold push_back_at at 1.
  destruct (decide (j = k)) as [->|Hne].
  - rewrite list_lookup_alter_eq.
    destruct (push_back_at a i e1 !! k) as [c0|] eqn:E; [|easy].
    cbn [fmap option_fmap option_map]. intros [= <-].
    pose proof (push_back_at_lookup_le b a i e1 H k c0 E) as Hle.
    destruct (decide (i = k)); [congruence|].
    unfold push_back. rewrite length_app. cbn. lia.
  - rewrite list_lookup_alter_ne by exact Hne. intros E.
    pose proof (push_back_at_lookup_le b a i e1 H k c E) as Hle.
    cbn. destruct (decide (i = k)); lia.
Qed.

Lemma general_interaction_le (b i j : nat) (st : accs) :
  i <> j ->
  cells_le b st -> cells_le (S b) (general_interaction n Gconst masses i st j).
Proof.
  intros Hij (Hx & Hy & Hz).
  unfold general_interaction, cells_le, one_way, mutual.
  destruct (is_zero (masses !!! j)); cbn [x_acc y_acc z_acc];
    repeat split;
    auto using push_back_at_le, push_back_at_twice_le.
Qed.

Lemma general_fold_le (b i : nat) (js : list nat) (st : accs) :
  Forall (fun j => i <> j) js ->
  cells_le b st ->
  cells_le (b + length js)
           (fold_left (general_interaction n Gconst masses i) js st).
Proof.
  intros Hjs. revert b st.
  induction Hjs as [|j js Hj _ IH]; intros b st Hst; cbn [fold_left length].
  - now rewrite Nat.add_0_r.
  - replace (b + S (length js)) with (S b + length js) by lia.
    apply IH, general_interaction_le; assumption.
Qed.

Lemma cells_le_lookup_total (b i : nat) (a : list (list expression)) :
  Forall (fun c => length c <= b) a -> length (a !!! i) <= b.
Proof.
  intros H. destruct (a !! i) as [c|] eqn:E.
  - rewrite (list_lookup_total_correct _ _ _ E).
    rewrite Forall_lookup in H. exact (H i c E).
  - rewrite list_lookup_total_alt, E. cbn. lia.
Qed.

Lemma general_body_inv (i : nat) (st : accs) :
  i < n -> cells_le (i * n) st ->
  exists st', general_body n Gconst masses i st = Return st' /\
              cells_le (S i * n) st'.
Proof.
  intros Hi Hst. unfold general_body. cbn zeta.
  set (st1 := fold_left _ _ _).
  assert (H1 : cells_le (S i * n) st1).
  { assert (H0 : cells_le (i * n + length (seq (S i) (n - S i))) st1).
    { apply general_fold_le; [|exact Hst].
      apply Forall_forall. intros j Hj%elem_of_seq. lia. }
    rewrite length_seq in H0. destruct H0 as (Hx & Hy & Hz).
    repeat split; (eapply Forall_impl; [eassumption|cbn; lia]). }
  destruct H1 as (Hx & Hy & Hz). unfold push_accelerations.
  assert (Hbound : (N.of_nat (S i * n) < Pairwise.size_max)%N).
  { unfold Pairwise.size_max.
    assert (N.of_nat (S i * n) <= N.of_nat n * N.of_nat n)%N by nia.
    assert (N.of_nat n * N.of_nat n <= (2 ^ 32 - 1) * (2 ^ 32 - 1))%N by nia.
    change ((2 ^ 32 - 1) * (2 ^ 32 - 1))%N with 18446744065119617025%N in *.
    change (2 ^ 64 - 1)%N with 18446744073709551615%N. lia. }
  rewrite !pairwise_sum_sum_expr
    by (match goal with
        | |- N.of_nat (length (?a !!! _)) <> _ =>
            pose proof (cells_le_lookup_total (S i * n) i a ltac:(assumption))
        end; lia).
  cbn [bind]. eexists. split; [reflexivity|].
  repeat split; assumption.
Qed.

Lemma general_system_returns :
  exists sys, general_system n Gconst masses = Return sys.
Proof.
  unfold general_system.
  destruct (for_loop_invariant (fun i st => cells_le (i * n) st)
              (general_body n Gconst masses) n general_body_inv n 0
              (init_accs n) ltac:(lia)) as (st & E & _).
  - unfold cells_le, init_accs. cbn [x_acc y_acc z_acc].
    repeat split; apply Forall_replicate; cbn; lia.
  - rewrite E. cbn [bind]. eauto.
Qed.

End General.

Lemma u32_small (n : nat) :
  (N.of_nat n < 2 ^ 32)%N -> (N.of_nat n < Pairwise.size_max)%N.
Proof.
  unfold Pairwise.size_max.
  change (2 ^ 32)%N with 4294967296%N.
  change (2 ^ 64 - 1)%N with 18446744073709551615%N. lia.
Qed.

End NBodyFacts.

Module NBodyParFacts.
Import Expr NBody NBodyTerms NBodyFacts.

(** ** Exact arithmetic *)

Lemma Q2Qc_plus (x y : Q) : Q2Qc (x + y) = (Q2Qc x + Q2Qc y)%Qc.
Proof.
  unfold Qcplus. apply Q2Qc_eq_iff. cbn [this Q2Qc].
  now rewrite !Qred_correct.
Qed.

Lemma Q2Qc_mult (x y : Q) : Q2Qc (x * y) = (Q2Qc x * Q2Qc y)%Qc.
Proof.
  unfold Qcmult. apply Q2Qc_eq_iff. cbn [this Q2Qc].
  now rewrite !Qred_correct.
Qed.

Lemma Q2Qc_opp (x : Q) : Q2Qc (- x) = (- Q2Qc x)%Qc.
Proof.
  unfold Qcopp. apply Q2Qc_eq_iff. cbn [this Q2Qc].
  now rewrite !Qred_correct.
Qed.

Lemma Q2Qc_inv (x : Q) : Q2Qc (/ x) = (/ Q2Qc x)%Qc.
Proof.
  unfold Qcinv. apply Q2Qc_eq_iff. cbn [this Q2Qc].
  now rewrite !Qred_correct.
Qed.

Lemma Q2Qc_minus (x y : Q) : Q2Qc (x - y) = (Q2Qc x - Q2Qc y)%Qc.
Proof. unfold Qminus, Qcminus. now rewrite Q2Qc_plus, Q2Qc_opp. Qed.

Lemma Q2Qc_div (x y : Q) : Q2Qc (x / y) = (Q2Qc x / Q2Qc y)%Qc.
Proof. unfold Qdiv, Qcdiv. now rewrite Q2Qc_mult, Q2Qc_inv. Qed.

Lemma Q2Qc_Qeq_bool (x y : Q) : Qeq_bool x y = true -> Q2Qc x = Q2Qc y.
Proof. intros H. now apply Q2Qc_eq_iff, Qeq_bool_eq. Qed.

Section EvalFacts.
Variable env : string -> Qc.
Variable pars : nat -> Qc.
Variable pow_fn : Qc -> Qc -> Qc.
Local Abbreviation ev := (eval env pars pow_fn).

Lemma eval_expr_add a b : ev (expr_add a b) = (ev a + ev b)%Qc.
Proof.
  unfold expr_add.
  assert (H : ev (if is_number b (fun q => Qeq_bool q 0) then a
                  else Bin op_add a b) = (ev a + ev b)%Qc).
  { destruct b; cbn [is_number]; try reflexivity.
    destruct (Qeq_bool q 0) eqn:E; [|reflexivity].
    cbn [eval]. rewrite (Q2Qc_Qeq_bool _ _ E). now rewrite Qcplus_0_r. }
  destruct a; try exact H. destruct b; try exact H.
  cbn [eval]. apply Q2Qc_plus.
Qed.

Lemma eval_expr_sub a b : ev (expr_sub a b) = (ev a - ev b)%Qc.
Proof.
  unfold expr_sub. destruct a; try reflexivity. destruct b; try reflexivity.
  cbn [eval]. apply Q2Qc_minus.
Qed.

Lemma eval_expr_mul a b : ev (expr_mul a b) = (ev a * ev b)%Qc.
Proof.
  unfold expr_mul. destruct b; cbn [is_number]; try reflexivity.
  destruct (Qeq_bool q 1) eqn:E; [|reflexivity].
  cbn [eval]. rewrite (Q2Qc_Qeq_bool _ _ E). now rewrite Qcmult_1_r.
Qed.

Lemma eval_expr_div a b : ev (expr_div a b) = (ev a / ev b)%Qc.
Proof. reflexivity. Qed.

Lemma eval_expr_neg a : ev (expr_neg a) = (- ev a)%Qc.
Proof.
  unfold expr_neg.
  assert (H : ev (expr_mul (Num (-1)) a) = (- ev a)%Qc).
  { rewrite eval_expr_mul. cbn [eval].
    change (Q2Qc (-1)) with (- 1)%Qc. ring. }
  destruct a; try exact H. cbn [eval]. apply Q2Qc_opp.
Qed.

(** The value of a pairwise sum is the pairwise sum of the values. *)
Lemma eval_sum_expr (l : list expression) :
  ev (sum_expr l) = Pairwise.pairwise_loop Qcplus 0%Qc (map ev l).
Proof.
  unfold sum_expr. destruct l as [|x l].
  - cbn [map]. now rewrite !Pairwise.pairwise_loop_equation_1.
  - apply PairwiseFacts.pairwise_loop_map; [apply eval_expr_add|discriminate].
Qed.

End EvalFacts.

(** ** How the masses enter the parametric system *)


Lemma diff_lookup (p : string) (n i j : nat) :
  i < n -> j < n ->
  diff (make_vars p n) i j
  = Bin op_sub (Var (p +:+ li_to_string j)) (Var (p +:+ li_to_string i)).
Proof.
  intros Hi Hj. unfold diff. now rewrite !make_vars_lookup by assumption.
Qed.

Lemma r_m3_lookup (n i j : nat) :
  i < n -> j < n ->
  r_m3 n i j =
  Func "pow"
    [Bin op_add
       (Bin op_add
          (Func "square" [Bin op_sub (Var ("x_" +:+ li_to_string j))
                                     (Var ("x_" +:+ li_to_string i))])
          (Func "square" [Bin op_sub (Var ("y_" +:+ li_to_string j))
                                     (Var ("y_" +:+ li_to_string i))]))
       (Func "square" [Bin op_sub (Var ("z_" +:+ li_to_string j))
                                  (Var ("z_" +:+ li_to_string i))]);
     Num (-3 # 2)].
Proof.
  intros Hi Hj. unfold r_m3, x_vars, y_vars, z_vars.
  now rewrite !diff_lookup by assumption.
Qed.

Section ParTerms.
Variables (n : nat) (Gconst : Q) (nm : nat) (p : string).
Local Abbreviation pf := (par_factors Gconst).
Local Abbreviation vs := (make_vars p n).

(** The three kinds of terms of the parametric system, written out. *)
Lemma by_term_par i j :
  i < n -> j < n ->
  by_term n pf vs i j =
  Bin op_mul (diff vs i j)
      (Bin op_mul (Bin op_mul (Num Gconst) (Par j)) (r_m3 n i j)).
Proof.
  intros Hi Hj. unfold by_term. cbn [fac_j_of par_factors].
  now rewrite r_m3_lookup by assumption.
Qed.

Lemma on_term_par i j :
  i < n -> j < n ->
  on_term n pf vs i j =
  Bin op_mul
    (Bin op_mul (diff vs i j)
       (Bin op_mul (Bin op_mul (Num Gconst) (Par j)) (r_m3 n i j)))
    (Bin op_div (Bin op_mul (Num (-1)) (Par i)) (Par j)).
Proof.
  intros Hi Hj. unfold on_term. now rewrite by_term_par by assumption.
Qed.

Lemma ow_term_par i j :
  i < n -> j < n ->
  ow_term n pf vs i j =
  Bin op_mul (diff vs i j)
      (Bin op_mul (Bin op_mul (Num (- Gconst)) (Par i)) (r_m3 n i j)).
Proof.
  intros Hi Hj. unfold ow_term. cbn [fac_of par_factors].
  now rewrite r_m3_lookup by assumption.
Qed.

Ltac par_shape_tac :=
  repeat split;
  [ right; eauto
  | cbn [get_params]; intros x Hx; set_solver by lia
  | cbn [get_numbers app In allowed_numbers]; intros q Hq; intuition auto ].

Lemma by_term_shaped i j :
  i < n -> j < nm -> nm <= n -> par_shaped nm Gconst (by_term n pf vs i j).
Proof.
  intros Hi Hj Hn. rewrite by_term_par, diff_lookup, r_m3_lookup by lia.
  par_shape_tac.
Qed.

Lemma on_term_shaped i j :
  i < nm -> j < nm -> nm <= n -> par_shaped nm Gconst (on_term n pf vs i j).
Proof.
  intros Hi Hj Hn. rewrite on_term_par, diff_lookup, r_m3_lookup by lia.
  par_shape_tac.
Qed.

Lemma ow_term_shaped i j :
  i < nm -> j < n -> nm <= n -> par_shaped nm Gconst (ow_term n pf vs i j).
Proof.
  intros Hi Hj Hn. rewrite ow_term_par, diff_lookup, r_m3_lookup by lia.
  par_shape_tac.
Qed.

Lemma terms_shaped k :
  k < n -> nm <= n -> Forall (par_shaped nm Gconst) (terms n pf nm vs k).
Proof.
  intros Hk Hn. unfold terms, from_earlier, from_later.
  destruct (Nat.ltb_spec k nm) as [Hlt|Hge].
  - apply Forall_app. split; apply Forall_forall; intros e He;
      apply list_elem_of_In, in_map_iff in He as (i & <- & Hi%in_seq).
    + apply on_term_shaped; lia.
    + apply by_term_shaped; lia.
  - apply Forall_forall. intros e He.
    apply list_elem_of_In, in_map_iff in He as (i & <- & Hi%in_seq).
    apply ow_term_shaped; lia.
Qed.

End ParTerms.


Lemma terms_mass_terms (n : nat) (Gconst : Q) (nm : nat) (p : string) (k : nat) :
  k < n -> nm <= n ->
  Forall (mass_term n Gconst nm p)
         (terms n (par_factors Gconst) nm (make_vars p n) k).
Proof.
  intros Hk Hn. unfold terms, from_earlier, from_later.
  destruct (Nat.ltb_spec k nm) as [Hlt|Hge].
  - apply Forall_app. split; apply Forall_forall; intros e He;
      apply list_elem_of_In, in_map_iff in He as (i & <- & Hi%in_seq).
    + exists i, k. rewrite on_term_par by lia. cbn zeta.
      repeat split; try lia. right. left. repeat split; lia || reflexivity.
    + exists k, i. rewrite by_term_par by lia. cbn zeta.
      repeat split; try lia. left. split; [lia|reflexivity].
  - apply Forall_forall. intros e He.
    apply list_elem_of_In, in_map_iff in He as (i & <- & Hi%in_seq).
    exists i, k. rewrite ow_term_par by lia. cbn zeta.
    repeat split; try lia. right. right. split; [lia|reflexivity].
Qed.

Lemma par_shaped_expr_add (nm : nat) (Gconst : Q) (a b : expression) :
  par_shaped nm Gconst a -> par_shaped nm Gconst b ->
  par_shaped nm Gconst (expr_add a b).
Proof.
  intros (Sa & Pa & Na) (Sb & Pb & Nb).
  destruct Sa as [->|(opa & a1 & a2 & ->)];
    destruct Sb as [->|(opb & b1 & b2 & ->)]; cbn [expr_add is_number].
  - repeat split; [now left|set_solver|].
    cbn. intros q [<-|[]]. cbn. tauto.
  - repeat split; [right; eauto| |].
    + cbn [get_params]. set_solver.
    + cbn [get_numbers] in *. intros q Hq. apply in_app_or in Hq as []; auto.
  - change (Qeq_bool 0 0) with true. cbn iota. repeat split; [right; eauto|auto..].
  - repeat split; [right; eauto| |].
    + cbn [get_params] in *. set_solver.
    + cbn [get_numbers] in *. intros q Hq. apply in_app_or in Hq as []; auto.
Qed.

Lemma sum_terms_shaped (n : nat) (Gconst : Q) (nm : nat) (p : string) (k : nat) :
  k < n -> nm <= n ->
  par_shaped nm Gconst
    (sum_expr (terms n (par_factors Gconst) nm (make_vars p n) k)).
Proof.
  intros Hk Hn. apply sum_expr_closed.
  - repeat split; [now left|set_solver|]. cbn. intros q [<-|[]]. tauto.
  - apply par_shaped_expr_add.
  - now apply terms_shaped.
Qed.

(** Every right-hand side of the parametric system refers to the masses
    through parameters of index below [nm], and its numbers are allowed. *)
Lemma blocks_par_shaped (n : nat) (Gconst : Q) (nm : nat) lhs rhs :
  nm <= n ->
  In (lhs, rhs) (blocks n (par_factors Gconst) nm n) ->
  (forall i, i ∈ get_params rhs -> i < nm) /\
  (forall q, In q (get_numbers rhs) -> In q (allowed_numbers Gconst)).
Proof.
  intros Hn Hin. unfold blocks in Hin.
  apply in_flat_map in Hin as (k & Hk%in_seq & Hin).
  unfold block, prime_eq in Hin. cbn [In] in Hin.
  unfold x_vars, y_vars, z_vars, vx_vars, vy_vars, vz_vars in Hin.
  rewrite !make_vars_lookup in Hin by lia.
  destruct Hin as [E|[E|[E|[E|[E|[E|[]]]]]]]; injection E as <- <-;
    try (cbn; split; [set_solver|tauto]);
    apply (sum_terms_shaped n Gconst nm _ k); lia.
Qed.

End NBodyParFacts.

(* ===================================================================== *)
(** * Facts about jets *)
(* ===================================================================== *)

Module JetFacts.
Import Expr Jet.

(** ** Stores *)

Local Abbreviation store := (fun (s : list Q) (w : nat * Q) => <[w.1 := w.2]> s).

Lemma stores_length (ws : list (nat * Q)) (slab : list Q) :
  length (fold_left store ws slab) = length slab.
Proof.
  revert slab. induction ws as [|w ws IH]; intros slab; [reflexivity|].
  cbn [fold_left]. now rewrite IH, length_insert.
Qed.

(** Stores above [m] leave the first [m] entries alone. *)
Lemma stores_take (ws : list (nat * Q)) (slab : list Q) (m : nat) :
  Forall (fun w => m <= w.1) ws ->
  take m (fold_left store ws slab) = take m slab.
Proof.
  intros H. revert slab. induction H as [|w ws Hw _ IH]; intros slab;
    [reflexivity|].
  cbn [fold_left]. rewrite IH. now apply take_insert_ge.
Qed.

(** When every store at [j] carries [v], and there is one, [v] is read back. *)
Lemma stores_lookup (ws : list (nat * Q)) (slab : list Q) (j : nat) (v : Q) :
  j < length slab ->
  (exists w, w ∈ ws /\ w.1 = j) ->
  (forall w, w ∈ ws -> w.1 = j -> w.2 = v) ->
  fold_left store ws slab !! j = Some v.
Proof.
  intros Hj. induction ws as [|w ws IH] using rev_ind; intros Hex Hall.
  - destruct Hex as (w & Hw & _). now apply elem_of_nil in Hw.
  - rewrite fold_left_app. cbn [fold_left].
    destruct (decide (w.1 = j)) as [E|Hne].
    + rewrite E, list_lookup_insert_eq by (now rewrite stores_length).
      f_equal. apply Hall; [|exact E]. apply elem_of_app. right.
      now apply list_elem_of_singleton.
    + rewrite list_lookup_insert_ne by exact Hne. apply IH.
      * destruct Hex as (w' & Hw' & E'). exists w'. split; [|exact E'].
        apply elem_of_app in Hw' as [|Hw']; [assumption|].
        apply list_elem_of_singleton in Hw'. congruence.
      * intros w' Hw'. apply Hall. apply elem_of_app. now left.
Qed.

(** A position no store touches keeps its value. *)
Lemma stores_lookup_other (ws : list (nat * Q)) (slab : list Q) (j : nat) :
  (forall w, w ∈ ws -> w.1 <> j) ->
  fold_left store ws slab !! j = slab !! j.
Proof.
  revert slab. induction ws as [|w ws IH]; intros slab H; [reflexivity|].
  cbn [fold_left]. rewrite IH by (intros w' Hw'; apply H; now right).
  apply list_lookup_insert_ne, H. now left.
Qed.

(** ** The rows of a lane *)

Lemma lane_rows_length D orders k tbl st :
  length (lane_rows D orders k tbl st) = orders.
Proof.
  revert k tbl st. induction orders as [|m IH]; intros k tbl st;
    [reflexivity|]. cbn [lane_rows length]. now rewrite IH.
Qed.

Lemma lane_rows_row_length D orders k tbl st r n :
  lane_rows D orders k tbl st !! n = Some r -> length r = length (d_tail D).
Proof.
  revert k tbl st n. induction orders as [|m IH]; intros k tbl st n;
    [discriminate|]. cbn [lane_rows]. destruct n as [|n]; cbn.
  - intros [= <-]. unfold next_states. now rewrite length_map.
  - apply IH.
Qed.

Lemma mul_add_inj (b a c a' c' : nat) :
  c < b -> c' < b -> a * b + c = a' * b + c' -> a = a' /\ c = c'.
Proof.
  intros Hc Hc' E.
  assert (Ea : a = a').
  { apply (f_equal (fun x => x / b)) in E.
    rewrite !Nat.div_add_l, !Nat.div_small in E by lia. lia. }
  subst a'. split; [reflexivity|lia].
Qed.

(** ** What is stored, and where *)

Section Stores.
Variable D : decomposition.
Variables p B : nat.
Variable slab : list Q.

Local Abbreviation rows := (fun l => lane_rows D p 0 [] (load_state D B slab l)).

Lemma stores_elem (w : nat * Q) :
  w ∈ stores D p B slab ->
  exists l k i, l < B /\ 1 <= k <= p /\ i < d_states D /\
    w = (slab_index D B k i l, (rows l !!! (k - 1)) !!! i).
Proof.
  unfold stores. intros Hw.
  apply list_elem_of_In, in_concat in Hw as (ws & Hws & Hw).
  apply list_elem_of_In, list_elem_of_fmap in Hws as (l & -> & Hl).
  apply elem_of_seq in Hl. unfold lane_stores in Hw.
  apply in_concat in Hw as (ws & Hws & Hw).
  apply list_elem_of_In, list_elem_of_fmap in Hws as ([k r] & -> & Hkr).
  apply list_elem_of_lookup in Hkr as (a & Hkr).
  apply lookup_zip_with_Some in Hkr as (k' & r' & [= <- <-] & Hk & Hr).
  apply lookup_seq in Hk as [-> Ha].
  unfold row_stores in Hw.
  apply list_elem_of_In, list_elem_of_fmap in Hw as ([i v] & -> & Hiv).
  apply list_elem_of_lookup in Hiv as (b & Hiv).
  apply lookup_zip_with_Some in Hiv as (i' & v' & [= <- <-] & Hi & Hv).
  apply lookup_seq in Hi as [-> Hb]. cbn [Nat.add] in *.
  exists l, (S a), b. repeat split; try lia.
  replace (S a - 1) with a by lia.
  rewrite (list_lookup_total_correct _ _ _ Hr).
  now rewrite (list_lookup_total_correct _ _ _ Hv).
Qed.

(** The frame of a call: the order-0 block is not written. *)
Lemma jet_take :
  take (d_states D * B) (jet D p B slab) = take (d_states D * B) slab.
Proof.
  unfold jet. apply stores_take, Forall_forall. intros w Hw.
  apply stores_elem in Hw as (l & k & i & Hl & Hk & Hi & ->).
  cbn [fst]. unfold slab_index. nia.
Qed.

Hypothesis tail_states : length (d_tail D) = d_states D.

Lemma stores_elem_of (l k i : nat) :
  l < B -> 1 <= k <= p -> i < d_states D ->
  (slab_index D B k i l, (rows l !!! (k - 1)) !!! i) ∈ stores D p B slab.
Proof.
  intros Hl Hk Hi.
  destruct (lookup_lt_is_Some_2 (rows l) (k - 1)) as [r Hr];
    [rewrite lane_rows_length; lia|].
  pose proof (lane_rows_row_length _ _ _ _ _ _ _ Hr) as Hlen.
  destruct (lookup_lt_is_Some_2 r i) as [v Hv]; [lia|].
  rewrite (list_lookup_total_correct _ _ _ Hr).
  rewrite (list_lookup_total_correct _ _ _ Hv).
  unfold stores. apply list_elem_of_In, in_concat.
  exists (lane_stores D p B slab l). split.
  - apply list_elem_of_In, list_elem_of_fmap. exists l. split; [reflexivity|].
    apply elem_of_seq. lia.
  - unfold lane_stores. apply in_concat.
    exists (row_stores D B k l r). split.
    + apply list_elem_of_In, list_elem_of_fmap. exists (k, r).
      split; [reflexivity|]. apply list_elem_of_lookup. exists (k - 1).
      apply lookup_zip_with_Some. exists k, r. repeat split; [|exact Hr].
      apply lookup_seq. lia.
    + unfold row_stores. apply list_elem_of_In, list_elem_of_fmap.
      exists (i, v). split; [reflexivity|].
      apply list_elem_of_lookup. exists i.
      apply lookup_zip_with_Some. exists i, v. repeat split; [|exact Hv].
      apply lookup_seq. lia.
Qed.

Lemma slab_index_inj k i l k' i' l' :
  i < d_states D -> i' < d_states D -> l < B -> l' < B ->
  slab_index D B k i l = slab_index D B k' i' l' ->
  k = k' /\ i = i' /\ l = l'.
Proof.
  unfold slab_index. intros Hi Hi' Hl Hl' E.
  apply mul_add_inj in E as [E ->]; [|assumption..].
  apply mul_add_inj in E as [-> ->]; auto.
Qed.

Hypothesis slab_length : length slab = d_states D * B * (p + 1).

(** Reading the slab after the call. *)
Lemma jet_lookup_order (l k i : nat) :
  l < B -> 1 <= k <= p -> i < d_states D ->
  jet D p B slab !!! slab_index D B k i l = (rows l !!! (k - 1)) !!! i.
Proof.
  intros Hl Hk Hi. apply list_lookup_total_correct. unfold jet.
  apply stores_lookup.
  - rewrite slab_length. unfold slab_index. nia.
  - exists (slab_index D B k i l, (rows l !!! (k - 1)) !!! i).
    split; [apply stores_elem_of; assumption|reflexivity].
  - intros w Hw E.
    apply stores_elem in Hw as (l' & k' & i' & Hl' & Hk' & Hi' & ->).
    cbn [fst snd] in *.
    apply slab_index_inj in E as (-> & -> & ->); auto.
Qed.

Lemma jet_lookup_order0 (l i : nat) :
  l < B -> i < d_states D ->
  jet D p B slab !!! slab_index D B 0 i l = slab !!! slab_index D B 0 i l.
Proof.
  intros Hl Hi. rewrite !list_lookup_total_alt. f_equal. unfold jet.
  apply stores_lookup_other. intros w Hw E.
  apply stores_elem in Hw as (l' & k' & i' & Hl' & Hk' & Hi' & ->).
  cbn [fst] in E. apply slab_index_inj in E as (? & _); auto. lia.
Qed.

End Stores.
(** ** The product system *)


Lemma taylor_decompose_product :
  taylor_decompose [("x", expr_mul (Var "x") (Var "y"));
                    ("y", expr_mul (Var "y") (Var "x"))]
  = Some product_decomposition.
Proof. reflexivity. Qed.



End JetFacts.

(* ===================================================================== *)
(** * The claims *)
(* ===================================================================== *)

Module PairwiseClaims.
Import Pairwise PairwiseFacts.

(** In a round, element [i] of the new vector is the sum of elements [2i]
    and [2i+1] of the old one, or element [2i] alone when it is the last. *)
Lemma pairwise_round_adjacent {A : Type} (add : A -> A -> A) (l : list A) i :
  pairwise_round add l !! i =
  match l !! (2 * i), l !! (2 * i + 1) with
  | Some a, Some b => Some (add a b)
  | Some a, None => Some a
  | None, _ => None
  end.
Proof.
  revert i. induction l as [|x|x y l IH] using pair_ind; intros i.
  - reflexivity.
  - destruct i as [|i]; [reflexivity|].
    replace (2 * S i) with (S (S (2 * i))) by lia. reflexivity.
  - destruct i as [|i]; [reflexivity|].
    replace (2 * S i) with (S (S (2 * i))) by lia.
    cbn [pairwise_round]. cbn. apply IH.
Qed.

Example pairwise_sum_five :
  pairwise_sum Z.add 0%Z [1; 2; 3; 4; 5]%Z = Return 15%Z /\
  pairwise_sum (@Node Z) (Leaf 0%Z) (map (@Leaf Z) [1; 2; 3; 4; 5]%Z) =
  Return (Node (Node (Node (Leaf 1%Z) (Leaf 2%Z)) (Node (Leaf 3%Z) (Leaf 4%Z)))
               (Leaf 5%Z)).
Proof. split; reflexivity. Qed.

Example pairwise_sum_seven_shape :
  pairwise_sum (@Node nat) (Leaf 0) (map (@Leaf nat) [1; 2; 3; 4; 5; 6; 7]) =
  Return (Node (Node (Node (Leaf 1) (Leaf 2)) (Node (Leaf 3) (Leaf 4)))
               (Node (Node (Leaf 5) (Leaf 6)) (Leaf 7))).
Proof. reflexivity. Qed.

Example pairwise_sum_empty : pairwise_sum Z.add 0%Z [] = Return 0%Z.
Proof. reflexivity. Qed.

(** C2.  For every non-empty operand vector (a [std::vector] never has
    [SIZE_MAX] elements, the one length the overflow guard rejects),
    [pairwise_sum] returns the value of a reduction tree [t] over the
    operands, in their order, that is built round by round from adjacent
    pairs ([pairwise_round]); [t] is left-leaning (every left operand is a
    complete tree, every right operand is no deeper) and of the least
    possible height, the base-2 logarithm of the operand count rounded up;
    the same tree is built whatever the addition is; with an associative
    (exact) addition the result is the sum of all operands; a vector of one
    element is returned unchanged. *)
Theorem pairwise_sum_balanced_tree
    {A : Type} (add : A -> A -> A) (zero : A) (sum : list A) :
  sum <> [] ->
  N.of_nat (length sum) <> size_max ->
  exists t : tree A,
    pairwise_sum (@Node A) (Leaf zero) (map (@Leaf A) sum) = Return t /\
    leaves t = sum /\
    left_leaning t /\
    2 ^ height t < 2 * length sum <= 2 ^ S (height t) /\
    pairwise_sum add zero sum = Return (eval add t) /\
    (forall l i,
        pairwise_round add l !! i =
        match l !! (2 * i), l !! (2 * i + 1) with
        | Some a, Some b => Some (add a b)
        | Some a, None => Some a
        | None, _ => None
        end) /\
    ((forall x y z, add x (add y z) = add (add x y) z) ->
     pairwise_sum add zero sum =
     Return (fold_left add (tl sum) (hd zero sum))) /\
    (forall x, sum = [x] -> pairwise_sum add zero sum = Return x).
Proof.
  intros Hne Hsz.
  assert (Hguard : forall B (add' : B -> B -> B) z (l : list B),
             length l = length sum -> l <> [] ->
             pairwise_sum add' z l = Return (pairwise_loop add' z l)).
  { intros B add' z l Hlen Hl. unfold pairwise_sum. rewrite Hlen.
    destruct (N.eqb_spec (N.of_nat (length sum)) size_max) as [E|_];
      [contradiction|].
    destruct l; [congruence|reflexivity]. }
  assert (Hmne : map (@Leaf A) sum <> [])
    by (destruct sum; [congruence|discriminate]).
  destruct (pairwise_loop_shape (Leaf zero) _ Hmne 0 (level_leaves _ Hne))
    as [Hll Hlv].
  rewrite concat_map_leaves_Leaf in Hlv.
  set (t := pairwise_loop (@Node A) (Leaf zero) (map (@Leaf A) sum)) in *.
  assert (Hev : pairwise_sum add zero sum = Return (eval add t)).
  { rewrite Hguard by auto. f_equal. subst t.
    rewrite (pairwise_loop_map (@Node A) (Leaf zero) add zero (eval add))
      by auto.
    now rewrite map_eval_Leaf. }
  exists t. split; [|split; [|split; [|split; [|split; [|split; [|split]]]]]].
  - apply Hguard; [apply length_map|exact Hmne].
  - exact Hlv.
  - exact Hll.
  - pose proof (left_leaning_height _ Hll) as Hh. now rewrite Hlv in Hh.
  - exact Hev.
  - apply pairwise_round_adjacent.
  - intros Hassoc. rewrite Hev. f_equal.
    destruct (eval_sum_from add Hassoc t) as (x & l & E & S).
    rewrite Hlv in E. rewrite E. exact S.
  - intros x ->. reflexivity.
Qed.

Lemma pairwise_sum_balanced_tree_witness :
  exists t : tree Z,
    pairwise_sum (@Node Z) (Leaf 0%Z) (map (@Leaf Z) [1; 2; 3; 4; 5]%Z)
      = Return t /\
    leaves t = [1; 2; 3; 4; 5]%Z /\
    left_leaning t /\
    2 ^ height t < 2 * length [1; 2; 3; 4; 5]%Z <= 2 ^ S (height t) /\
    pairwise_sum Z.add 0%Z [1; 2; 3; 4; 5]%Z = Return (eval Z.add t) /\
    (forall l i,
        pairwise_round Z.add l !! i =
        match l !! (2 * i), l !! (2 * i + 1) with
        | Some a, Some b => Some (Z.add a b)
        | Some a, None => Some a
        | None, _ => None
        end) /\
    ((forall x y z : Z, (x + (y + z) = x + y + z)%Z) ->
     pairwise_sum Z.add 0%Z [1; 2; 3; 4; 5]%Z =
     Return (fold_left Z.add (tl [1; 2; 3; 4; 5]%Z) (hd 0%Z [1; 2; 3; 4; 5]%Z))) /\
    (forall x, [1; 2; 3; 4; 5]%Z = [x] ->
               pairwise_sum Z.add 0%Z [1; 2; 3; 4; 5]%Z = Return x).
Proof.
  apply (pairwise_sum_balanced_tree Z.add 0%Z [1; 2; 3; 4; 5]%Z).
  - discriminate.
  - vm_compute. discriminate.
Defined.

End PairwiseClaims.

Module MasconClaims.
Import Mascon.
Local Open Scope float_scope.

(** C1 (the code departs from the claim).  An object built from the single
    mascon point (0, 0, 1) stores exactly that point, yet the squared
    distance computed by [operator()] at the origin follows the file-scope
    array: it is 1 when the file-scope point is (0, 0, 1) and 2 when it is
    (0, 0, 2), and the accelerations written into [dxdt] are computed from
    that value. *)
Theorem mascon_r2_reads_file_scope_points
    (std_pow : double -> double -> double) :
  let d := mascon_dynamics_ctor [[0; 0; 1]] [1] 0 0 0 1 in
  let x := [0; 0; 0; 0; 0; 0] in
  m_mascon_points d = [[0; 0; 1]] /\
  r2 [[0; 0; 1]] d x 0 = 1 /\
  r2 [[0; 0; 2]] d x 0 = 2 /\
  operator_call [[0; 0; 1]] std_pow d x [0; 0; 0; 0; 0; 0] 0 =
    Return [0; 0; 0;
            0 * (1 * std_pow 1 (-1.5) * 1) - 0 - 0;
            0 * (1 * std_pow 1 (-1.5) * 1) - 0 - 0;
            1 * (1 * std_pow 1 (-1.5) * 1) - 0 - 0] /\
  operator_call [[0; 0; 2]] std_pow d x [0; 0; 0; 0; 0; 0] 0 =
    Return [0; 0; 0;
            0 * (1 * std_pow 2 (-1.5) * 1) - 0 - 0;
            0 * (1 * std_pow 2 (-1.5) * 1) - 0 - 0;
            1 * (1 * std_pow 2 (-1.5) * 1) - 0 - 0].
Proof. repeat split; vm_compute; reflexivity. Qed.

(** The two operands of the third product of [r2] come from different
    arrays; the other two products, and the accelerations, read the points
    of the object only. *)
Lemma r2_third_product (g : list (list double)) (d : mascon_dynamics)
    (x : list double) (i : nat) :
  r2 g d x i =
  (at1 x 0 - at2 (m_mascon_points d) i 0)
  * (at1 x 0 - at2 (m_mascon_points d) i 0)
  + (at1 x 1 - at2 (m_mascon_points d) i 1)
    * (at1 x 1 - at2 (m_mascon_points d) i 1)
  + (at1 x 2 - at2 g i 2) * (at1 x 2 - at2 (m_mascon_points d) i 2).
Proof. reflexivity. Qed.

(** When the object is built from the file-scope array itself, as [main]
    does, the stray reference reads the value the object stores. *)
Lemma ctor_points_at2 (pts : list (list double)) (ms : list double)
    (p q r G : double) (i : nat) :
  (i < length ms)%nat ->
  at2 (m_mascon_points (mascon_dynamics_ctor pts ms p q r G)) i 2 = at2 pts i 2.
Proof.
  intros Hi. unfold at2 at 1. cbn [m_mascon_points mascon_dynamics_ctor].
  rewrite (nth_indep _ [] [at2 pts 0 0; at2 pts 0 1; at2 pts 0 2])
    by (now rewrite length_map, length_seq).
  rewrite (map_nth (fun i => [at2 pts i 0; at2 pts i 1; at2 pts i 2])).
  rewrite seq_nth by exact Hi. reflexivity.
Qed.

End MasconClaims.

Module EllipticClaims.
Import Elliptic.
Local Open Scope float_scope.


(** C7, as stated, fails: with an inclination range that starts below
    zero and an omega range as wide as the whole double range, the call
    throws [std::invalid_argument], not [std::overflow_error]. *)
Lemma overflow_exactly_when_wide_fails :
  ~ overflow_exactly_when_wide 1
      (1, 2) (0.25, 0.5) (-1, 1) (- dbl_max, dbl_max) (0, 1) (0, 1).
Proof.
  unfold overflow_exactly_when_wide. intros H.
  assert (E : validate 1 [(1, 2); (0.25, 0.5); (-1, 1); (- dbl_max, dbl_max);
                          (0, 1); (0, 1)] = Throw invalid_argument)
    by (vm_compute; reflexivity).
  rewrite E in H.
  assert (C : @Throw unit invalid_argument = Throw overflow_error)
    by (apply H; [vm_compute; reflexivity .. | right; left; vm_compute;
                  reflexivity]).
  discriminate C.
Qed.

Example validate_wide_omega :
  validate 1 [(1, 2); (0.25, 0.5); (0.5, 1); (- dbl_max, dbl_max);
              (0, 1); (0, 1)] = Throw overflow_error.
Proof. vm_compute. reflexivity. Qed.

Example validate_negative_a_min :
  validate 1 [(- dbl_max, dbl_max); (0.25, 0.5); (0.5, 1); (0, 1);
              (0, 1); (0, 1)] = Throw invalid_argument.
Proof. vm_compute. reflexivity. Qed.

Example validate_nan_mu :
  validate nan [(1, 2); (0.25, 0.5); (0.5, 1); (0, 1); (0, 1); (0, 1)]
  = Throw invalid_argument.
Proof. vm_compute. reflexivity. Qed.

Example validate_good :
  validate 1 [(1, 2); (0.25, 0.5); (0.5, 1); (0, 1); (0, 1); (0, 1)]
  = Return tt.
Proof. vm_compute. reflexivity. Qed.

Ltac validate_case :=
  cbn [andb orb negb fst snd];
  repeat split; intros; try tauto; try congruence; try discriminate;
  repeat match goal with
         | H : _ /\ _ |- _ => destruct H
         | H : _ \/ _ |- _ => destruct H
         end; try congruence; try discriminate; auto.

(** Walk down the sequence of checks: when a check fires the case is closed,
    otherwise the next check is examined. *)
Ltac validate_by_cases bs :=
  lazymatch bs with
  | [] => validate_case
  | ?b :: ?rest => destruct b; [validate_case|validate_by_cases rest]
  end.

(** C7, amended.  The checks are made in sequence and the first that
    fails decides the exception: [std::overflow_error] is thrown exactly
    when [mu], the six pairs and the sign of [a_min] are accepted and either
    the semi-major axis range overflows, or the eccentricity and inclination
    ranges are accepted and the omega, Omega or true anomaly range
    overflows; [std::invalid_argument] is thrown exactly when one of the
    leading checks fails, or the semi-major axis range does not overflow and
    the eccentricity or inclination range is rejected; otherwise nothing is
    thrown.  The call of [random_elliptic_state] throws what [validate]
    throws and leaves the generator alone in that case. *)
Theorem validate_first_failing_check (mu : double)
    (a e inc om Om f : double * double) :
  let bounds := [a; e; inc; om; Om; f] in
  (validate mu bounds = Throw overflow_error <->
   leading_checks_pass mu a e inc om Om f = true /\
   (range_overflows a = true \/
    (shape_checks_pass e inc = true /\
     range_overflows om || range_overflows Om || range_overflows f = true)))
  /\
  (validate mu bounds = Throw invalid_argument <->
   leading_checks_pass mu a e inc om Om f = false \/
   (range_overflows a = false /\ shape_checks_pass e inc = false))
  /\
  (validate mu bounds <> Throw not_implemented_error)
  /\
  (forall (mt19937 : Type) (mt19937_seed : N -> mt19937) uniform_real
          atan tan cos sin seed (rng : mt19937) (x : exn),
      validate mu bounds = Throw x <->
      random_elliptic_state mt19937 mt19937_seed uniform_real atan tan cos sin
        mu bounds seed rng = (Throw x, rng)).
Proof.
  intros bounds.
  assert (Hcall : forall (mt19937 : Type) (mt19937_seed : N -> mt19937)
             uniform_real atan tan cos sin seed (rng : mt19937) (x : exn),
             validate mu bounds = Throw x <->
             random_elliptic_state mt19937 mt19937_seed uniform_real atan tan cos sin
               mu bounds seed rng = (Throw x, rng)).
  { intros. unfold random_elliptic_state.
    destruct (validate mu bounds) as [[]|y].
    - split; [discriminate|].
      repeat match goal with
             | |- context [let '(_, _) := ?p in _] => destruct p
             end.
      discriminate.
    - split; congruence. }
  split; [|split; [|split; [|exact Hcall]]]; clear Hcall; subst bounds;
    unfold validate, leading_checks_pass, shape_checks_pass, bound;
    cbn [nth check_bounds bind];
    (destruct (isfinite mu); [|validate_case]);
    validate_by_cases
      [mu <=? 0; bad_bounds a; bad_bounds e; bad_bounds inc; bad_bounds om;
       bad_bounds Om; bad_bounds f; fst a <=? 0; range_overflows a;
       fst e <=? 0; 1 <? snd e; fst inc <=? 0; pi <? snd inc;
       range_overflows om; range_overflows Om; range_overflows f].
Qed.

(** C10.  The result of [random_elliptic_state] does not depend on the
    state in which the call finds the thread-local generator: calls with the
    same [mu], [bounds] and [seed] return the same state vector (or throw
    the same exception), in particular two calls made one after the other;
    and a call that returns leaves the generator in a state that depends on
    the arguments only, because the generator is seeded again before the
    elements are drawn. *)
Theorem random_elliptic_state_deterministic
    (mt19937 : Type) (mt19937_seed : N -> mt19937)
    (uniform_real : double -> double -> mt19937 -> double * mt19937)
    (atan tan cos sin : double -> double)
    (mu : double) (bounds : list (double * double)) (seed : N) :
  let call := random_elliptic_state mt19937 mt19937_seed uniform_real atan tan cos sin
                mu bounds seed in
  (forall rng1 rng2 : mt19937, fst (call rng1) = fst (call rng2)) /\
  (forall rng : mt19937, fst (call (snd (call rng))) = fst (call rng)) /\
  (forall rng1 rng2 : mt19937,
      validate mu bounds = Return tt -> call rng1 = call rng2).
Proof.
  intros call.
  assert (H : forall rng1 rng2 : mt19937, fst (call rng1) = fst (call rng2)).
  { intros rng1 rng2. subst call. unfold random_elliptic_state.
    destruct (validate mu bounds); reflexivity. }
  split; [exact H|split].
  - intros rng. apply H.
  - intros rng1 rng2 Hv. subst call. unfold random_elliptic_state.
    rewrite Hv. reflexivity.
Qed.

End EllipticClaims.

Module NBodyClaims.
Import Expr NBody NBodyTerms NBodyFacts.


Lemma make_nbody_sys_fixed_masses_returns {arith : number_arith} (n : nat)
    (Gconst : Q)
    (masses : list Q) :
  (N.of_nat n < 2 ^ 32)%N -> length masses = n ->
  exists sys, make_nbody_sys_fixed_masses n Gconst masses = Return sys.
Proof.
  intros Hn Hlen. unfold make_nbody_sys_fixed_masses.
  rewrite Hlen, Nat.eqb_refl. cbn [negb].
  destruct (negb (n_fc_massless masses =? 0)
            && (n_fc_massive masses + n_fc_massless masses =? n)) eqn:E.
  - apply andb_true_iff in E as [_ E%Nat.eqb_eq].
    rewrite restricted_system_blocks by (auto using u32_small; lia). eauto.
  - now apply general_system_returns.
Qed.

Example fixed_masses_wrong_size {arith : number_arith} :
  make_nbody_sys_fixed_masses 3 1 [1; 0]%Q = Throw invalid_argument.
Proof. reflexivity. Qed.

Example par_masses_too_many :
  make_nbody_sys_par_masses 2 1 3 = Throw invalid_argument.
Proof. reflexivity. Qed.

(** C6.  For a number of bodies [n >= 2] (a [std::uint32_t]),
    [make_nbody_sys_fixed_masses] throws [std::invalid_argument] if and
    only if the size of [masses] differs from [n], and
    [make_nbody_sys_par_masses] throws it if and only if [n_massive > n];
    the size test is the first thing the functions do, so a throwing call
    has built no equation; on any other input they return a system (of
    [6 n] equations for the parametric masses) and throw nothing. *)
Theorem nbody_invalid_argument_iff {arith : number_arith} (n : nat)
    (Gconst : Q) (masses : list Q)
    (n_massive : nat) :
  2 <= n -> (N.of_nat n < 2 ^ 32)%N ->
  (make_nbody_sys_fixed_masses n Gconst masses = Throw invalid_argument
   <-> length masses <> n) /\
  (length masses = n ->
   exists sys, make_nbody_sys_fixed_masses n Gconst masses = Return sys) /\
  (make_nbody_sys_par_masses n Gconst n_massive = Throw invalid_argument
   <-> n < n_massive) /\
  (n_massive <= n ->
   exists sys, make_nbody_sys_par_masses n Gconst n_massive = Return sys
               /\ length sys = 6 * n) /\
  (forall e, make_nbody_sys_fixed_masses n Gconst masses = Throw e ->
             e = invalid_argument) /\
  (forall e, make_nbody_sys_par_masses n Gconst n_massive = Throw e ->
             e = invalid_argument).
Proof.
  intros _ Hn.
  assert (Hfix : length masses = n ->
            exists sys, make_nbody_sys_fixed_masses n Gconst masses = Return sys)
    by (now apply make_nbody_sys_fixed_masses_returns).
  assert (Hpar : n_massive <= n ->
            make_nbody_sys_par_masses n Gconst n_massive
            = Return (blocks n (par_factors Gconst) n_massive n)).
  { intros Hle. unfold make_nbody_sys_par_masses.
    destruct (Nat.ltb_spec n n_massive); [lia|].
    apply restricted_system_blocks; auto using u32_small. }
  assert (Hfix_bad : length masses <> n ->
            make_nbody_sys_fixed_masses n Gconst masses = Throw invalid_argument).
  { intros Hne. unfold make_nbody_sys_fixed_masses.
    now destruct (Nat.eqb_spec (length masses) n). }
  assert (Hpar_bad : n < n_massive ->
            make_nbody_sys_par_masses n Gconst n_massive = Throw invalid_argument).
  { intros Hlt. unfold make_nbody_sys_par_masses.
    destruct (Nat.ltb_spec n n_massive); [reflexivity|lia]. }
  repeat split.
  - intros E Hlen. destruct (Hfix Hlen) as [sys Hs]. congruence.
  - exact Hfix_bad.
  - exact Hfix.
  - intros E. destruct (Nat.lt_ge_cases n n_massive) as [|Hle]; [assumption|].
    rewrite (Hpar Hle) in E. discriminate.
  - exact Hpar_bad.
  - intros Hle. eexists. split; [exact (Hpar Hle)|apply blocks_length].
  - intros e E. destruct (Nat.eq_dec (length masses) n) as [Hlen|Hne].
    + destruct (Hfix Hlen) as [sys Hs]. congruence.
    + rewrite (Hfix_bad Hne) in E. congruence.
  - intros e E. destruct (Nat.lt_ge_cases n n_massive) as [Hlt|Hle].
    + rewrite (Hpar_bad Hlt) in E. congruence.
    + rewrite (Hpar Hle) in E. discriminate.
Qed.

Lemma nbody_invalid_argument_iff_witness :
  (make_nbody_sys_fixed_masses (arith := binary64_arith)
      3 1 [1; 0]%Q = Throw invalid_argument
   <-> length [1; 0]%Q <> 3) /\
  (length [1; 0]%Q = 3 ->
   exists sys, make_nbody_sys_fixed_masses (arith := binary64_arith)
       3 1 [1; 0]%Q = Return sys) /\
  (make_nbody_sys_par_masses 3 1 4 = Throw invalid_argument <-> 3 < 4) /\
  (4 <= 3 ->
   exists sys, make_nbody_sys_par_masses 3 1 4 = Return sys
               /\ length sys = 6 * 3) /\
  (forall e, make_nbody_sys_fixed_masses (arith := binary64_arith)
      3 1 [1; 0]%Q = Throw e ->
             e = invalid_argument) /\
  (forall e, make_nbody_sys_par_masses 3 1 4 = Throw e ->
             e = invalid_argument).
Proof.
  apply (nbody_invalid_argument_iff (arith := binary64_arith) 3 1 [1; 0]%Q 4).
  - lia.
  - vm_compute. reflexivity.
Defined.

Example three_bodies_one_massive {arith : number_arith} :
  exists sys,
    make_nbody_sys_fixed_masses 3 1 [1; 0; 0]%Q = Return sys /\
    sys !! 15 =
      Some (Var "vx_2",
            Bin op_mul (Bin op_sub (Var "x_2") (Var "x_0"))
              (Bin op_mul (Num (num_mul (-1) 1))
                 (Func "pow"
                    [Bin op_add
                       (Bin op_add
                          (Func "square" [Bin op_sub (Var "x_2") (Var "x_0")])
                          (Func "square" [Bin op_sub (Var "y_2") (Var "y_0")]))
                       (Func "square" [Bin op_sub (Var "z_2") (Var "z_0")]);
                     Num (-3 # 2)]))).
Proof. eexists. split; reflexivity. Qed.

(** The sum of body [k] in the restricted case when [k] is massless: one
    term for each massive body. *)
Lemma terms_massless (n : nat) (mf : mass_factors) (nm : nat)
    (vs : list expression) (k : nat) :
  nm <= k -> terms n mf nm vs k = map (fun i => ow_term n mf vs i k) (seq 0 nm).
Proof.
  intros Hk. unfold terms, from_earlier.
  destruct (Nat.ltb_spec k nm); [lia|reflexivity].
Qed.

Lemma get_variables_ow_term {arith : number_arith} (n : nat)
    (Gconst : Q) (masses : list Q)
    (p : string) (i k : nat) :
  i < n -> k < n -> p ∈ ["x_"; "y_"; "z_"] ->
  get_variables (ow_term n (fixed_factors Gconst masses) (make_vars p n) i k)
  ⊆ pos_vars i ∪ pos_vars k.
Proof.
  intros Hi Hk Hp. unfold ow_term, fixed_factors. cbn [fac_of].
  pose proof (get_variables_expr_mul (diff (make_vars p n) i k)
                (expr_mul (Num (num_mul (- Gconst) (masses !!! i))) (r_m3 n i k))) as H1.
  pose proof (get_variables_expr_mul (Num (num_mul (- Gconst) (masses !!! i)))
                (r_m3 n i k)) as H2.
  pose proof (get_variables_r_m3 n i k Hi Hk) as H3.
  pose proof (get_variables_diff p n i k Hi Hk) as H4.
  cbn [get_variables] in H2.
  assert (H5 : forall j, p +:+ li_to_string j ∈ pos_vars j).
  { intros j. unfold pos_vars.
    apply list_elem_of_In in Hp. cbn in Hp.
    destruct Hp as [<-|[<-|[<-|[]]]]; set_solver. }
  pose proof (H5 i). pose proof (H5 k). clear H5. set_solver.
Qed.

(** C4.  In the restricted case ([n >= 2] bodies, a non-empty block of
    non-zero masses followed by at least one zero mass) the system is
    returned and, for every massless body [k] and every coordinate, the
    right-hand side of the acceleration equation is the pairwise sum of
    exactly one term for each massive body [i], namely
    [(c_k - c_i) * ((-G m_i) * r_m3 i k)], where [-G m_i] is the number
    that the code computes as [-Gconst * masses[i]]; the variables of that
    term are among the positions of [i] and [k]; hence no position variable
    of another massless body occurs in the acceleration of [k], and no
    factor [r_m3] joins two massless bodies. *)
Theorem massless_acceleration_terms {arith : number_arith} (n : nat)
    (Gconst : Q) (massive massless : list Q) :
  2 <= n -> (N.of_nat n < 2 ^ 32)%N ->
  massive <> [] -> massless <> [] ->
  Forall (fun m => is_zero m = false) massive ->
  Forall (fun m => is_zero m = true) massless ->
  length (massive ++ massless) = n ->
  exists sys,
    make_nbody_sys_fixed_masses n Gconst (massive ++ massless) = Return sys /\
    forall k, length massive <= k < n ->
    forall c p,
      (c, p) ∈ [(0, "x_"); (1, "y_"); (2, "z_")] ->
      exists ts,
        sys !! (6 * k + 3 + c)
        = Some (Var ("v" +:+ p +:+ li_to_string k), sum_expr ts) /\
        pairwise_sum ts = Return (sum_expr ts) /\
        length ts = length massive /\
        (forall i, i < length massive ->
           ts !! i =
           Some (Bin op_mul
                   (Bin op_sub (Var (p +:+ li_to_string k))
                               (Var (p +:+ li_to_string i)))
                   (Bin op_mul
                      (Num (num_mul (- Gconst) ((massive ++ massless) !!! i)))
                      (r_m3 n i k)))) /\
        (forall i t, ts !! i = Some t ->
                     get_variables t ⊆ pos_vars i ∪ pos_vars k) /\
        (forall j, length massive <= j -> j <> k ->
                   get_variables (sum_expr ts) ## pos_vars j).
Proof.
  intros _ Hn Hmassive Hmassless Hnz Hz Hlen.
  set (masses := massive ++ massless) in *.
  set (nm := length massive).
  assert (Hless : length massless <> 0) by (destruct massless; cbn; congruence).
  assert (Hnm : nm + length massless = n)
    by (subst masses nm; now rewrite length_app in Hlen).
  destruct (n_fc_split massive massless Hnz Hz) as [Em El].
  fold masses in Em, El.
  assert (Esys : make_nbody_sys_fixed_masses n Gconst masses
                 = Return (blocks n (fixed_factors Gconst masses) nm n)).
  { unfold make_nbody_sys_fixed_masses. rewrite Hlen, Nat.eqb_refl, Em, El.
    fold nm. rewrite Hnm, Nat.eqb_refl.
    destruct (Nat.eqb_spec (length massless) 0); [contradiction|].
    cbn [negb andb]. apply restricted_system_blocks; auto using u32_small.
    lia. }
  eexists. split; [exact Esys|]. intros k Hk c p Hc.
  set (mf := fixed_factors Gconst masses).
  exists (terms n mf nm (make_vars p n) k).
  assert (Hp : p ∈ ["x_"; "y_"; "z_"]).
  { apply list_elem_of_In in Hc. apply list_elem_of_In. cbn in Hc |- *.
    destruct Hc as [[= <- <-]|[[= <- <-]|[[= <- <-]|[]]]]; auto. }
  assert (Hterm : forall i, i < nm ->
            terms n mf nm (make_vars p n) k !! i
            = Some (ow_term n mf (make_vars p n) i k)).
  { intros i Hi. rewrite terms_massless by lia.
    rewrite list_lookup_fmap, lookup_seq_lt by exact Hi. reflexivity. }
  assert (Hlen_ts : length (terms n mf nm (make_vars p n) k) = nm).
  { rewrite terms_massless by lia. now rewrite length_map, length_seq. }
  assert (Hvars : forall i t, terms n mf nm (make_vars p n) k !! i = Some t ->
                    get_variables t ⊆ pos_vars i ∪ pos_vars k).
  { intros i t Ht.
    assert (Hi : i < nm) by (rewrite <- Hlen_ts; eapply lookup_lt_Some, Ht).
    rewrite Hterm in Ht by exact Hi. injection Ht as <-.
    apply get_variables_ow_term; [lia|lia|exact Hp]. }
  split; [|split; [|split; [|split; [|split]]]].
  - rewrite <- Nat.add_assoc.
    apply list_elem_of_In in Hc. cbn in Hc.
    destruct Hc as [[= <- <-]|[[= <- <-]|[[= <- <-]|[]]]];
      rewrite blocks_lookup by lia;
      cbn [block lookup list_lookup Nat.add]; unfold prime_eq;
      unfold vx_vars, vy_vars, vz_vars, x_vars, y_vars, z_vars;
      rewrite make_vars_lookup by lia; reflexivity.
  - apply pairwise_sum_terms; auto using u32_small. lia.
  - exact Hlen_ts.
  - intros i Hi. rewrite Hterm by exact Hi. f_equal.
    unfold ow_term, mf, fixed_factors, diff. cbn [fac_of].
    rewrite !make_vars_lookup by lia. reflexivity.
  - exact Hvars.
  - intros j Hj Hjk.
    assert (Hsum : forall s, s ∈ get_variables
                                  (sum_expr (terms n mf nm (make_vars p n) k)) ->
                     s ∈ pos_vars k \/ exists i, i < nm /\ s ∈ pos_vars i).
    { apply (sum_expr_closed
               (fun e => forall s, s ∈ get_variables e ->
                  s ∈ pos_vars k \/ exists i, i < nm /\ s ∈ pos_vars i)).
      - cbn. set_solver.
      - intros a b Ha Hb s Hs.
        apply get_variables_expr_add, elem_of_union in Hs as [Hs|Hs]; auto.
      - apply Forall_lookup. intros i t Ht s Hs.
        assert (Hi : i < nm) by (rewrite <- Hlen_ts; eapply lookup_lt_Some, Ht).
        apply (Hvars i t Ht), elem_of_union in Hs as [Hs|Hs]; eauto. }
    apply elem_of_disjoint. intros s Hs Hsj.
    destruct (Hsum s Hs) as [Hk'|(i & Hi & Hi')].
    + apply Hjk. exact (pos_vars_inj _ _ s Hsj Hk').
    + pose proof (pos_vars_inj _ _ s Hsj Hi'). subst nm. lia.
Qed.

Lemma massless_acceleration_terms_witness :
  exists sys,
    make_nbody_sys_fixed_masses (arith := binary64_arith)
        3 1 ([1] ++ [0; 0])%Q = Return sys /\
    forall k, length [1%Q] <= k < 3 ->
    forall c p,
      (c, p) ∈ [(0, "x_"); (1, "y_"); (2, "z_")] ->
      exists ts,
        sys !! (6 * k + 3 + c)
        = Some (Var ("v" +:+ p +:+ li_to_string k), sum_expr ts) /\
        pairwise_sum ts = Return (sum_expr ts) /\
        length ts = length [1%Q] /\
        (forall i, i < length [1%Q] ->
           ts !! i =
           Some (Bin op_mul
                   (Bin op_sub (Var (p +:+ li_to_string k))
                               (Var (p +:+ li_to_string i)))
                   (Bin op_mul
                      (Num (num_mul (number_arith := binary64_arith)
                                    (- 1) (([1] ++ [0; 0])%Q !!! i)))
                      (r_m3 3 i k)))) /\
        (forall i t, ts !! i = Some t ->
                     get_variables t ⊆ pos_vars i ∪ pos_vars k) /\
        (forall j, length [1%Q] <= j -> j <> k ->
                   get_variables (sum_expr ts) ## pos_vars j).
Proof.
  apply (massless_acceleration_terms (arith := binary64_arith)
           3 1 [1%Q] [0%Q; 0%Q]).
  - lia.
  - vm_compute. reflexivity.
  - discriminate.
  - discriminate.
  - repeat constructor.
  - repeat constructor.
  - reflexivity.
Defined.

End NBodyClaims.

Module JetClaims.
Import Expr Jet JetFacts.


(** "Number-number tests" of [test/taylor_mul.cpp], order 3, batch 3. *)
Example test_number_number :
  let jet := run_test [("x", Bin op_mul (Num 2) (Num 3));
                       ("y", expr_add (Var "x") (Var "y"))] 3 3
                      [2; -2; -1; 3; 2; 4]%Q in
  slab_eqb jet
    [2; -2; -1; 3; 2; 4; 6; 6; 6; 5; 0; 3; 0; 0; 0;
     1 / 2 * (6 + jet !!! 9%nat); 1 / 2 * (6 + jet !!! 10%nat);
     1 / 2 * (6 + jet !!! 11%nat);
     0; 0; 0;
     1 / 6 * (2 * jet !!! 15%nat); 1 / 6 * (2 * jet !!! 16%nat);
     1 / 6 * (2 * jet !!! 17%nat)]%Q = true.
Proof. vm_compute. reflexivity. Qed.

(** "Variable-number tests", order 3, batch 3. *)
Example test_variable_number :
  let jet := run_test [("x", expr_mul (Var "y") (Num 2));
                       ("y", expr_mul (Var "x") (Num (-4)))] 3 3
                      [2; -1; 0; 3; 4; -5]%Q in
  slab_eqb jet
    [2; -1; 0; 3; 4; -5; 6; 8; -10; -8; 4; 0;
     jet !!! 9%nat; jet !!! 10%nat; jet !!! 11%nat;
     -2 * jet !!! 6%nat; -2 * jet !!! 7%nat; -2 * jet !!! 8%nat;
     1 / 6 * 4 * jet !!! 15%nat; 1 / 6 * 4 * jet !!! 16%nat; 1 / 6 * 4 * jet !!! 17%nat;
     -1 / 6 * 8 * jet !!! 12%nat; -1 / 6 * 8 * jet !!! 13%nat;
     -1 / 6 * 8 * jet !!! 14%nat]%Q = true.
Proof. vm_compute. reflexivity. Qed.

(** "Number/variable tests", order 2, batch 2. *)
Example test_number_variable :
  let jet := run_test [("x", expr_mul (Num 2) (Var "y"));
                       ("y", expr_mul (Num (-4)) (Var "x"))] 2 2
                      [2; -1; 3; 4]%Q in
  slab_eqb jet
    [2; -1; 3; 4; 6; 8; -8; 4; jet !!! 6%nat; jet !!! 7%nat;
     -2 * jet !!! 4%nat; -2 * jet !!! 5%nat]%Q = true.
Proof. vm_compute. reflexivity. Qed.

(** "Variable/variable tests", order 3, batch 3. *)
Example test_variable_variable :
  let jet := run_test [("x", expr_mul (Var "x") (Var "y"));
                       ("y", expr_mul (Var "y") (Var "x"))] 3 3
                      [2; 1; 3; 3; -4; 6]%Q in
  slab_eqb jet
    [2; 1; 3; 3; -4; 6; 6; -4; 18; 6; -4; 18;
     1 / 2 * (jet !!! 6%nat * 3 + jet !!! 9%nat * 2);
     1 / 2 * (jet !!! 7%nat * -4 + jet !!! 10%nat * 1);
     1 / 2 * (jet !!! 8%nat * 6 + jet !!! 11%nat * 3);
     1 / 2 * (jet !!! 6%nat * 3 + jet !!! 9%nat * 2);
     1 / 2 * (jet !!! 7%nat * -4 + jet !!! 10%nat * 1);
     1 / 2 * (jet !!! 8%nat * 6 + jet !!! 11%nat * 3);
     1 / 6 * (2 * jet !!! 12%nat * 3 + 2 * jet !!! 6%nat * jet !!! 9%nat
              + 2 * 2 * jet !!! 15%nat);
     1 / 6 * (2 * jet !!! 13%nat * -4 + 2 * jet !!! 7%nat * jet !!! 10%nat
              + 2 * 1 * jet !!! 16%nat);
     1 / 6 * (2 * jet !!! 14%nat * 6 + 2 * jet !!! 8%nat * jet !!! 11%nat
              + 2 * 3 * jet !!! 17%nat);
     1 / 6 * (2 * jet !!! 12%nat * 3 + 2 * jet !!! 6%nat * jet !!! 9%nat
              + 2 * 2 * jet !!! 15%nat);
     1 / 6 * (2 * jet !!! 13%nat * -4 + 2 * jet !!! 7%nat * jet !!! 10%nat
              + 2 * 1 * jet !!! 16%nat);
     1 / 6 * (2 * jet !!! 14%nat * 6 + 2 * jet !!! 8%nat * jet !!! 11%nat
              + 2 * 3 * jet !!! 17%nat)]%Q = true.
Proof. vm_compute. reflexivity. Qed.

Lemma taylor_decompose_states sys D :
  taylor_decompose sys = Some D -> d_states D = length sys.
Proof.
  unfold taylor_decompose.
  destruct (decompose_rhs _ _ _) as [[tail defs]|]; [|discriminate].
  now intros [= <-].
Qed.

(** C5.  A call of the jet function writes the rows of the orders
    [k >= 1] only: the first [S * B] entries of the slab, the order-0 state
    of the caller, are after the call what they were before it, for every
    system, order and batch size. *)
Theorem jet_keeps_order0 (sys : list (string * expression)) (p B : nat)
    (jet_fn : list Q -> list Q) (slab : list Q) :
  add_taylor_jet_batch sys p B = Some jet_fn ->
  take (length sys * B) (jet_fn slab) = take (length sys * B) slab.
Proof.
  unfold add_taylor_jet_batch.
  destruct (taylor_decompose sys) as [D|] eqn:ED; [|discriminate].
  cbn. intros [= <-]. rewrite <- (taylor_decompose_states _ _ ED).
  apply jet_take.
Qed.

Lemma jet_keeps_order0_witness :
  take (length [("x", expr_mul (Var "x") (Var "y"));
                ("y", expr_mul (Var "y") (Var "x"))] * 3)
       (jet product_decomposition 3 3
            (test_slab [2; 1; 3; 3; -4; 6]%Q 24))
  = take (length [("x", expr_mul (Var "x") (Var "y"));
                  ("y", expr_mul (Var "y") (Var "x"))] * 3)
         (test_slab [2; 1; 3; 3; -4; 6]%Q 24).
Proof.
  apply (jet_keeps_order0
           [("x", expr_mul (Var "x") (Var "y"));
            ("y", expr_mul (Var "y") (Var "x"))] 3 3
           (jet product_decomposition 3 3)).
  reflexivity.
Defined.



End JetClaims.

(* ===================================================================== *)
(** * Facts about the general case *)
(* ===================================================================== *)

Module NBodyGeneralFacts.
Import Expr NBody NBodyTerms NBodyFacts NBodyGeneralTerms.

Section Loops.
Context {arith : number_arith}.
Variables (n : nat) (Gconst : Q) (masses : list Q).

Local Abbreviation ff := (fixed_factors Gconst masses).
Local Abbreviation gstep := (general_cell_step n Gconst masses).
Local Abbreviation massive_b := (fun j => negb (is_zero (masses !!! j))).

Lemma general_cell_fold (vs : list expression) (i : nat)
    (a : list (list expression)) (m : nat) :
  let a' := fold_left (gstep vs i) (seq (S i) m) a in
  length a' = length a /\
  a' !! i = (fun l => l ++ map (by_term n ff vs i)
                              (List.filter massive_b (seq (S i) m)))
            <$> a !! i /\
  (forall k, S i <= k < S i + m ->
     a' !! k = (fun l => l ++ [if is_zero (masses !!! k)
                               then ow_term n ff vs i k
                               else on_term n ff vs i k]) <$> a !! k) /\
  (forall k, S i + m <= k -> a' !! k = a !! k).
Proof.
  induction m as [|m (IHlen & IHi & IHmid & IHhi)]; cbn zeta.
  - cbn [seq fold_left List.filter map].
    split; [reflexivity|]. split; [now rewrite option_fmap_app_nil|].
    split; [intros; lia|reflexivity].
  - cbn zeta in *. rewrite seq_S, fold_left_app, List.filter_app.
    cbn [fold_left List.filter].
    set (a1 := fold_left (gstep vs i) (seq (S i) m) a) in *.
    set (j := S i + m). unfold general_cell_step.
    destruct (is_zero (masses !!! j)) eqn:Hj; cbn [negb].
    + unfold push_back_at. rewrite !length_alter.
      split; [exact IHlen|]. split; [|split].
      * rewrite list_lookup_alter_ne by lia. rewrite IHi.
        now rewrite app_nil_r.
      * intros k Hk. destruct (decide (k = j)) as [->|Hne].
        -- rewrite list_lookup_alter_eq. rewrite IHhi by lia.
           now rewrite Hj.
        -- rewrite !list_lookup_alter_ne by lia. apply IHmid. lia.
      * intros k Hk. rewrite !list_lookup_alter_ne by lia. apply IHhi. lia.
    + unfold push_back_at. rewrite !length_alter.
      split; [exact IHlen|]. split; [|split].
      * rewrite list_lookup_alter_ne by lia.
        rewrite list_lookup_alter_eq, IHi.
        rewrite map_app. cbn [map]. fold j.
        destruct (a !! i); cbn; [|reflexivity].
        unfold push_back. now rewrite <- app_assoc.
      * intros k Hk. destruct (decide (k = j)) as [->|Hne].
        -- rewrite list_lookup_alter_eq, list_lookup_alter_ne by lia.
           rewrite IHhi by lia. now rewrite Hj.
        -- rewrite !list_lookup_alter_ne by lia. apply IHmid. lia.
      * intros k Hk. rewrite !list_lookup_alter_ne by lia. apply IHhi. lia.
Qed.

Lemma general_interaction_fold (i : nat) (js : list nat) (st : accs) :
  let st' := fold_left (general_interaction n Gconst masses i) js st in
  retval st' = retval st /\
  x_acc st' = fold_left (gstep (x_vars n) i) js (x_acc st) /\
  y_acc st' = fold_left (gstep (y_vars n) i) js (y_acc st) /\
  z_acc st' = fold_left (gstep (z_vars n) i) js (z_acc st).
Proof.
  revert st. induction js as [|j js IH]; intros st; [now cbn|].
  cbn [fold_left]. cbn zeta in *.
  destruct (IH (general_interaction n Gconst masses i st j)) as (-> & -> & -> & ->).
  unfold general_interaction, general_cell_step, by_term, on_term, ow_term.
  destruct (is_zero (masses !!! j)); cbn; auto.
Qed.

Hypothesis n_small : (N.of_nat n < Pairwise.size_max)%N.

Lemma filter_length_le {A : Type} (p : A -> bool) (l : list A) :
  length (List.filter p l) <= length l.
Proof. induction l as [|x l IH]; cbn; [lia|]. destruct (p x); cbn; lia. Qed.

Lemma general_terms_length (vs : list expression) (k : nat) :
  k < n -> length (general_terms n Gconst masses vs k) < n.
Proof.
  intros Hk. unfold general_terms, general_from_earlier, general_from_later,
    later_massive.
  rewrite length_app, !length_map, length_seq.
  pose proof (filter_length_le massive_b (seq (S k) (n - S k))) as H.
  rewrite length_seq in H. lia.
Qed.

Lemma pairwise_sum_general_terms (vs : list expression) (k : nat) :
  k < n ->
  pairwise_sum (general_terms n Gconst masses vs k)
  = Return (sum_expr (general_terms n Gconst masses vs k)).
Proof.
  intros Hk. apply pairwise_sum_sum_expr.
  pose proof (general_terms_length vs k Hk). lia.
Qed.

Lemma general_blocks_S (I : nat) :
  general_blocks n Gconst masses (S I)
  = general_blocks n Gconst masses I ++ general_block n Gconst masses I.
Proof.
  unfold general_blocks. rewrite seq_S, flat_map_app. cbn [flat_map].
  now rewrite app_nil_r.
Qed.

Lemma general_cells_ok_step (I : nat) (vs : list expression)
    (a : list (list expression)) :
  I < n -> general_cells_ok n Gconst masses I vs a ->
  let a' := fold_left (gstep vs I) (seq (S I) (n - S I)) a in
  a' !!! I = general_terms n Gconst masses vs I /\
  general_cells_ok n Gconst masses (S I) vs a'.
Proof.
  intros HI [Hlen Hcells] a'.
  destruct (general_cell_fold vs I a (n - S I)) as (Hl & Hi & Hmid & _).
  fold a' in Hl, Hi, Hmid. split; [|split].
  - apply list_lookup_total_correct. rewrite Hi, Hcells by lia.
    reflexivity.
  - lia.
  - intros k Hk. rewrite Hmid, Hcells by lia.
    cbn [fmap option_fmap option_map]. f_equal.
    unfold general_from_earlier. now rewrite seq_S, map_app.
Qed.

Lemma general_body_blocks (I : nat) (st : accs) :
  I < n -> general_loop_inv n Gconst masses I st ->
  exists st', general_body n Gconst masses I st = Return st' /\
              general_loop_inv n Gconst masses (S I) st'.
Proof.
  intros HI (Hret & Hx & Hy & Hz). unfold general_body. cbn zeta.
  set (st0 := push_velocities n I st).
  set (st1 := fold_left (general_interaction n Gconst masses I)
                        (seq (S I) (n - S I)) st0).
  destruct (general_interaction_fold I (seq (S I) (n - S I)) st0)
    as (Er & Ex & Ey & Ez). fold st1 in Er, Ex, Ey, Ez.
  change (x_acc st0) with (x_acc st) in Ex.
  change (y_acc st0) with (y_acc st) in Ey.
  change (z_acc st0) with (z_acc st) in Ez.
  destruct (general_cells_ok_step I _ _ HI Hx) as [Tx Cx].
  destruct (general_cells_ok_step I _ _ HI Hy) as [Ty Cy].
  destruct (general_cells_ok_step I _ _ HI Hz) as [Tz Cz].
  cbn zeta in *. rewrite <- Ex in Tx, Cx. rewrite <- Ey in Ty, Cy.
  rewrite <- Ez in Tz, Cz.
  unfold push_accelerations.
  rewrite Tx, Ty, Tz, !pairwise_sum_general_terms by exact HI. cbn [bind].
  eexists. split; [reflexivity|].
  unfold general_loop_inv. cbn [retval x_acc y_acc z_acc].
  split; [|auto].
  rewrite Er. subst st0. unfold push_velocities. cbn [retval].
  rewrite general_blocks_S, Hret. unfold push_back, general_block.
  rewrite <- !app_assoc. reflexivity.
Qed.

Lemma general_init_inv : general_loop_inv n Gconst masses 0 (init_accs n).
Proof.
  unfold general_loop_inv, general_cells_ok, init_accs.
  cbn [retval x_acc y_acc z_acc]. rewrite !length_replicate.
  repeat split; try reflexivity; intros k Hk;
    now rewrite lookup_replicate_2 by lia.
Qed.

(** The loop of the general case builds the blocks of the [n] bodies and
    nothing is thrown. *)
Lemma general_system_blocks :
  general_system n Gconst masses = Return (general_blocks n Gconst masses n).
Proof.
  unfold general_system.
  destruct (for_loop_invariant (general_loop_inv n Gconst masses)
              (general_body n Gconst masses) n general_body_blocks n 0
              (init_accs n) ltac:(lia) general_init_inv)
    as (st1 & E1 & I1).
  rewrite E1. cbn [bind]. f_equal. now destruct I1 as [-> _].
Qed.

End Loops.

End NBodyGeneralFacts.

(* ===================================================================== *)
(** * The values of the accelerations *)
(* ===================================================================== *)

Module GravityFacts.
Import Expr NBody NBodyTerms NBodyFacts NBodyParFacts NBodyGeneralTerms
  NBodyGeneralFacts Gravity.
Local Open Scope Qc_scope.

Lemma sumQc_cons (x : Qc) (l : list Qc) : sumQc (x :: l) = x + sumQc l.
Proof. reflexivity. Qed.

Lemma sumQc_app (l1 l2 : list Qc) : sumQc (l1 ++ l2) = sumQc l1 + sumQc l2.
Proof.
  induction l1 as [|x l1 IH]; cbn [app].
  - change (sumQc []) with 0. ring.
  - rewrite !sumQc_cons, IH. ring.
Qed.

Lemma sumQc_zero {A : Type} (f : A -> Qc) (l : list A) :
  (forall x, In x l -> f x = 0) -> sumQc (map f l) = 0.
Proof.
  induction l as [|x l IH]; intros H; [reflexivity|].
  cbn [map]. rewrite sumQc_cons.
  rewrite (H x) by (now left). rewrite IH by (intros; apply H; now right).
  ring.
Qed.

Lemma sumQc_ext {A : Type} (f g : A -> Qc) (l : list A) :
  (forall x, In x l -> f x = g x) -> sumQc (map f l) = sumQc (map g l).
Proof.
  intros H. f_equal. apply map_ext_in. exact H.
Qed.

(** Terms that vanish can be left out of a sum. *)
Lemma sumQc_filter {A : Type} (f : A -> Qc) (p : A -> bool) (l : list A) :
  (forall x, In x l -> p x = false -> f x = 0) ->
  sumQc (map f (List.filter p l)) = sumQc (map f l).
Proof.
  induction l as [|x l IH]; intros H; [reflexivity|].
  cbn [List.filter map]. destruct (p x) eqn:E.
  - cbn [map]. rewrite !sumQc_cons.
    rewrite IH by (intros; apply H; [now right|assumption]). reflexivity.
  - rewrite sumQc_cons.
    rewrite IH by (intros; apply H; [now right|assumption]).
    rewrite (H x) by (first [now left|assumption]). ring.
Qed.

(** With an exact addition, the pairwise sum is the sum. *)
Lemma pairwise_round_sumQc (l : list Qc) :
  sumQc (Pairwise.pairwise_round Qcplus l) = sumQc l.
Proof.
  induction l as [|x|x y l IH] using PairwiseFacts.pair_ind;
    [reflexivity|reflexivity|].
  cbn [Pairwise.pairwise_round]. rewrite !sumQc_cons, IH. ring.
Qed.

Lemma pairwise_loop_sumQc (l : list Qc) :
  Pairwise.pairwise_loop Qcplus 0 l = sumQc l.
Proof.
  destruct l as [|x l]; [now rewrite Pairwise.pairwise_loop_equation_1|].
  apply (PairwiseFacts.pairwise_loop_ind Qcplus 0 (fun l r => r = sumQc l));
    [| |discriminate].
  - intros y. rewrite sumQc_cons. change (sumQc []) with 0. ring.
  - intros a b rest r ->. apply pairwise_round_sumQc.
Qed.

Lemma others_below (m k : nat) :
  (k < m)%nat -> others m k = seq 0 k ++ seq (S k) (m - S k).
Proof.
  intros Hk. unfold others.
  replace m with (k + (1 + (m - S k)))%nat at 1 by lia.
  rewrite !seq_app, !List.filter_app. cbn [seq List.filter Nat.add].
  rewrite Nat.eqb_refl. cbn [negb app].
  rewrite !List.forallb_filter_id.
  - f_equal. f_equal. lia.
  - apply forallb_forall. intros i Hi%in_seq.
    apply negb_true_iff, Nat.eqb_neq. lia.
  - apply forallb_forall. intros i Hi%in_seq.
    apply negb_true_iff, Nat.eqb_neq. lia.
Qed.

Lemma others_above (m k : nat) : (m <= k)%nat -> others m k = seq 0 m.
Proof.
  intros Hk. unfold others. apply List.forallb_filter_id.
  apply forallb_forall. intros i Hi%in_seq.
  apply negb_true_iff, Nat.eqb_neq. lia.
Qed.

Lemma others_split (m n k : nat) :
  (m <= n)%nat ->
  others n k = others m k
               ++ List.filter (fun i => negb (Nat.eqb i k)) (seq m (n - m)).
Proof.
  intros H. unfold others. replace n with (m + (n - m))%nat at 1 by lia.
  now rewrite seq_app, List.filter_app.
Qed.

Lemma is_zero_true_Qc (q : Q) : is_zero q = true -> Q2Qc q = 0.
Proof. intros H. exact (Q2Qc_Qeq_bool q 0 H). Qed.

Lemma is_zero_false_Qc (q : Q) : is_zero q = false -> Q2Qc q <> 0.
Proof.
  unfold is_zero. intros H E.
  assert (Hq : (q == 0)%Q) by (now apply Q2Qc_eq_iff).
  apply Qeq_bool_iff in Hq. congruence.
Qed.

Section Terms.
Variable n : nat.
Variable mf : mass_factors.
Variable G : Qc.
Variable M : nat -> Qc.
Variable env : string -> Qc.
Variable pars : nat -> Qc.
Variable pow_fn : Qc -> Qc -> Qc.
Local Abbreviation ev := (eval env pars pow_fn).

Variable p : string.
Local Abbreviation vs := (make_vars p n).
Local Abbreviation pull := (attraction G M env pow_fn p).

Lemma ev_diff (i j : nat) :
  (i < n)%nat -> (j < n)%nat ->
  ev (diff vs i j) = coord env p j - coord env p i.
Proof.
  intros Hi Hj. unfold diff. rewrite eval_expr_sub.
  rewrite !make_vars_lookup by assumption. reflexivity.
Qed.

Lemma ev_r_m3 (i j : nat) :
  (i < n)%nat -> (j < n)%nat ->
  ev (r_m3 n i j) = pow_fn (dist2 env j i) (Q2Qc (-3 # 2)).
Proof.
  intros Hi Hj. unfold r_m3, pow, square, x_vars, y_vars, z_vars, diff.
  rewrite !make_vars_lookup by assumption.
  cbn [eval eval_func String.eqb Ascii.eqb Bool.eqb].
  rewrite !eval_expr_add. cbn [eval eval_func String.eqb Ascii.eqb Bool.eqb].
  rewrite !eval_expr_sub. cbn [eval]. reflexivity.
Qed.

Lemma dist2_sym (i j : nat) : dist2 env i j = dist2 env j i.
Proof. unfold dist2. ring. Qed.

(** The values of the three kinds of terms, given the values of the
    factors that carry the masses. *)
Lemma ev_by_term (k j : nat) :
  (k < n)%nat -> (j < n)%nat ->
  (forall r, ev (fac_j_of mf k j r) = G * M j * ev r) ->
  ev (by_term n mf vs k j) = pull j k.
Proof.
  intros Hk Hj ev_fac_j. unfold by_term, attraction.
  rewrite eval_expr_mul, ev_fac_j, ev_diff, ev_r_m3 by assumption. ring.
Qed.

Lemma ev_ow_term (i k : nat) :
  (i < n)%nat -> (k < n)%nat ->
  (forall r, ev (fac_of mf i k r) = - G * M i * ev r) ->
  ev (ow_term n mf vs i k) = pull i k.
Proof.
  intros Hi Hk ev_fac. unfold ow_term, attraction.
  rewrite eval_expr_mul, ev_fac, ev_diff, ev_r_m3 by assumption.
  rewrite (dist2_sym k i). ring.
Qed.

Lemma ev_on_term (i k : nat) :
  (i < n)%nat -> (k < n)%nat -> M k <> 0 ->
  (forall r, ev (fac_j_of mf i k r) = G * M k * ev r) ->
  ev (c_ij_of mf i k) = - M i / M k ->
  ev (on_term n mf vs i k) = pull i k.
Proof.
  intros Hi Hk Hm ev_fac_j ev_c_ij. unfold on_term, by_term, attraction.
  rewrite !eval_expr_mul, ev_fac_j, ev_c_ij, ev_diff, ev_r_m3 by assumption.
  rewrite (dist2_sym k i). field. exact Hm.
Qed.

Lemma ev_sum_expr (l : list expression) :
  ev (sum_expr l) = sumQc (map ev l).
Proof. now rewrite eval_sum_expr, pairwise_loop_sumQc. Qed.

(** The restricted loops: the sum of body [k] is Newton's law among the
    [nm] massive bodies. *)
Lemma ev_terms (nm k : nat) :
  (forall i j r, (i < j < nm)%nat ->
                 ev (fac_j_of mf i j r) = G * M j * ev r) ->
  (forall i j, (i < j < nm)%nat -> ev (c_ij_of mf i j) = - M i / M j) ->
  (forall i j r, (i < nm <= j)%nat -> (j < n)%nat ->
                 ev (fac_of mf i j r) = - G * M i * ev r) ->
  (nm <= n)%nat -> (k < n)%nat -> (forall j, (j < nm)%nat -> M j <> 0) ->
  ev (sum_expr (terms n mf nm vs k))
  = newton_acceleration G M env pow_fn nm p k.
Proof.
  intros ev_fac_j ev_c_ij ev_fac Hnm Hk HM.
  rewrite ev_sum_expr. unfold newton_acceleration, terms.
  destruct (Nat.ltb_spec k nm) as [Hlt|Hge].
  - rewrite others_below by exact Hlt.
    rewrite !map_app, !sumQc_app. unfold from_earlier, from_later.
    rewrite !map_map. f_equal.
    + apply sumQc_ext. intros i Hi%in_seq.
      destruct (Nat.ltb_spec k nm); [|lia].
      apply ev_on_term; [lia|lia|apply HM; lia| |apply ev_c_ij; lia].
      intros r. apply ev_fac_j. lia.
    + apply sumQc_ext. intros j Hj%in_seq.
      apply ev_by_term; [lia|lia|]. intros r. apply ev_fac_j. lia.
  - rewrite others_above by exact Hge. unfold from_earlier.
    rewrite map_map. apply sumQc_ext. intros i Hi%in_seq.
    destruct (Nat.ltb_spec k nm); [lia|].
    apply ev_ow_term; [lia|lia|]. intros r. apply ev_fac; lia.
Qed.

(** Bodies without a mass can be added to the sum. *)
Lemma newton_acceleration_massless (nm k : nat) :
  (nm <= n)%nat -> (forall j, (nm <= j < n)%nat -> M j = 0) ->
  newton_acceleration G M env pow_fn nm p k
  = newton_acceleration G M env pow_fn n p k.
Proof.
  intros Hnm HM. unfold newton_acceleration.
  rewrite (others_split nm n k Hnm), map_app, sumQc_app.
  rewrite (sumQc_zero _ (List.filter _ _)); [ring|].
  intros i Hi. apply List.filter_In in Hi as [Hi%in_seq _].
  unfold attraction. rewrite HM by lia. ring.
Qed.

End Terms.

Section Fixed.
Context {arith : number_arith}.
Variables (n : nat) (Gconst : Q) (masses : list Q).
Variable env : string -> Qc.
Variable pars : nat -> Qc.
Variable pow_fn : Qc -> Qc -> Qc.
Local Abbreviation ev := (eval env pars pow_fn).
Local Abbreviation ff := (fixed_factors Gconst masses).
Local Abbreviation Mq := (fun j => Q2Qc (masses !!! j)).

(** What [exact_constants] says of a pair. *)
Lemma exact_constants_pair (i j : nat) :
  exact_constants n Gconst masses = true -> (i < j < n)%nat ->
  exact_pair Gconst masses i j = true.
Proof.
  unfold exact_constants. intros H Hij.
  rewrite List.forallb_forall in H.
  specialize (H i ltac:(apply in_seq; lia)).
  rewrite List.forallb_forall in H. apply H, in_seq. lia.
Qed.

Lemma ev_fixed_fac_j i j r :
  exact_pair Gconst masses i j = true -> is_zero (masses !!! j) = false ->
  ev (fac_j_of ff i j r) = Q2Qc Gconst * Mq j * ev r.
Proof.
  unfold exact_pair. intros H Hz. rewrite Hz in H.
  apply andb_true_iff in H as [H _].
  cbn [fac_j_of fixed_factors]. rewrite eval_expr_mul. cbn [eval].
  now rewrite (Q2Qc_Qeq_bool _ _ H), Q2Qc_mult.
Qed.

Lemma ev_fixed_c_ij i j :
  exact_pair Gconst masses i j = true -> is_zero (masses !!! j) = false ->
  ev (c_ij_of ff i j) = - Mq i / Mq j.
Proof.
  unfold exact_pair. intros H Hz. rewrite Hz in H.
  apply andb_true_iff in H as [_ H].
  cbn [c_ij_of fixed_factors eval].
  now rewrite (Q2Qc_Qeq_bool _ _ H), Q2Qc_div, Q2Qc_opp.
Qed.

Lemma ev_fixed_fac i j r :
  exact_pair Gconst masses i j = true -> is_zero (masses !!! j) = true ->
  ev (fac_of ff i j r) = - Q2Qc Gconst * Mq i * ev r.
Proof.
  unfold exact_pair. intros H Hz. rewrite Hz in H.
  cbn [fac_of fixed_factors]. rewrite eval_expr_mul. cbn [eval].
  now rewrite (Q2Qc_Qeq_bool _ _ H), Q2Qc_mult, Q2Qc_opp.
Qed.

(** The general loop: the sum of body [k] is Newton's law among all the
    bodies. *)
Lemma ev_general_terms (p : string) (k : nat) :
  exact_constants n Gconst masses = true ->
  (k < n)%nat ->
  ev (sum_expr (general_terms n Gconst masses (make_vars p n) k))
  = newton_acceleration (Q2Qc Gconst) Mq env pow_fn n p k.
Proof.
  intros Hex Hk. rewrite ev_sum_expr. unfold newton_acceleration, general_terms.
  rewrite others_below by exact Hk.
  rewrite !map_app, !sumQc_app.
  unfold general_from_earlier, general_from_later, later_massive.
  rewrite !map_map. f_equal.
  - apply sumQc_ext. intros i Hi%in_seq.
    assert (Hp : exact_pair Gconst masses i k = true)
      by (apply exact_constants_pair; [exact Hex|lia]).
    destruct (is_zero (masses !!! k)) eqn:Ez.
    + apply (ev_ow_term n ff _ Mq); [lia|lia|].
      intros r. now apply ev_fixed_fac.
    + apply (ev_on_term n ff _ Mq);
        [lia|lia|now apply is_zero_false_Qc| |now apply ev_fixed_c_ij].
      intros r. now apply ev_fixed_fac_j.
  - rewrite <- (sumQc_filter (fun i => attraction _ _ _ _ p i k)
                  (fun j => negb (is_zero (masses !!! j)))).
    + apply sumQc_ext. intros j Hj.
      apply List.filter_In in Hj as [Hj%in_seq Hz%negb_true_iff].
      apply (ev_by_term n ff _ Mq); [lia|lia|].
      intros r. apply ev_fixed_fac_j; [|exact Hz].
      apply exact_constants_pair; [exact Hex|lia].
    + intros j _ Hj%negb_false_iff. unfold attraction.
      rewrite (is_zero_true_Qc _ Hj). ring.
Qed.

End Fixed.

End GravityFacts.

(* ===================================================================== *)
(** * The system of fixed masses, case by case *)
(* ===================================================================== *)

Module FixedMassesFacts.
Import Expr NBody NBodyTerms NBodyFacts NBodyParFacts NBodyGeneralTerms
  NBodyGeneralFacts Gravity GravityFacts NBodyShape.

(** ** The two counting loops, read backwards *)

Lemma count_while_split (p : Q -> bool) (l : list Q) :
  exists pre,
    l = pre ++ snd (count_while p l) /\
    length pre = fst (count_while p l) /\
    Forall (fun m => p m = true) pre /\
    match snd (count_while p l) with
    | [] => True
    | m :: _ => p m = false
    end.
Proof.
  induction l as [|m l (pre & E & Hl & Hp & Hr)].
  - exists []. cbn. auto.
  - cbn [count_while]. destruct (p m) eqn:Hm.
    + destruct (count_while p l) as [c stop] eqn:Ec. cbn [fst snd] in *.
      exists (m :: pre). cbn [app length]. repeat split; auto.
      congruence.
    + exists []. cbn. auto.
Qed.

Lemma restricted_branch_shape (masses : list Q) :
  negb (n_fc_massless masses =? 0)
  && (n_fc_massive masses + n_fc_massless masses =? length masses) = true ->
  exists massive massless,
    restricted_shape masses massive massless /\
    n_fc_massive masses = length massive.
Proof.
  intros H. apply andb_true_iff in H as [H0 Hsum].
  apply negb_true_iff, Nat.eqb_neq in H0. apply Nat.eqb_eq in Hsum.
  unfold n_fc_massive, n_fc_massless in *.
  destruct (count_while_split (fun m => negb (is_zero m)) masses)
    as (pre & E1 & L1 & P1 & _).
  set (rest := snd (count_while (fun m => negb (is_zero m)) masses)) in *.
  destruct (count_while_split is_zero rest) as (mid & E2 & L2 & P2 & _).
  assert (Hnil : snd (count_while is_zero rest) = []).
  { apply nil_length_inv.
    assert (length masses = length pre + (length mid
              + length (snd (count_while is_zero rest)))).
    { rewrite E1 at 1. rewrite length_app. f_equal.
      rewrite E2 at 1. now rewrite length_app. }
    lia. }
  rewrite Hnil, app_nil_r in E2.
  exists pre, mid. split; [|now rewrite L1].
  split; [now rewrite <- E2|]. split.
  - intros ->. cbn in L2. lia.
  - split; [|exact P2].
    eapply Forall_impl; [exact P1|]. cbn. intros m Hm.
    now apply negb_true_iff in Hm.
Qed.

(** The system that [make_nbody_sys_fixed_masses] returns: the blocks of
    the restricted loops when the masses have the restricted shape, the
    blocks of the general loop otherwise. *)
Lemma fixed_masses_cases {arith : number_arith} (n : nat)
    (Gconst : Q) (masses : list Q) :
  (N.of_nat n < Pairwise.size_max)%N -> length masses = n ->
  (exists massive massless,
      restricted_shape masses massive massless /\
      make_nbody_sys_fixed_masses n Gconst masses
      = Return (blocks n (fixed_factors Gconst masses) (length massive) n))
  \/ ((forall massive massless, ~ restricted_shape masses massive massless) /\
      make_nbody_sys_fixed_masses n Gconst masses
      = Return (general_blocks n Gconst masses n)).
Proof.
  intros Hn Hlen. unfold make_nbody_sys_fixed_masses.
  rewrite Hlen, Nat.eqb_refl. cbn [negb].
  destruct (negb (n_fc_massless masses =? 0)
            && (n_fc_massive masses + n_fc_massless masses =? n)) eqn:Hc.
  - left. rewrite <- Hlen in Hc.
    destruct (restricted_branch_shape masses Hc) as (ms & ml & Hs & ->).
    exists ms, ml. split; [exact Hs|].
    apply restricted_system_blocks; [|exact Hn].
    destruct Hs as (-> & _). rewrite length_app in Hlen. lia.
  - right. split; [|now apply general_system_blocks].
    intros ms ml (-> & Hne & Hms & Hml).
    destruct (n_fc_split ms ml Hms Hml) as [E1 E2].
    rewrite E1, E2 in Hc. rewrite length_app in Hlen.
    apply andb_false_iff in Hc as [Hc|Hc].
    + apply negb_false_iff, Nat.eqb_eq in Hc.
      destruct ml; [congruence|discriminate Hc].
    + apply Nat.eqb_neq in Hc. lia.
Qed.

Lemma general_blocks_length {arith : number_arith} n Gconst masses I :
  length (general_blocks n Gconst masses I) = 6 * I.
Proof.
  induction I as [|I IH]; [reflexivity|].
  rewrite general_blocks_S, length_app, IH. cbn [general_block length]. lia.
Qed.

Lemma general_blocks_lookup {arith : number_arith} n Gconst masses I k r :
  k < I -> r < 6 ->
  general_blocks n Gconst masses I !! (6 * k + r)
  = general_block n Gconst masses k !! r.
Proof.
  intros Hk Hr. induction I as [|I IH]; [lia|].
  rewrite general_blocks_S. destruct (decide (k = I)) as [->|Hne].
  - rewrite lookup_app_r by (rewrite general_blocks_length; lia).
    rewrite general_blocks_length. f_equal. lia.
  - rewrite lookup_app_l by (rewrite general_blocks_length; lia).
    apply IH. lia.
Qed.

(** Equation [6 k + r] of either kind of blocks. *)
Lemma block_position n mf nm k c p :
  k < n -> (c, p) ∈ coords ->
  block n mf nm k !! c
  = Some (Var (p +:+ li_to_string k), Var ("v" +:+ p +:+ li_to_string k)) /\
  block n mf nm k !! (3 + c)
  = Some (Var ("v" +:+ p +:+ li_to_string k),
          sum_expr (terms n mf nm (make_vars p n) k)).
Proof.
  intros Hk Hc. unfold block, prime_eq, x_vars, y_vars, z_vars, vx_vars,
    vy_vars, vz_vars.
  rewrite !make_vars_lookup by exact Hk.
  unfold coords in Hc. rewrite !elem_of_cons, elem_of_nil in Hc.
  destruct Hc as [[= -> ->]|[[= -> ->]|[[= -> ->]|[]]]]; split; reflexivity.
Qed.

Lemma general_block_position {arith : number_arith} n Gconst masses k c p :
  k < n -> (c, p) ∈ coords ->
  general_block n Gconst masses k !! c
  = Some (Var (p +:+ li_to_string k), Var ("v" +:+ p +:+ li_to_string k)) /\
  general_block n Gconst masses k !! (3 + c)
  = Some (Var ("v" +:+ p +:+ li_to_string k),
          sum_expr (general_terms n Gconst masses (make_vars p n) k)).
Proof.
  intros Hk Hc. unfold general_block, prime_eq, x_vars, y_vars, z_vars,
    vx_vars, vy_vars, vz_vars.
  rewrite !make_vars_lookup by exact Hk.
  unfold coords in Hc. rewrite !elem_of_cons, elem_of_nil in Hc.
  destruct Hc as [[= -> ->]|[[= -> ->]|[[= -> ->]|[]]]]; split; reflexivity.
Qed.

Lemma coords_lt c p : (c, p) ∈ coords -> c < 3.
Proof.
  unfold coords. rewrite !elem_of_cons, elem_of_nil.
  intros [[= -> _]|[[= -> _]|[[= -> _]|[]]]]; lia.
Qed.

(** The layout of the system of fixed masses. *)
Lemma fixed_masses_layout_lemma {arith : number_arith} (n : nat)
    (Gconst : Q) (masses : list Q) :
  (N.of_nat n < 2 ^ 32)%N -> length masses = n ->
  exists sys,
    make_nbody_sys_fixed_masses n Gconst masses = Return sys /\
    length sys = 6 * n /\
    forall k c p, k < n -> (c, p) ∈ coords ->
      sys !! (6 * k + c)
      = Some (Var (p +:+ li_to_string k),
              Var ("v" +:+ p +:+ li_to_string k)) /\
      exists rhs,
        sys !! (6 * k + 3 + c)
        = Some (Var ("v" +:+ p +:+ li_to_string k), rhs).
Proof.
  intros Hn Hlen.
  destruct (fixed_masses_cases n Gconst masses (u32_small n Hn) Hlen)
    as [(ms & ml & Hs & E)|[_ E]]; rewrite E; eexists; (split; [reflexivity|]).
  - split; [apply blocks_length|]. intros k c p Hk Hc.
    pose proof (coords_lt c p Hc) as Hc3.
    destruct (block_position n (fixed_factors Gconst masses) (length ms)
                k c p Hk Hc) as [E1 E2].
    rewrite blocks_lookup by lia. split; [exact E1|].
    replace (6 * k + 3 + c) with (6 * k + (3 + c)) by lia.
    rewrite blocks_lookup by lia. eauto.
  - split; [apply general_blocks_length|]. intros k c p Hk Hc.
    pose proof (coords_lt c p Hc) as Hc3.
    destruct (general_block_position n Gconst masses k c p Hk Hc) as [E1 E2].
    rewrite general_blocks_lookup by lia. split; [exact E1|].
    replace (6 * k + 3 + c) with (6 * k + (3 + c)) by lia.
    rewrite general_blocks_lookup by lia. eauto.
Qed.

(** Newton's law, when the constants are exact. *)
Lemma fixed_masses_newton_lemma {arith : number_arith} (n : nat)
    (Gconst : Q) (masses : list Q) :
  (N.of_nat n < 2 ^ 32)%N -> length masses = n ->
  exact_constants n Gconst masses = true ->
  exists sys,
    make_nbody_sys_fixed_masses n Gconst masses = Return sys /\
    forall k c p, k < n -> (c, p) ∈ coords ->
      exists rhs,
        sys !! (6 * k + 3 + c)
        = Some (Var ("v" +:+ p +:+ li_to_string k), rhs) /\
        forall env pars pow_fn,
          eval env pars pow_fn rhs
          = newton_acceleration (Q2Qc Gconst)
              (fun j => Q2Qc (masses !!! j)) env pow_fn n p k.
Proof.
  intros Hn Hlen Hex.
  destruct (fixed_masses_cases n Gconst masses (u32_small n Hn) Hlen)
    as [(ms & ml & Hs & E)|[_ E]]; rewrite E; eexists; (split; [reflexivity|]);
    intros k c p Hk Hc; pose proof (coords_lt c p Hc) as Hc3;
    replace (6 * k + 3 + c) with (6 * k + (3 + c)) by lia.
  - destruct (block_position n (fixed_factors Gconst masses) (length ms)
                k c p Hk Hc) as [_ E2].
    rewrite blocks_lookup by lia. eexists. split; [exact E2|].
    intros env pars pow_fn. destruct Hs as (Hm & _ & Hms & Hml).
    assert (Hle : length ms <= n) by (subst masses; rewrite length_app in Hlen; lia).
    assert (Hzero : forall j, length ms <= j < n -> is_zero (masses !!! j) = true).
    { intros j Hj. subst masses. rewrite lookup_total_app_r by lia.
      apply (Forall_lookup_total_1 _ _ _ Hml).
      rewrite length_app in Hlen. lia. }
    assert (Hnz : forall j, j < length ms -> is_zero (masses !!! j) = false).
    { intros j Hj. subst masses. rewrite lookup_total_app_l by lia.
      now apply (Forall_lookup_total_1 _ _ _ Hms). }
    rewrite (ev_terms n _ (Q2Qc Gconst) (fun j => Q2Qc (masses !!! j)));
      [ | | | |exact Hle|exact Hk| ].
    + apply newton_acceleration_massless; [exact Hle|].
      intros j Hj. now apply is_zero_true_Qc, Hzero.
    + intros i j r Hij. apply ev_fixed_fac_j; [|apply Hnz; lia].
      apply (exact_constants_pair n); [exact Hex|lia].
    + intros i j Hij. apply ev_fixed_c_ij; [|apply Hnz; lia].
      apply (exact_constants_pair n); [exact Hex|lia].
    + intros i j r Hij Hj. apply ev_fixed_fac; [|apply Hzero; lia].
      apply (exact_constants_pair n); [exact Hex|lia].
    + intros j Hj. now apply is_zero_false_Qc, Hnz.
  - destruct (general_block_position n Gconst masses k c p Hk Hc) as [_ E2].
    rewrite general_blocks_lookup by lia. eexists. split; [exact E2|].
    intros env pars pow_fn. now apply ev_general_terms.
Qed.

(** The hypothesis on the constants cannot be dropped.  With [double]
    numbers the quotient [-1 / 3] is rounded, *)
Example binary64_minus_one_third :
  num_div (number_arith := binary64_arith) (-1) 3
  = (-6004799503160661 # 18014398509481984)%Q.
Proof. vm_compute. reflexivity. Qed.

(** so that for the masses [1, 3], with [x_1 = 1], every other variable
    zero and a power function that is constantly 1, the acceleration of
    body 1 along x evaluates to three times the rounded quotient, and not
    to the -1 of Newton's law. *)
Example rounded_ratio_is_not_newton :
  exists sys,
    make_nbody_sys_fixed_masses (arith := binary64_arith) 2 1 [1; 3]%Q
    = Return sys /\
    let env := fun s => if String.eqb s "x_1" then 1%Qc else 0%Qc in
    let pow_fn := fun _ _ : Qc => 1%Qc in
    eval env (fun _ => 0%Qc) pow_fn (sys !!! 9).2
    = Q2Qc (3 * (-6004799503160661 # 18014398509481984)) /\
    newton_acceleration (Q2Qc 1) (fun j => Q2Qc ([1; 3]%Q !!! j)) env pow_fn
                        2 "x_" 1
    = Q2Qc (-1).
Proof.
  eexists. split; [reflexivity|]. cbv zeta.
  split; apply Qc_is_canon; vm_compute; reflexivity.
Qed.

End FixedMassesFacts.

(* ===================================================================== *)
(** * Conservation laws *)
(* ===================================================================== *)

Module MomentumFacts.
Import Expr NBody NBodyTerms NBodyFacts NBodyParFacts NBodyGeneralTerms
  NBodyGeneralFacts Gravity GravityFacts NBodyShape FixedMassesFacts.
Local Open Scope Qc_scope.

Lemma sumQc_scale {A : Type} (c : Qc) (f : A -> Qc) (l : list A) :
  c * sumQc (map f l) = sumQc (map (fun x => c * f x) l).
Proof.
  induction l as [|x l IH]; cbn [map].
  - change (sumQc []) with 0. ring.
  - rewrite !sumQc_cons, <- IH. ring.
Qed.

Lemma sumQc_plus {A : Type} (f g : A -> Qc) (l : list A) :
  sumQc (map (fun x => f x + g x) l) = sumQc (map f l) + sumQc (map g l).
Proof.
  induction l as [|x l IH]; cbn [map].
  - change (sumQc []) with 0. ring.
  - rewrite !sumQc_cons, IH. ring.
Qed.

(** Actions and reactions cancel in the sum over all the pairs. *)
Lemma pair_sum_antisym (g : nat -> nat -> Qc) :
  (forall i k, g i k = - g k i) ->
  forall n,
    sumQc (map (fun k => sumQc (map (fun i => g i k) (others n k)))
               (seq 0 n)) = 0.
Proof.
  intros Hg. induction n as [|n IH]; [reflexivity|].
  rewrite seq_S, map_app, sumQc_app. cbn [map Nat.add].
  rewrite sumQc_cons. change (sumQc []) with 0.
  rewrite (others_below (S n) n) by lia.
  replace (S n - S n)%nat with 0%nat by lia. cbn [seq]. rewrite app_nil_r.
  rewrite (sumQc_ext _ (fun k => sumQc (map (fun i => g i k) (others n k))
                                 + g n k)).
  - rewrite sumQc_plus, IH.
    transitivity (sumQc (map (fun k => g n k + g k n) (seq 0 n)));
      [rewrite sumQc_plus; ring|].
    apply sumQc_zero. intros k _. rewrite (Hg n k). ring.
  - intros k Hk%in_seq. rewrite (others_split n (S n) k) by lia.
    replace (S n - n)%nat with 1%nat by lia. cbn [seq List.filter].
    destruct (Nat.eqb_spec n k); [lia|]. cbn [negb].
    rewrite map_app, sumQc_app. cbn [map]. rewrite sumQc_cons.
    change (sumQc []) with 0. ring.
Qed.

Lemma newton_momentum (G : Qc) (M : nat -> Qc) (env : string -> Qc)
    (pow_fn : Qc -> Qc -> Qc) (p : string) (n : nat) :
  sumQc (map (fun k => M k * newton_acceleration G M env pow_fn n p k)
             (seq 0 n)) = 0.
Proof.
  rewrite <- (pair_sum_antisym
                (fun i k => M k * attraction G M env pow_fn p i k)) with (n := n).
  - apply sumQc_ext. intros k _. unfold newton_acceleration.
    apply sumQc_scale.
  - intros i k. unfold attraction. rewrite (dist2_sym env i k). ring.
Qed.

Lemma fixed_masses_momentum_lemma {arith : number_arith} (n : nat)
    (Gconst : Q) (masses : list Q) :
  (N.of_nat n < 2 ^ 32)%N -> length masses = n ->
  exact_constants n Gconst masses = true ->
  exists sys,
    make_nbody_sys_fixed_masses n Gconst masses = Return sys /\
    forall env pars pow_fn c p, (c, p) ∈ coords ->
      sumQc (map (fun k => Q2Qc (masses !!! k)
                           * eval env pars pow_fn (sys !!! (6 * k + 3 + c)%nat).2)
                 (seq 0 n)) = 0.
Proof.
  intros Hn Hlen Hex.
  destruct (fixed_masses_newton_lemma n Gconst masses Hn Hlen Hex)
    as (sys & E & Hsys).
  exists sys. split; [exact E|]. intros env pars pow_fn c p Hc.
  rewrite <- (newton_momentum (Q2Qc Gconst) (fun j => Q2Qc (masses !!! j))
                env pow_fn p n).
  apply sumQc_ext. intros k Hk%in_seq.
  destruct (Hsys k c p ltac:(lia) Hc) as (rhs & Ek & Hev).
  rewrite (list_lookup_total_correct _ _ _ Ek). cbn [snd]. now rewrite Hev.
Qed.

End MomentumFacts.

(* ===================================================================== *)
(** * The variables of the systems *)
(* ===================================================================== *)

Module NBodyShapeFacts.
Import Expr NBody NBodyTerms NBodyFacts NBodyParFacts NBodyGeneralTerms
  NBodyGeneralFacts FixedMassesFacts NBodyShape.

(** The variables of an expression are positions of the first [n] bodies. *)
Local Abbreviation positions_only n e :=
  (forall s, s ∈ get_variables e -> exists i, i < n /\ s ∈ pos_vars i).

Lemma coords_pos_vars c p k : (c, p) ∈ coords -> p +:+ li_to_string k ∈ pos_vars k.
Proof.
  unfold coords, pos_vars. rewrite !elem_of_cons, elem_of_nil.
  intros [[= _ ->]|[[= _ ->]|[[= _ ->]|[]]]]; set_solver.
Qed.

Section Terms.
Variable n : nat.
Variable mf : mass_factors.
(** The factors that carry the masses bring no variable of their own. *)
Hypothesis mf_vars :
  (forall i j r, get_variables (fac_j_of mf i j r) ⊆ get_variables r) /\
  (forall i j, get_variables (c_ij_of mf i j) = ∅) /\
  (forall i j r, get_variables (fac_of mf i j r) ⊆ get_variables r).

Variables (c : nat) (p : string).
Hypothesis Hc : (c, p) ∈ coords.
Local Abbreviation vs := (make_vars p n).

Lemma diff_vars i j :
  i < n -> j < n -> get_variables (diff vs i j) ⊆ pos_vars i ∪ pos_vars j.
Proof.
  intros Hi Hj. clear mf_vars. intros s Hs.
  apply (get_variables_diff p n i j Hi Hj) in Hs.
  apply elem_of_union in Hs as [Hs|Hs]; apply elem_of_singleton in Hs;
    subst s; apply elem_of_union; [left|right];
    exact (coords_pos_vars c p _ Hc).
Qed.

Lemma by_term_vars i j :
  i < n -> j < n ->
  get_variables (by_term n mf vs i j) ⊆ pos_vars i ∪ pos_vars j.
Proof.
  intros Hi Hj. unfold by_term.
  destruct mf_vars as (fac_j_vars & _ & _).
  etrans; [apply get_variables_expr_mul|].
  apply union_least; [exact (diff_vars i j Hi Hj)|].
  etrans; [apply fac_j_vars|]. exact (get_variables_r_m3 n i j Hi Hj).
Qed.

Lemma on_term_vars i j :
  i < n -> j < n ->
  get_variables (on_term n mf vs i j) ⊆ pos_vars i ∪ pos_vars j.
Proof.
  intros Hi Hj. unfold on_term.
  pose proof (by_term_vars i j Hi Hj) as Hby.
  destruct mf_vars as (_ & c_ij_vars & _).
  etrans; [apply get_variables_expr_mul|].
  apply union_least; [exact Hby|].
  rewrite c_ij_vars. apply empty_subseteq.
Qed.

Lemma ow_term_vars i j :
  i < n -> j < n ->
  get_variables (ow_term n mf vs i j) ⊆ pos_vars i ∪ pos_vars j.
Proof.
  intros Hi Hj. unfold ow_term.
  destruct mf_vars as (_ & _ & fac_vars).
  etrans; [apply get_variables_expr_mul|].
  apply union_least; [exact (diff_vars i j Hi Hj)|].
  etrans; [apply fac_vars|]. exact (get_variables_r_m3 n i j Hi Hj).
Qed.

(** A sum of terms between bodies in [among] and [k]. *)
Lemma sum_expr_vars (among : nat -> Prop) (k : nat) (l : list expression) :
  Forall (fun t => exists i, among i /\
                     get_variables t ⊆ pos_vars i ∪ pos_vars k) l ->
  forall s, s ∈ get_variables (sum_expr l) ->
            s ∈ pos_vars k \/ exists i, among i /\ s ∈ pos_vars i.
Proof.
  intros Hl. clear mf_vars Hc.
  apply (sum_expr_closed
           (fun e => forall s, s ∈ get_variables e ->
              s ∈ pos_vars k \/ exists i, among i /\ s ∈ pos_vars i)).
  - cbn. set_solver.
  - intros a b Ha Hb s Hs.
    apply get_variables_expr_add, elem_of_union in Hs as [Hs|Hs]; auto.
  - eapply Forall_impl; [exact Hl|]. cbn. intros t (i & Hi & Ht) s Hs.
    apply Ht, elem_of_union in Hs as [Hs|Hs]; eauto.
Qed.

Lemma terms_vars (nm k : nat) :
  nm <= n -> k < n ->
  Forall (fun t => exists i, (i < nm /\ i <> k) /\
                     get_variables t ⊆ pos_vars i ∪ pos_vars k)
         (terms n mf nm vs k).
Proof.
  intros Hnm Hk. unfold terms, from_earlier, from_later.
  destruct (Nat.ltb_spec k nm) as [Hlt|Hge].
  - apply Forall_app. split; apply Forall_map, Forall_forall;
      intros i Hi%elem_of_seq; cbn; exists i; (split; [lia|]).
    + apply on_term_vars; lia.
    + etrans; [exact (by_term_vars k i ltac:(lia) ltac:(lia))|].
      apply union_least; [apply union_subseteq_r|apply union_subseteq_l].
  - apply Forall_map, Forall_forall.
    intros i Hi%elem_of_seq; cbn. exists i. split; [lia|].
    apply ow_term_vars; lia.
Qed.

End Terms.

Lemma fixed_factors_vars {arith : number_arith} Gconst masses :
  (forall i j r, get_variables (fac_j_of (fixed_factors Gconst masses) i j r)
                 ⊆ get_variables r) /\
  (forall i j, get_variables (c_ij_of (fixed_factors Gconst masses) i j) = ∅) /\
  (forall i j r, get_variables (fac_of (fixed_factors Gconst masses) i j r)
                 ⊆ get_variables r).
Proof.
  repeat split; intros; cbn [fac_j_of fac_of c_ij_of fixed_factors get_variables];
    try reflexivity;
    match goal with
    | |- get_variables (expr_mul ?a ?b) ⊆ _ =>
        pose proof (get_variables_expr_mul a b) as H; cbn [get_variables] in H
    end; set_solver.
Qed.

Lemma par_factors_vars Gconst :
  (forall i j r, get_variables (fac_j_of (par_factors Gconst) i j r)
                 ⊆ get_variables r) /\
  (forall i j, get_variables (c_ij_of (par_factors Gconst) i j) = ∅) /\
  (forall i j r, get_variables (fac_of (par_factors Gconst) i j r)
                 ⊆ get_variables r).
Proof.
  repeat split; intros; cbn [fac_j_of fac_of c_ij_of par_factors];
    try reflexivity;
    match goal with
    | |- get_variables (expr_mul ?a ?b) ⊆ _ =>
        pose proof (get_variables_expr_mul a b) as H; cbn [get_variables] in H
    end; set_solver.
Qed.

Lemma general_terms_vars {arith : number_arith} n Gconst masses c p k :
  (c, p) ∈ coords -> k < n ->
  Forall (fun t => exists i, (i < n /\ i <> k) /\
                     get_variables t ⊆ pos_vars i ∪ pos_vars k)
         (general_terms n Gconst masses (make_vars p n) k).
Proof.
  intros Hc Hk.
  pose proof (fixed_factors_vars Gconst masses) as Hff.
  unfold general_terms, general_from_earlier, general_from_later, later_massive.
  apply Forall_app. split; apply Forall_map, Forall_forall.
  - intros i Hi%elem_of_seq; cbn. exists i. split; [lia|].
    destruct (is_zero (masses !!! k)).
    + apply (ow_term_vars n _ Hff c p Hc); lia.
    + apply (on_term_vars n _ Hff c p Hc); lia.
  - intros j Hj. apply list_elem_of_In, List.filter_In in Hj as [Hj%in_seq _].
    cbn. exists j. split; [lia|].
    etrans; [exact (by_term_vars n _ Hff c p Hc k j ltac:(lia) ltac:(lia))|].
    apply union_least; [apply union_subseteq_r|apply union_subseteq_l].
Qed.

End NBodyShapeFacts.

Module WellPosedFacts.
Import Expr NBody NBodyTerms NBodyFacts NBodyParFacts NBodyGeneralTerms
  NBodyGeneralFacts FixedMassesFacts NBodyShape NBodyShapeFacts.

Lemma lhs_name_inj k r k' r' :
  r < 6 -> r' < 6 -> lhs_name k r = lhs_name k' r' -> k = k' /\ r = r'.
Proof.
  intros Hr Hr'. unfold lhs_name, li_to_string.
  destruct r as [|[|[|[|[|[|r]]]]]]; try lia;
    destruct r' as [|[|[|[|[|[|r']]]]]]; try lia; cbn;
    intros E; try discriminate E; injection E as E;
    (split; [exact (inj pretty _ _ E)|reflexivity]).
Qed.

Lemma laid_out_lhs n sys k r :
  laid_out n sys -> k < n -> r < 6 ->
  exists rhs, sys !! (6 * k + r) = Some (Var (lhs_name k r), rhs).
Proof.
  intros [_ H] Hk Hr.
  destruct (H k 0 "x_" Hk ltac:(unfold coords; set_solver)) as (X1 & ? & X2 & _).
  destruct (H k 1 "y_" Hk ltac:(unfold coords; set_solver)) as (Y1 & ? & Y2 & _).
  destruct (H k 2 "z_" Hk ltac:(unfold coords; set_solver)) as (Z1 & ? & Z2 & _).
  destruct r as [|[|[|[|[|[|r]]]]]]; try lia; unfold lhs_name; eexists.
  - exact X1.
  - exact Y1.
  - exact Z1.
  - replace (6 * k + 3) with (6 * k + 3 + 0) by lia. exact X2.
  - replace (6 * k + 4) with (6 * k + 3 + 1) by lia. exact Y2.
  - replace (6 * k + 5) with (6 * k + 3 + 2) by lia. exact Z2.
Qed.

Lemma index_split n i : i < 6 * n -> exists k r, k < n /\ r < 6 /\ i = 6 * k + r.
Proof.
  intros Hi. exists (i / 6), (i mod 6).
  pose proof (Nat.div_mod_eq i 6). pose proof (Nat.mod_upper_bound i 6).
  repeat split; lia.
Qed.

Lemma laid_out_well_posed n sys : laid_out n sys -> well_posed sys.
Proof.
  intros Hl. pose proof Hl as [Hlen H]. split.
  - apply NoDup_alt. intros i j x Hi Hj.
    rewrite list_lookup_fmap in Hi, Hj.
    destruct (sys !! i) as [[l1 r1]|] eqn:Ei; [|discriminate].
    destruct (sys !! j) as [[l2 r2]|] eqn:Ej; [|discriminate].
    cbn in Hi, Hj. injection Hi as <-. injection Hj as ->.
    destruct (index_split n i) as (k & r & Hk & Hr & ->);
      [rewrite <- Hlen; eapply lookup_lt_Some, Ei|].
    destruct (index_split n j) as (k' & r' & Hk' & Hr' & ->);
      [rewrite <- Hlen; eapply lookup_lt_Some, Ej|].
    destruct (laid_out_lhs n sys k r Hl Hk Hr) as (? & E1).
    destruct (laid_out_lhs n sys k' r' Hl Hk' Hr') as (? & E2).
    rewrite E1 in Ei. rewrite E2 in Ej.
    injection Ei as <- _. injection Ej as E _.
    destruct (lhs_name_inj _ _ _ _ Hr' Hr E) as [-> ->]. reflexivity.
  - intros lhs rhs s Hin Hs.
    apply list_elem_of_lookup in Hin as [i Ei].
    destruct (index_split n i) as (k & r & Hk & Hr & ->);
      [rewrite <- Hlen; eapply lookup_lt_Some, Ei|].
    assert (Hpos : forall i', i' < n -> s ∈ pos_vars i' ->
                     exists rhs', (Var s, rhs') ∈ sys).
    { intros i' Hi' Hs'. unfold pos_vars in Hs'.
      rewrite !elem_of_union, !elem_of_singleton in Hs'.
      destruct Hs' as [[->| ->]| ->].
      - destruct (laid_out_lhs n sys i' 0 Hl Hi' ltac:(lia)) as (rhs' & E).
        exists rhs'. eapply list_elem_of_lookup_2, E.
      - destruct (laid_out_lhs n sys i' 1 Hl Hi' ltac:(lia)) as (rhs' & E).
        exists rhs'. eapply list_elem_of_lookup_2, E.
      - destruct (laid_out_lhs n sys i' 2 Hl Hi' ltac:(lia)) as (rhs' & E).
        exists rhs'. eapply list_elem_of_lookup_2, E. }
    assert (Hvel : forall r', 3 <= r' < 6 -> s = lhs_name k r' ->
                     exists rhs', (Var s, rhs') ∈ sys).
    { intros r' Hr' ->.
      destruct (laid_out_lhs n sys k r' Hl Hk ltac:(lia)) as (rhs' & E).
      exists rhs'. eapply list_elem_of_lookup_2, E. }
    destruct (H k 0 "x_" Hk ltac:(unfold coords; set_solver))
      as (X1 & ? & X2 & X3).
    destruct (H k 1 "y_" Hk ltac:(unfold coords; set_solver))
      as (Y1 & ? & Y2 & Y3).
    destruct (H k 2 "z_" Hk ltac:(unfold coords; set_solver))
      as (Z1 & ? & Z2 & Z3).
    replace (6 * k + 3 + 0) with (6 * k + 3) in X2 by lia.
    replace (6 * k + 3 + 1) with (6 * k + 4) in Y2 by lia.
    replace (6 * k + 3 + 2) with (6 * k + 5) in Z2 by lia.
    destruct r as [|[|[|[|[|[|r]]]]]]; try lia.
    + rewrite X1 in Ei. injection Ei as <- <-. cbn in Hs.
      apply elem_of_singleton in Hs. apply (Hvel 3); [lia|exact Hs].
    + rewrite Y1 in Ei. injection Ei as <- <-. cbn in Hs.
      apply elem_of_singleton in Hs. apply (Hvel 4); [lia|exact Hs].
    + rewrite Z1 in Ei. injection Ei as <- <-. cbn in Hs.
      apply elem_of_singleton in Hs. apply (Hvel 5); [lia|exact Hs].
    + rewrite X2 in Ei. injection Ei as <- <-.
      destruct (X3 s Hs) as (i' & Hi' & Hs'). eauto.
    + rewrite Y2 in Ei. injection Ei as <- <-.
      destruct (Y3 s Hs) as (i' & Hi' & Hs'). eauto.
    + rewrite Z2 in Ei. injection Ei as <- <-.
      destruct (Z3 s Hs) as (i' & Hi' & Hs'). eauto.
Qed.

Lemma blocks_laid_out n mf nm :
  nm <= n ->
  (forall i j r, get_variables (fac_j_of mf i j r) ⊆ get_variables r) /\
  (forall i j, get_variables (c_ij_of mf i j) = ∅) /\
  (forall i j r, get_variables (fac_of mf i j r) ⊆ get_variables r) ->
  laid_out n (blocks n mf nm n).
Proof.
  intros Hnm Hmf. split; [apply blocks_length|]. intros k c p Hk Hc.
  pose proof (coords_lt c p Hc) as Hc3.
  destruct (block_position n mf nm k c p Hk Hc) as [E1 E2].
  rewrite blocks_lookup by lia. split; [exact E1|].
  replace (6 * k + 3 + c) with (6 * k + (3 + c)) by lia.
  rewrite blocks_lookup by lia. eexists. split; [exact E2|].
  intros s Hs.
  destruct (sum_expr_vars (fun i => i < nm /\ i <> k) k _
              (terms_vars n mf Hmf c p Hc nm k Hnm Hk) s Hs)
    as [Hs'|(i & [Hi _] & Hs')]; [eauto|].
  exists i. split; [lia|exact Hs'].
Qed.

Lemma general_blocks_laid_out {arith : number_arith} n Gconst masses :
  laid_out n (general_blocks n Gconst masses n).
Proof.
  split; [apply general_blocks_length|]. intros k c p Hk Hc.
  pose proof (coords_lt c p Hc) as Hc3.
  destruct (general_block_position n Gconst masses k c p Hk Hc) as [E1 E2].
  rewrite general_blocks_lookup by lia. split; [exact E1|].
  replace (6 * k + 3 + c) with (6 * k + (3 + c)) by lia.
  rewrite general_blocks_lookup by lia. eexists. split; [exact E2|].
  intros s Hs.
  destruct (sum_expr_vars (fun i => i < n /\ i <> k) k _
              (general_terms_vars n Gconst masses c p k Hc Hk) s Hs)
    as [Hs'|(i & [Hi _] & Hs')]; eauto.
Qed.

Lemma fixed_masses_laid_out {arith : number_arith} (n : nat)
    (Gconst : Q) (masses : list Q) :
  (N.of_nat n < 2 ^ 32)%N -> length masses = n ->
  exists sys,
    make_nbody_sys_fixed_masses n Gconst masses = Return sys /\ laid_out n sys.
Proof.
  intros Hn Hlen.
  destruct (fixed_masses_cases n Gconst masses (u32_small n Hn) Hlen)
    as [(ms & ml & Hs & E)|[_ E]]; rewrite E; eexists; (split; [reflexivity|]).
  - apply blocks_laid_out; [|apply fixed_factors_vars].
    destruct Hs as (-> & _). rewrite length_app in Hlen. lia.
  - apply general_blocks_laid_out.
Qed.

Lemma par_masses_blocks (n : nat) (Gconst : Q) (n_massive : nat) :
  (N.of_nat n < 2 ^ 32)%N -> n_massive <= n ->
  make_nbody_sys_par_masses n Gconst n_massive
  = Return (blocks n (par_factors Gconst) n_massive n).
Proof.
  intros Hn Hle. unfold make_nbody_sys_par_masses.
  destruct (Nat.ltb_spec n n_massive); [lia|].
  apply restricted_system_blocks; [exact Hle|now apply u32_small].
Qed.

Lemma par_masses_laid_out (n : nat) (Gconst : Q) (n_massive : nat) :
  (N.of_nat n < 2 ^ 32)%N -> n_massive <= n ->
  exists sys,
    make_nbody_sys_par_masses n Gconst n_massive = Return sys /\ laid_out n sys.
Proof.
  intros Hn Hle. rewrite par_masses_blocks by assumption.
  eexists. split; [reflexivity|].
  apply blocks_laid_out; [exact Hle|apply par_factors_vars].
Qed.

End WellPosedFacts.

Module NBodyMoreFacts.
Import Expr NBody NBodyTerms NBodyFacts NBodyParFacts NBodyGeneralTerms
  NBodyGeneralFacts Gravity GravityFacts FixedMassesFacts MomentumFacts
  NBodyShape NBodyShapeFacts WellPosedFacts.

Lemma fixed_masses_restricted_blocks {arith : number_arith} (n : nat)
    (Gconst : Q)
    (massive massless : list Q) :
  (N.of_nat n < 2 ^ 32)%N -> massless <> [] ->
  Forall (fun m => is_zero m = false) massive ->
  Forall (fun m => is_zero m = true) massless ->
  length (massive ++ massless) = n ->
  make_nbody_sys_fixed_masses n Gconst (massive ++ massless)
  = Return (blocks n (fixed_factors Gconst (massive ++ massless))
                   (length massive) n).
Proof.
  intros Hn Hne Hnz Hz Hlen.
  destruct (n_fc_split massive massless Hnz Hz) as [Em El].
  unfold make_nbody_sys_fixed_masses. rewrite Hlen, Nat.eqb_refl, Em, El.
  rewrite length_app in Hlen. rewrite Hlen, Nat.eqb_refl.
  destruct (Nat.eqb_spec (length massless) 0) as [E|E];
    [destruct massless; [congruence|discriminate E]|].
  cbn [negb andb]. apply restricted_system_blocks; auto using u32_small.
  lia.
Qed.

Lemma terms_no_massive n mf vs k : terms n mf 0 vs k = [].
Proof. reflexivity. Qed.

Lemma sum_expr_nil : sum_expr [] = Num 0.
Proof. unfold sum_expr. now rewrite Pairwise.pairwise_loop_equation_1. Qed.

Lemma blocks_no_massive n mf k c p :
  k < n -> (c, p) ∈ coords ->
  blocks n mf 0 n !! (6 * k + 3 + c)
  = Some (Var ("v" +:+ p +:+ li_to_string k), Num 0).
Proof.
  intros Hk Hc. pose proof (coords_lt c p Hc).
  replace (6 * k + 3 + c) with (6 * k + (3 + c)) by lia.
  rewrite blocks_lookup by lia.
  destruct (block_position n mf 0 k c p Hk Hc) as [_ ->].
  now rewrite terms_no_massive, sum_expr_nil.
Qed.

(** The terms of a massive body in the restricted case. *)
Lemma terms_massive n mf nm vs k :
  k < nm ->
  terms n mf nm vs k
  = map (fun i => on_term n mf vs i k) (seq 0 k)
    ++ map (fun j => by_term n mf vs k j) (seq (S k) (nm - S k)).
Proof.
  intros Hk. unfold terms, from_earlier, from_later.
  destruct (Nat.ltb_spec k nm); [reflexivity|lia].
Qed.

Section Par.
Variable Gconst : Q.
Variable env : string -> Qc.
Variable pars : nat -> Qc.
Variable pow_fn : Qc -> Qc -> Qc.
Local Abbreviation ev := (eval env pars pow_fn).
Local Abbreviation pf := (par_factors Gconst).
Local Open Scope Qc_scope.

Lemma ev_par_fac_j i j r : ev (fac_j_of pf i j r) = Q2Qc Gconst * pars j * ev r.
Proof. cbn [fac_j_of par_factors]. now rewrite !eval_expr_mul. Qed.

Lemma ev_par_c_ij i j : ev (c_ij_of pf i j) = - pars i / pars j.
Proof.
  cbn [c_ij_of par_factors]. now rewrite eval_expr_div, eval_expr_neg.
Qed.

Lemma ev_par_fac i j r : ev (fac_of pf i j r) = - Q2Qc Gconst * pars i * ev r.
Proof.
  cbn [fac_of par_factors]. rewrite !eval_expr_mul. cbn [eval par].
  now rewrite Q2Qc_opp.
Qed.

End Par.

Lemma par_masses_newton_lemma (n : nat) (Gconst : Q) (n_massive : nat) :
  (N.of_nat n < 2 ^ 32)%N -> n_massive <= n ->
  exists sys,
    make_nbody_sys_par_masses n Gconst n_massive = Return sys /\
    forall k c p, k < n -> (c, p) ∈ coords ->
      exists rhs,
        sys !! (6 * k + 3 + c)
        = Some (Var ("v" +:+ p +:+ li_to_string k), rhs) /\
        forall env pars pow_fn,
          (forall j, j < n_massive -> pars j <> 0%Qc) ->
          eval env pars pow_fn rhs
          = newton_acceleration (Q2Qc Gconst) pars env pow_fn n_massive p k.
Proof.
  intros Hn Hle. rewrite par_masses_blocks by assumption.
  eexists. split; [reflexivity|]. intros k c p Hk Hc.
  pose proof (coords_lt c p Hc).
  replace (6 * k + 3 + c) with (6 * k + (3 + c)) by lia.
  rewrite blocks_lookup by lia.
  destruct (block_position n (par_factors Gconst) n_massive k c p Hk Hc)
    as [_ E2].
  eexists. split; [exact E2|]. intros env pars pow_fn Hp.
  apply (ev_terms n _ (Q2Qc Gconst) pars);
    [intros; apply ev_par_fac_j|intros; apply ev_par_c_ij
    |intros; apply ev_par_fac| | |]; assumption.
Qed.

End NBodyMoreFacts.

Module NBodyParClaims.
Import Expr NBody NBodyTerms NBodyFacts NBodyParFacts Gravity GravityFacts
  NBodyShape NBodyMoreFacts.


(** C8, as stated, fails: two bodies declared massive and a buffer that
    gives the second one the mass zero.  With [x_1 = 1], every other
    variable zero and a power function that is constantly 1, Newton's law
    for the masses [1, 0] gives body 1 the acceleration -1 along x, and the
    parametric system, whose term carries the ratio [par[0] / par[1]],
    evaluates to 0. *)
Lemma evaluates_correctly_fails :
  ~ evaluates_correctly 2 1 2 [1; 0]%Q.
Proof.
  intros H.
  destruct (make_nbody_sys_par_masses 2 1 2) as [sys|] eqn:E1;
    [|discriminate E1].
  unfold evaluates_correctly in H.
  specialize (H eq_refl sys E1 1 0 "x_").
  vm_compute in E1. injection E1 as <-.
  specialize (H _ _ ltac:(lia) ltac:(apply list_elem_of_In; now left) eq_refl
                (fun s => if String.eqb s "x_1" then 1%Qc else 0%Qc)
                (fun i => Q2Qc ([1; 0]%Q !!! i))
                (fun _ _ => 1%Qc) (fun i _ => eq_refl)).
  apply (f_equal this) in H. vm_compute in H. discriminate H.
Qed.

Example par_masses_two_massive_of_three :
  exists sys,
    make_nbody_sys_par_masses 3 1 2 = Return sys /\
    sys !! 15 =
      Some (Var "vx_2",
            Bin op_add
              (Bin op_mul (Bin op_sub (Var "x_2") (Var "x_0"))
                 (Bin op_mul (Bin op_mul (Num (- (1))) (Par 0)) (r_m3 3 0 2)))
              (Bin op_mul (Bin op_sub (Var "x_2") (Var "x_1"))
                 (Bin op_mul (Bin op_mul (Num (- (1))) (Par 1)) (r_m3 3 1 2)))).
Proof. eexists. split; reflexivity. Qed.

(** C8, amended.  The system of [make_nbody_sys_par_masses] is returned
    for [n_massive <= n]; in it the acceleration of every body and
    coordinate is the pairwise sum of terms in which a mass occurs as
    [par[j]] in the factor [G * par[j]], as [par[i]] in [-G * par[i]], or in
    the ratio [(-1 * par[i]) / par[j]], with [i] and [j] below [n_massive];
    no right-hand side contains another parameter, nor a number other than
    [G], [-G], the exponent [-3/2], the [-1] of the unary minus and the [0]
    of an empty sum; and against every buffer that supplies non-zero masses
    for the [n_massive] massive bodies the system evaluates correctly: in
    exact arithmetic every acceleration has the value of Newton's law for
    the masses of the buffer,
    [Σ_(i <> k, i < n_massive) G par[i] (p_i - p_k) pow(|r_i - r_k|^2, -3/2)]. *)
Theorem par_masses_enter_as_parameters (n : nat) (Gconst : Q)
    (n_massive : nat) (buffer : list Q) :
  2 <= n -> (N.of_nat n < 2 ^ 32)%N -> n_massive <= n ->
  exists sys,
    make_nbody_sys_par_masses n Gconst n_massive = Return sys /\
    (forall k c p,
        k < n -> (c, p) ∈ [(0, "x_"); (1, "y_"); (2, "z_")] ->
        exists ts,
          sys !! (6 * k + 3 + c)
          = Some (Var ("v" +:+ p +:+ li_to_string k), sum_expr ts) /\
          Forall (mass_term n Gconst n_massive p) ts) /\
    (forall lhs rhs,
        In (lhs, rhs) sys ->
        (forall i, i ∈ get_params rhs -> i < n_massive) /\
        (forall q, In q (get_numbers rhs) ->
                   In q [Gconst; - Gconst; -3 # 2; -1; 0]%Q)) /\
    (Forall (fun m => is_zero m = false) buffer ->
     evaluates_correctly n Gconst n_massive buffer).
Proof.
  intros _ Hn Hle.
  exists (blocks n (par_factors Gconst) n_massive n).
  split; [|split; [|split]].
  - unfold make_nbody_sys_par_masses.
    destruct (Nat.ltb_spec n n_massive); [lia|].
    apply restricted_system_blocks; [exact Hle|].
    now apply u32_small.
  - intros k c p Hk Hc.
    exists (terms n (par_factors Gconst) n_massive (make_vars p n) k).
    split; [|now apply terms_mass_terms].
    rewrite <- Nat.add_assoc.
    apply list_elem_of_In in Hc. cbn in Hc.
    destruct Hc as [[= <- <-]|[[= <- <-]|[[= <- <-]|[]]]];
      rewrite blocks_lookup by lia;
      cbn [block lookup list_lookup Nat.add]; unfold prime_eq;
      unfold vx_vars, vy_vars, vz_vars, x_vars, y_vars, z_vars;
      rewrite make_vars_lookup by lia; reflexivity.
  - intros lhs rhs Hin. now apply (blocks_par_shaped n Gconst n_massive lhs).
  - intros Hnz Hlen sys E k c p lhs rhs Hk Hc Hl env pars pow_fn Hp.
    destruct (par_masses_newton_lemma n Gconst n_massive Hn Hle)
      as (sys0 & E0 & H0).
    rewrite E in E0. injection E0 as <-.
    destruct (H0 k c p Hk Hc) as (rhs0 & Hl0 & Hv).
    rewrite Hl in Hl0. injection Hl0 as _ <-.
    apply Hv. intros j Hj. rewrite (Hp j Hj).
    apply is_zero_false_Qc.
    apply (Forall_lookup_total_1 _ _ _ Hnz). lia.
Qed.

Lemma par_masses_enter_as_parameters_witness :
  exists sys,
    make_nbody_sys_par_masses 3 1 2 = Return sys /\
    (forall k c p,
        k < 3 -> (c, p) ∈ [(0, "x_"); (1, "y_"); (2, "z_")] ->
        exists ts,
          sys !! (6 * k + 3 + c)
          = Some (Var ("v" +:+ p +:+ li_to_string k), sum_expr ts) /\
          Forall (mass_term 3 1 2 p) ts) /\
    (forall lhs rhs,
        In (lhs, rhs) sys ->
        (forall i, i ∈ get_params rhs -> i < 2) /\
        (forall q, In q (get_numbers rhs) ->
                   In q [1; - (1); -3 # 2; -1; 0]%Q)) /\
    (Forall (fun m => is_zero m = false) [1; 2]%Q ->
     evaluates_correctly 3 1 2 [1; 2]%Q).
Proof.
  apply (par_masses_enter_as_parameters 3 1 2 [1; 2]%Q).
  - lia.
  - vm_compute. reflexivity.
  - lia.
Defined.

End NBodyParClaims.

Module AngularFacts.
Import Expr NBody NBodyTerms NBodyFacts NBodyParFacts NBodyGeneralTerms
  NBodyGeneralFacts Gravity GravityFacts NBodyShape FixedMassesFacts
  MomentumFacts.
Local Open Scope Qc_scope.

Lemma sumQc_lin {A : Type} (a b : Qc) (f h : A -> Qc) (l : list A) :
  a * sumQc (map f l) - b * sumQc (map h l)
  = sumQc (map (fun x => a * f x - b * h x) l).
Proof.
  induction l as [|x l IH]; cbn [map].
  - change (sumQc []) with 0. ring.
  - rewrite !sumQc_cons, <- IH. ring.
Qed.

(** The attractions are central: their moments cancel in pairs. *)
Lemma newton_angular_momentum (G : Qc) (M : nat -> Qc) (env : string -> Qc)
    (pow_fn : Qc -> Qc -> Qc) (p1 p2 : string) (n : nat) :
  sumQc (map (fun k =>
                M k * (coord env p1 k * newton_acceleration G M env pow_fn n p2 k
                       - coord env p2 k
                         * newton_acceleration G M env pow_fn n p1 k))
             (seq 0 n)) = 0.
Proof.
  rewrite <- (pair_sum_antisym
                (fun i k => M k * (coord env p1 k * attraction G M env pow_fn p2 i k
                                   - coord env p2 k
                                     * attraction G M env pow_fn p1 i k)))
    with (n := n).
  - apply sumQc_ext. intros k _. unfold newton_acceleration.
    rewrite sumQc_lin, sumQc_scale. reflexivity.
  - intros i k. unfold attraction. rewrite (dist2_sym env i k). ring.
Qed.

Lemma fixed_masses_angular_momentum_lemma {arith : number_arith} (n : nat)
    (Gconst : Q) (masses : list Q) :
  (N.of_nat n < 2 ^ 32)%N -> length masses = n ->
  exact_constants n Gconst masses = true ->
  exists sys,
    make_nbody_sys_fixed_masses n Gconst masses = Return sys /\
    forall env pars pow_fn c1 p1 c2 p2,
      (c1, p1) ∈ coords -> (c2, p2) ∈ coords ->
      sumQc (map (fun k =>
                    Q2Qc (masses !!! k)
                    * (coord env p1 k
                       * eval env pars pow_fn (sys !!! (6 * k + 3 + c2)%nat).2
                       - coord env p2 k
                         * eval env pars pow_fn (sys !!! (6 * k + 3 + c1)%nat).2))
                 (seq 0 n)) = 0.
Proof.
  intros Hn Hlen Hex.
  destruct (fixed_masses_newton_lemma n Gconst masses Hn Hlen Hex)
    as (sys & E & Hsys).
  exists sys. split; [exact E|]. intros env pars pow_fn c1 p1 c2 p2 H1 H2.
  rewrite <- (newton_angular_momentum (Q2Qc Gconst)
                (fun j => Q2Qc (masses !!! j)) env pow_fn p1 p2 n).
  apply sumQc_ext. intros k Hk%in_seq.
  destruct (Hsys k c1 p1 ltac:(lia) H1) as (rhs1 & Ek1 & Hev1).
  destruct (Hsys k c2 p2 ltac:(lia) H2) as (rhs2 & Ek2 & Hev2).
  rewrite (list_lookup_total_correct _ _ _ Ek1).
  rewrite (list_lookup_total_correct _ _ _ Ek2). cbn [snd].
  now rewrite Hev1, Hev2.
Qed.

End AngularFacts.

(* ===================================================================== *)
(** * Facts about the mascon system *)
(* ===================================================================== *)

Module MasconSystemFacts.
Import Expr NBodyTerms NBodyFacts NBodyParFacts Gravity GravityFacts
  NBodyShape MasconSystem.
Local Open Scope Qc_scope.

Section Eval.
Variables (pts : list (list Q)) (ms : list Q) (pd qd rd : Q) (G_kw : option Q).
Variable env : string -> Qc.
Variable pars : nat -> Qc.
Variable pow_fn : Qc -> Qc -> Qc.
Local Abbreviation ev := (eval env pars pow_fn).
Local Abbreviation pos := (env "x", env "y", env "z").
Local Abbreviation vel := (env "vx", env "vy", env "vz").
Local Abbreviation omega := (Q2Qc pd, Q2Qc qd, Q2Qc rd).
Local Abbreviation Gq := (Q2Qc (match G_kw with Some g => g | None => 1%Q end)).

Lemma ev_r2 i :
  ev (r2 pts i)
  = (env "x" - Q2Qc (point pts i 0)) * (env "x" - Q2Qc (point pts i 0))
    + (env "y" - Q2Qc (point pts i 1)) * (env "y" - Q2Qc (point pts i 1))
    + (env "z" - Q2Qc (point pts i 2)) * (env "z" - Q2Qc (point pts i 2)).
Proof.
  unfold r2. rewrite !eval_expr_add, !eval_expr_mul, !eval_expr_sub.
  reflexivity.
Qed.

Lemma ev_acc_term i c (cm cv : expression) :
  ev cm = Q2Qc (point pts i c) -> ev cv = comp c pos ->
  ev (acc_term pts ms G_kw i cm cv)
  = Gq * Q2Qc (mass ms i) * (Q2Qc (point pts i c) - comp c pos)
    * pow_fn ((comp 0 pos - Q2Qc (point pts i 0)) * (comp 0 pos - Q2Qc (point pts i 0))
              + (comp 1 pos - Q2Qc (point pts i 1)) * (comp 1 pos - Q2Qc (point pts i 1))
              + (comp 2 pos - Q2Qc (point pts i 2)) * (comp 2 pos - Q2Qc (point pts i 2)))
             (Q2Qc (-3 # 2)).
Proof.
  intros Hm Hv. unfold acc_term.
  rewrite !eval_expr_mul, eval_expr_sub, Hm, Hv.
  unfold pow. cbn [eval eval_func String.eqb Ascii.eqb Bool.eqb].
  rewrite ev_r2. reflexivity.
Qed.

Lemma ev_x_acc :
  ev (sum_expr (x_acc pts ms G_kw)) = mascon_gravity Gq pts ms pow_fn pos 0.
Proof.
  rewrite ev_sum_expr. unfold x_acc, mascon_gravity. rewrite map_map.
  apply sumQc_ext. intros i _. now apply ev_acc_term.
Qed.

Lemma ev_y_acc :
  ev (sum_expr (y_acc pts ms G_kw)) = mascon_gravity Gq pts ms pow_fn pos 1.
Proof.
  rewrite ev_sum_expr. unfold y_acc, mascon_gravity. rewrite map_map.
  apply sumQc_ext. intros i _. now apply ev_acc_term.
Qed.

Lemma ev_z_acc :
  ev (sum_expr (z_acc pts ms G_kw)) = mascon_gravity Gq pts ms pow_fn pos 2.
Proof.
  rewrite ev_sum_expr. unfold z_acc, mascon_gravity. rewrite map_map.
  apply sumQc_ext. intros i _. now apply ev_acc_term.
Qed.

Lemma ev_centripetal c e :
  (c, e) ∈ [(0%nat, centripetal_x pd qd rd); (1%nat, centripetal_y pd qd rd);
            (2%nat, centripetal_z pd qd rd)] ->
  ev e = comp c (cross3 omega (cross3 omega pos)).
Proof.
  rewrite !elem_of_cons, elem_of_nil.
  intros [[= -> ->]|[[= -> ->]|[[= -> ->]|[]]]];
    unfold centripetal_x, centripetal_y, centripetal_z, p, q, r, x, y, z,
      variable;
    rewrite !eval_expr_add, !eval_expr_sub, !eval_expr_mul, !eval_expr_neg;
    cbn [eval cross3 comp]; ring.
Qed.

Lemma ev_coriolis c e :
  (c, e) ∈ [(0%nat, coriolis_x qd rd); (1%nat, coriolis_y pd rd);
            (2%nat, coriolis_z pd qd)] ->
  ev e = Q2Qc 2 * comp c (cross3 omega vel).
Proof.
  rewrite !elem_of_cons, elem_of_nil.
  intros [[= -> ->]|[[= -> ->]|[[= -> ->]|[]]]];
    unfold coriolis_x, coriolis_y, coriolis_z, p, q, r, vx, vy, vz, variable;
    rewrite !eval_expr_mul, !eval_expr_sub, !eval_expr_mul;
    cbn [eval cross3 comp]; ring.
Qed.

End Eval.

Lemma make_mascon_system_returns pts ms pd qd rd G_kw :
  N.of_nat (length ms) <> Pairwise.size_max ->
  make_mascon_system pts ms pd qd rd G_kw
  = Return [prime_eq x vx; prime_eq y vy; prime_eq z vz;
            prime_eq vx (expr_sub (expr_sub (sum_expr (x_acc pts ms G_kw))
                                            (centripetal_x pd qd rd))
                                  (coriolis_x qd rd));
            prime_eq vy (expr_sub (expr_sub (sum_expr (y_acc pts ms G_kw))
                                            (centripetal_y pd qd rd))
                                  (coriolis_y pd rd));
            prime_eq vz (expr_sub (expr_sub (sum_expr (z_acc pts ms G_kw))
                                            (centripetal_z pd qd rd))
                                  (coriolis_z pd qd))].
Proof.
  intros H. unfold make_mascon_system.
  rewrite !pairwise_sum_sum_expr
    by (unfold x_acc, y_acc, z_acc; now rewrite length_map, length_seq).
  reflexivity.
Qed.

End MasconSystemFacts.

(* ===================================================================== *)
(** * Facts about doubles *)
(* ===================================================================== *)

Module FloatFacts.
Local Open Scope float_scope.

(** A NaN is the one double that is not equal to itself. *)
Lemma is_nan_Prim2SF (x : float) :
  PrimFloat.is_nan x = true <-> Prim2SF x = S754_nan.
Proof.
  unfold PrimFloat.is_nan. rewrite FloatAxioms.eqb_spec. unfold SFeqb.
  destruct (Prim2SF x) as [s|s| |s m e]; cbn.
  - split; discriminate.
  - destruct s; cbn; split; discriminate.
  - split; reflexivity.
  - rewrite Z.compare_refl, Pos.compare_cont_refl.
    destruct s; cbn; split; discriminate.
Qed.

(** The sum of two doubles one of which is a NaN is a NaN. *)
Lemma add_nan (x y : float) :
  PrimFloat.is_nan x = true \/ PrimFloat.is_nan y = true ->
  PrimFloat.is_nan (x + y) = true.
Proof.
  rewrite !is_nan_Prim2SF, FloatAxioms.add_spec. unfold SF64add, SFadd.
  intros [->| ->]; [reflexivity|].
  destruct (Prim2SF x) as [s|s| |s m e]; reflexivity.
Qed.

End FloatFacts.

Module FloatZeroFacts.
Import FloatFacts.
Local Open Scope float_scope.

(** The doubles that compare equal to zero are the two zeros. *)
Lemma eqb_zero_Prim2SF (z : float) :
  (z =? 0) = true <-> exists s, Prim2SF z = S754_zero s.
Proof.
  rewrite FloatAxioms.eqb_spec. change (Prim2SF 0) with (S754_zero false).
  unfold SFeqb.
  destruct (Prim2SF z) as [s|s| |s m e]; cbn.
  - split; eauto.
  - destruct s; split; try discriminate; intros [? [=]].
  - split; try discriminate; intros [? [=]].
  - destruct s; split; try discriminate; intros [? [=]].
Qed.

(** A finite double is a zero or a number with a mantissa. *)
Lemma is_finite_Prim2SF (x : float) :
  PrimFloat.is_finite x = true ->
  (exists s, Prim2SF x = S754_zero s)
  \/ (exists s m e, Prim2SF x = S754_finite s m e).
Proof.
  unfold PrimFloat.is_finite, PrimFloat.is_nan, PrimFloat.is_infinity.
  rewrite !FloatAxioms.eqb_spec, FloatAxioms.abs_spec.
  change (Prim2SF infinity) with (S754_infinity false). unfold SFeqb.
  destruct (Prim2SF x) as [s|s| |s m e]; cbn; intros H.
  - left; eauto.
  - destruct s; discriminate H.
  - discriminate H.
  - right; eauto.
Qed.

Lemma zero_is_finite (z : float) :
  (z =? 0) = true -> PrimFloat.is_finite z = true.
Proof.
  intros [s Hz]%eqb_zero_Prim2SF.
  unfold PrimFloat.is_finite, PrimFloat.is_nan, PrimFloat.is_infinity.
  rewrite !FloatAxioms.eqb_spec, FloatAxioms.abs_spec, Hz. reflexivity.
Qed.

(** The product of a finite double and a zero is a zero. *)
Lemma mul_zero_r (x z : float) :
  PrimFloat.is_finite x = true -> (z =? 0) = true -> (x * z =? 0) = true.
Proof.
  intros Hx [s Hz]%eqb_zero_Prim2SF. apply eqb_zero_Prim2SF.
  rewrite FloatAxioms.mul_spec, Hz.
  destruct (is_finite_Prim2SF x Hx) as [[sx ->]|(sx & m & e & ->)];
    cbn; eauto.
Qed.

Lemma mul_zero_l (z x : float) :
  (z =? 0) = true -> PrimFloat.is_finite x = true -> (z * x =? 0) = true.
Proof.
  intros [s Hz]%eqb_zero_Prim2SF Hx. apply eqb_zero_Prim2SF.
  rewrite FloatAxioms.mul_spec, Hz.
  destruct (is_finite_Prim2SF x Hx) as [[sx ->]|(sx & m & e & ->)];
    cbn; eauto.
Qed.

(** The difference of two zeros, and the opposite of a zero, are zeros. *)
Lemma sub_zero (a b : float) :
  (a =? 0) = true -> (b =? 0) = true -> (a - b =? 0) = true.
Proof.
  intros [sa Ha]%eqb_zero_Prim2SF [sb Hb]%eqb_zero_Prim2SF.
  apply eqb_zero_Prim2SF. rewrite FloatAxioms.sub_spec, Ha, Hb.
  destruct sa, sb; cbn; eauto.
Qed.

Lemma opp_zero (a : float) : (a =? 0) = true -> (- a =? 0) = true.
Proof.
  intros [sa Ha]%eqb_zero_Prim2SF. apply eqb_zero_Prim2SF.
  rewrite FloatAxioms.opp_spec, Ha. cbn. eauto.
Qed.

(** The square of a zero is [+0], a zero divided by [+0] is a NaN, and a
    zero is not below zero. *)
Lemma sq_zero (a : float) : (a =? 0) = true -> a * a = 0.
Proof.
  intros [sa Ha]%eqb_zero_Prim2SF. apply Prim2SF_inj.
  rewrite FloatAxioms.mul_spec, Ha. destruct sa; reflexivity.
Qed.

Lemma div_zero_zero (a : float) : (a =? 0) = true -> a / 0 = nan.
Proof.
  intros [sa Ha]%eqb_zero_Prim2SF. apply Prim2SF_inj.
  rewrite FloatAxioms.div_spec, Ha. reflexivity.
Qed.

Lemma ltb_zero_zero (a : float) : (a =? 0) = true -> (a <? 0) = false.
Proof.
  intros [sa Ha]%eqb_zero_Prim2SF.
  rewrite FloatAxioms.ltb_spec, Ha. reflexivity.
Qed.

End FloatZeroFacts.

Module FloatNonFiniteFacts.
Import FloatFacts FloatZeroFacts.
Local Open Scope float_scope.

(** The doubles that are not finite are the infinities and the NaN. *)
Lemma not_finite_Prim2SF (x : float) :
  PrimFloat.is_finite x = false <->
  Prim2SF x = S754_nan \/ exists s, Prim2SF x = S754_infinity s.
Proof.
  unfold PrimFloat.is_finite, PrimFloat.is_nan, PrimFloat.is_infinity.
  rewrite !FloatAxioms.eqb_spec, FloatAxioms.abs_spec.
  change (Prim2SF infinity) with (S754_infinity false). unfold SFeqb.
  destruct (Prim2SF x) as [s|s| |s m e]; cbn.
  - split; [discriminate|]. intros [[=]|[? [=]]].
  - split; [eauto|]. now destruct s.
  - split; [eauto|reflexivity].
  - rewrite Z.compare_refl, Pos.compare_cont_refl.
    destruct s; cbn; (split; [discriminate|]); intros [[=]|[? [=]]].
Qed.

(** Sums and differences with an operand that is not finite are not
    finite. *)
Lemma add_not_finite (a b : float) :
  PrimFloat.is_finite a = false \/ PrimFloat.is_finite b = false ->
  PrimFloat.is_finite (a + b) = false.
Proof.
  rewrite !not_finite_Prim2SF, FloatAxioms.add_spec.
  unfold SF64add, SFadd.
  intros [[->|[sa ->]]|[->|[sb ->]]];
    destruct (Prim2SF a) as [[]|[]| |[] ? ?];
    destruct (Prim2SF b) as [[]|[]| |[] ? ?];
    try destruct sa; try destruct sb; eauto.
Qed.

Lemma sub_not_finite (a b : float) :
  PrimFloat.is_finite a = false \/ PrimFloat.is_finite b = false ->
  PrimFloat.is_finite (a - b) = false.
Proof.
  rewrite !not_finite_Prim2SF, FloatAxioms.sub_spec.
  unfold SF64sub, SFsub.
  intros [[->|[sa ->]]|[->|[sb ->]]];
    destruct (Prim2SF a) as [[]|[]| |[] ? ?];
    destruct (Prim2SF b) as [[]|[]| |[] ? ?];
    try destruct sa; try destruct sb; cbn; eauto.
Qed.

(** A quotient by [+0] is not finite. *)
Lemma div_zero_not_finite (a : float) : PrimFloat.is_finite (a / 0) = false.
Proof.
  apply not_finite_Prim2SF. rewrite FloatAxioms.div_spec.
  change (Prim2SF 0) with (S754_zero false).
  destruct (Prim2SF a) as [s|s| |s m e]; cbn; eauto.
Qed.

(** The difference of a finite double and itself is a zero. *)
Lemma sub_diag_zero (a : float) :
  PrimFloat.is_finite a = true -> (a - a =? 0) = true.
Proof.
  intros Ha. apply eqb_zero_Prim2SF. rewrite FloatAxioms.sub_spec.
  destruct (is_finite_Prim2SF a Ha) as [[s ->]|(s & m & e & ->)].
  - destruct s; cbn; eauto.
  - unfold SF64sub, SFsub. rewrite Z.sub_diag. cbn. eauto.
Qed.

End FloatNonFiniteFacts.

(* ===================================================================== *)
(** * Facts about the lanes *)
(* ===================================================================== *)

Module JetLanesFacts.
Import Expr Jet JetFacts JetLanes.

Lemma decompose_rhs_length vars rhss defs tail defs' :
  decompose_rhs vars rhss defs = Some (tail, defs') ->
  length tail = length rhss.
Proof.
  revert defs tail defs'. induction rhss as [|e rest IH]; intros defs tail defs'.
  - cbn. now intros [= <- _].
  - cbn [decompose_rhs].
    destruct (decompose_expr vars e defs) as [[r defs1]|]; [|discriminate].
    destruct (decompose_rhs vars rest defs1) as [[tail1 defs2]|] eqn:E;
      [|discriminate].
    intros [= <- _]. cbn [length]. f_equal. exact (IH _ _ _ E).
Qed.

Lemma taylor_decompose_shape sys D :
  taylor_decompose sys = Some D ->
  d_states D = length sys /\ length (d_tail D) = d_states D.
Proof.
  unfold taylor_decompose.
  destruct (decompose_rhs _ _ _) as [[tail defs]|] eqn:E; [|discriminate].
  intros [= <-]. cbn [d_states d_tail]. split; [reflexivity|].
  apply decompose_rhs_length in E. now rewrite length_fmap in E.
Qed.

Lemma jet_length D p B slab : length (jet D p B slab) = length slab.
Proof. unfold jet. apply stores_length. Qed.

Lemma lane_length B l count slab : length (lane B l count slab) = count.
Proof. unfold lane. now rewrite length_fmap, length_seq. Qed.

Lemma lane_lookup B l count slab m :
  m < count -> lane B l count slab !!! m = slab !!! (m * B + l).
Proof.
  intros Hm. apply list_lookup_total_correct. unfold lane.
  now rewrite list_lookup_fmap, lookup_seq_lt.
Qed.

Lemma row_split S m count :
  m < S * count -> exists k i, k < count /\ i < S /\ m = k * S + i.
Proof.
  intros Hm. assert (S <> 0) by lia.
  exists (m / S), (m mod S).
  pose proof (Nat.div_mod_eq m S). pose proof (Nat.mod_upper_bound m S).
  repeat split; [|lia|lia].
  apply Nat.Div0.div_lt_upper_bound. lia.
Qed.

Lemma jet_lane D p B slab l :
  length (d_tail D) = d_states D ->
  length slab = d_states D * B * (p + 1) -> l < B ->
  lane B l (d_states D * (p + 1)) (jet D p B slab)
  = jet D p 1 (lane B l (d_states D * (p + 1)) slab).
Proof.
  intros Htail Hlen Hl.
  set (count := d_states D * (p + 1)).
  set (s1 := lane B l count slab).
  assert (Hlen1 : length s1 = d_states D * 1 * (p + 1))
    by (subst s1; rewrite lane_length; subst count; lia).
  assert (Hload : load_state D 1 s1 0 = load_state D B slab l).
  { unfold load_state. apply list_fmap_ext. intros j i Hi.
    apply lookup_seq in Hi as [-> Hi]. cbn [Nat.add]. unfold slab_index.
    subst s1.
    rewrite lane_lookup by (subst count; nia). f_equal. lia. }
  apply list_eq_same_length with count;
    [rewrite jet_length; subst s1; apply lane_length|apply lane_length|].
  intros m a b Hm Ha Hb.
  apply list_lookup_total_correct in Ha, Hb. subst a b.
  rewrite lane_lookup by exact Hm.
  destruct (row_split (d_states D) m (p + 1) Hm) as (k & i & Hk & Hi & ->).
  change ((k * d_states D + i) * B + l) with (slab_index D B k i l).
  replace (k * d_states D + i) with (slab_index D 1 k i 0)
    by (unfold slab_index; lia).
  destruct k as [|k].
  - rewrite (jet_lookup_order0 D p B slab Htail Hlen l i Hl Hi).
    rewrite (jet_lookup_order0 D p 1 s1 Htail Hlen1 0 i ltac:(lia) Hi).
    subst s1. unfold slab_index.
    rewrite lane_lookup by (subst count; nia). f_equal. lia.
  - rewrite (jet_lookup_order D p B slab Htail Hlen l (S k) i Hl ltac:(lia) Hi).
    rewrite (jet_lookup_order D p 1 s1 Htail Hlen1 0 (S k) i ltac:(lia)
               ltac:(lia) Hi).
    now rewrite Hload.
Qed.

End JetLanesFacts.

(* ===================================================================== *)
(** * Further properties of the code *)
(* ===================================================================== *)

Module NBodyProperties.
Import Expr NBody NBodyTerms NBodyFacts NBodyParFacts NBodyGeneralTerms
  NBodyGeneralFacts Gravity GravityFacts FixedMassesFacts MomentumFacts
  NBodyShape NBodyShapeFacts WellPosedFacts NBodyMoreFacts.

(** X1.  The layout of the systems.  For [n >= 2] bodies and a vector of
    [n] masses, [make_nbody_sys_fixed_masses] returns [6 n] equations, six
    for each body [k], in the order of the bodies: the equations
    [6 k .. 6 k + 2] are [x_k' = vx_k], [y_k' = vy_k], [z_k' = vz_k], and the
    equations [6 k + 3 .. 6 k + 5] have [vx_k], [vy_k], [vz_k] on the left.
    This holds in the restricted and in the general case alike, and for
    [make_nbody_sys_par_masses] with [n_massive <= n]. *)
Theorem nbody_system_layout {arith : number_arith} (n : nat) (Gconst : Q)
    (masses : list Q) (n_massive : nat) :
  2 <= n -> (N.of_nat n < 2 ^ 32)%N ->
  (length masses = n ->
   exists sys,
     make_nbody_sys_fixed_masses n Gconst masses = Return sys /\
     length sys = 6 * n /\
     forall k c p, k < n -> (c, p) ∈ coords ->
       sys !! (6 * k + c)
       = Some (Var (p +:+ li_to_string k),
               Var ("v" +:+ p +:+ li_to_string k)) /\
       exists rhs,
         sys !! (6 * k + 3 + c)
         = Some (Var ("v" +:+ p +:+ li_to_string k), rhs)) /\
  (n_massive <= n ->
   exists sys,
     make_nbody_sys_par_masses n Gconst n_massive = Return sys /\
     length sys = 6 * n /\
     forall k c p, k < n -> (c, p) ∈ coords ->
       sys !! (6 * k + c)
       = Some (Var (p +:+ li_to_string k),
               Var ("v" +:+ p +:+ li_to_string k)) /\
       exists rhs,
         sys !! (6 * k + 3 + c)
         = Some (Var ("v" +:+ p +:+ li_to_string k), rhs)).
Proof.
  intros _ Hn. split.
  - intros Hlen.
    destruct (fixed_masses_laid_out n Gconst masses Hn Hlen)
      as (sys & E & Hl & H).
    exists sys. split; [exact E|]. split; [exact Hl|].
    intros k c p Hk Hc. destruct (H k c p Hk Hc) as (E1 & rhs & E2 & _). eauto.
  - intros Hle.
    destruct (par_masses_laid_out n Gconst n_massive Hn Hle)
      as (sys & E & Hl & H).
    exists sys. split; [exact E|]. split; [exact Hl|].
    intros k c p Hk Hc. destruct (H k c p Hk Hc) as (E1 & rhs & E2 & _). eauto.
Qed.

Lemma nbody_system_layout_witness :
  (length [1; 0; 2]%Q = 3 ->
   exists sys,
     make_nbody_sys_fixed_masses (arith := binary64_arith)
         3 1 [1; 0; 2]%Q = Return sys /\
     length sys = 6 * 3 /\
     forall k c p, k < 3 -> (c, p) ∈ coords ->
       sys !! (6 * k + c)
       = Some (Var (p +:+ li_to_string k),
               Var ("v" +:+ p +:+ li_to_string k)) /\
       exists rhs,
         sys !! (6 * k + 3 + c)
         = Some (Var ("v" +:+ p +:+ li_to_string k), rhs)) /\
  (2 <= 3 ->
   exists sys,
     make_nbody_sys_par_masses 3 1 2 = Return sys /\
     length sys = 6 * 3 /\
     forall k c p, k < 3 -> (c, p) ∈ coords ->
       sys !! (6 * k + c)
       = Some (Var (p +:+ li_to_string k),
               Var ("v" +:+ p +:+ li_to_string k)) /\
       exists rhs,
         sys !! (6 * k + 3 + c)
         = Some (Var ("v" +:+ p +:+ li_to_string k), rhs)).
Proof.
  apply (nbody_system_layout (arith := binary64_arith)
           3 1 [1; 0; 2]%Q 2); [lia|reflexivity].
Defined.

(** X2.  The systems are well posed.  In the system returned by either
    builder no variable has two equations, every variable that occurs on a
    right-hand side has an equation of its own, and the right-hand sides of
    the accelerations contain position variables of the [n] bodies only:
    the forces do not depend on the velocities. *)
Theorem nbody_system_well_posed {arith : number_arith} (n : nat)
    (Gconst : Q) (masses : list Q) (n_massive : nat) :
  2 <= n -> (N.of_nat n < 2 ^ 32)%N ->
  (length masses = n ->
   exists sys,
     make_nbody_sys_fixed_masses n Gconst masses = Return sys /\
     well_posed sys /\
     forall k c lhs rhs s, k < n -> c < 3 ->
       sys !! (6 * k + 3 + c) = Some (lhs, rhs) -> s ∈ get_variables rhs ->
       exists i, i < n /\ s ∈ pos_vars i) /\
  (n_massive <= n ->
   exists sys,
     make_nbody_sys_par_masses n Gconst n_massive = Return sys /\
     well_posed sys /\
     forall k c lhs rhs s, k < n -> c < 3 ->
       sys !! (6 * k + 3 + c) = Some (lhs, rhs) -> s ∈ get_variables rhs ->
       exists i, i < n /\ s ∈ pos_vars i).
Proof.
  intros _ Hn.
  assert (Hacc : forall sys, laid_out n sys ->
            forall k c lhs rhs s, k < n -> c < 3 ->
              sys !! (6 * k + 3 + c) = Some (lhs, rhs) ->
              s ∈ get_variables rhs -> exists i, i < n /\ s ∈ pos_vars i).
  { intros sys [_ H] k c lhs rhs s Hk Hc E Hs.
    assert (Hp : exists p, (c, p) ∈ coords).
    { unfold coords.
      destruct c as [|[|[|c]]]; [exists "x_"|exists "y_"|exists "z_"|lia];
        set_solver. }
    destruct Hp as [p Hp]. destruct (H k c p Hk Hp) as (_ & rhs' & E' & Hv).
    rewrite E' in E. injection E as _ <-. auto. }
  split.
  - intros Hlen.
    destruct (fixed_masses_laid_out n Gconst masses Hn Hlen) as (sys & E & Hl).
    exists sys. split; [exact E|]. split; [now apply (laid_out_well_posed n)|].
    now apply Hacc.
  - intros Hle.
    destruct (par_masses_laid_out n Gconst n_massive Hn Hle) as (sys & E & Hl).
    exists sys. split; [exact E|]. split; [now apply (laid_out_well_posed n)|].
    now apply Hacc.
Qed.

Lemma nbody_system_well_posed_witness :
  (length [1; 0; 2]%Q = 3 ->
   exists sys,
     make_nbody_sys_fixed_masses (arith := binary64_arith)
         3 1 [1; 0; 2]%Q = Return sys /\
     well_posed sys /\
     forall k c lhs rhs s, k < 3 -> c < 3 ->
       sys !! (6 * k + 3 + c) = Some (lhs, rhs) -> s ∈ get_variables rhs ->
       exists i, i < 3 /\ s ∈ pos_vars i) /\
  (2 <= 3 ->
   exists sys,
     make_nbody_sys_par_masses 3 1 2 = Return sys /\
     well_posed sys /\
     forall k c lhs rhs s, k < 3 -> c < 3 ->
       sys !! (6 * k + 3 + c) = Some (lhs, rhs) -> s ∈ get_variables rhs ->
       exists i, i < 3 /\ s ∈ pos_vars i).
Proof.
  apply (nbody_system_well_posed (arith := binary64_arith)
           3 1 [1; 0; 2]%Q 2); [lia|reflexivity].
Defined.

(** X3.  Newton's law.  The code computes the constants of the system,
    [Gconst * masses[j]], [-Gconst * masses[i]] and
    [-masses[i] / masses[j]], in the floating-point arithmetic of [number].
    When these products and quotients are exact for the given masses (zero
    or not, in any order), the right-hand side that
    [make_nbody_sys_fixed_masses] builds for the acceleration of body [k]
    along a coordinate has, for every state and in exact evaluation, the
    value [Σ_(i <> k) G m_i (p_i - p_k) pow (|r_i - r_k|^2, -3/2)]: the sum
    over all the other bodies of their attractions.  The restricted and the
    general case give the same values. *)
Theorem fixed_masses_newton_law {arith : number_arith} (n : nat)
    (Gconst : Q) (masses : list Q) :
  2 <= n -> (N.of_nat n < 2 ^ 32)%N -> length masses = n ->
  exact_constants n Gconst masses = true ->
  exists sys,
    make_nbody_sys_fixed_masses n Gconst masses = Return sys /\
    forall k c p, k < n -> (c, p) ∈ coords ->
      exists rhs,
        sys !! (6 * k + 3 + c)
        = Some (Var ("v" +:+ p +:+ li_to_string k), rhs) /\
        forall env pars pow_fn,
          eval env pars pow_fn rhs
          = newton_acceleration (Q2Qc Gconst)
              (fun j => Q2Qc (masses !!! j)) env pow_fn n p k.
Proof. intros _. apply fixed_masses_newton_lemma. Qed.

Lemma fixed_masses_newton_law_witness :
  exists sys,
    make_nbody_sys_fixed_masses (arith := binary64_arith)
        3 1 [1; 0; 2]%Q = Return sys /\
    forall k c p, k < 3 -> (c, p) ∈ coords ->
      exists rhs,
        sys !! (6 * k + 3 + c)
        = Some (Var ("v" +:+ p +:+ li_to_string k), rhs) /\
        forall env pars pow_fn,
          eval env pars pow_fn rhs
          = newton_acceleration (Q2Qc 1)
              (fun j => Q2Qc ([1; 0; 2]%Q !!! j)) env pow_fn 3 p k.
Proof.
  apply (fixed_masses_newton_law (arith := binary64_arith) 3 1 [1; 0; 2]%Q);
    [lia|reflexivity|reflexivity|vm_compute; reflexivity].
Defined.

(** X4.  The total momentum is conserved.  When the constants that the
    code computes from the masses ([Gconst * masses[j]],
    [-Gconst * masses[i]], [-masses[i] / masses[j]]) are exact in the
    arithmetic of [number], then in the system of
    [make_nbody_sys_fixed_masses], for every state and in exact evaluation,
    the accelerations weighted by the masses add up to zero along each
    coordinate: [Σ_k m_k a_k = 0]. *)
Theorem fixed_masses_momentum {arith : number_arith} (n : nat) (Gconst : Q)
    (masses : list Q) :
  2 <= n -> (N.of_nat n < 2 ^ 32)%N -> length masses = n ->
  exact_constants n Gconst masses = true ->
  exists sys,
    make_nbody_sys_fixed_masses n Gconst masses = Return sys /\
    forall env pars pow_fn c p, (c, p) ∈ coords ->
      sumQc (map (fun k => Q2Qc (masses !!! k)
                           * eval env pars pow_fn (sys !!! (6 * k + 3 + c)%nat).2)%Qc
                 (seq 0 n)) = 0%Qc.
Proof. intros _. apply fixed_masses_momentum_lemma. Qed.

Lemma fixed_masses_momentum_witness :
  exists sys,
    make_nbody_sys_fixed_masses (arith := binary64_arith)
        3 1 [1; 0; 2]%Q = Return sys /\
    forall env pars pow_fn c p, (c, p) ∈ coords ->
      sumQc (map (fun k => Q2Qc ([1; 0; 2]%Q !!! k)
                           * eval env pars pow_fn (sys !!! (6 * k + 3 + c)%nat).2)%Qc
                 (seq 0 3)) = 0%Qc.
Proof.
  apply (fixed_masses_momentum (arith := binary64_arith) 3 1 [1; 0; 2]%Q);
    [lia|reflexivity|reflexivity|vm_compute; reflexivity].
Defined.

(** X5.  Newton's law for the parametric masses.  When the parameter
    buffer gives non-zero masses to the [n_massive] massive bodies, the
    right-hand side that [make_nbody_sys_par_masses] builds for the
    acceleration of body [k] (massive or not) has the value
    [Σ_(i < n_massive, i <> k) G par[i] (p_i - p_k) pow (|r_i - r_k|^2, -3/2)]:
    only the massive bodies attract. *)
Theorem par_masses_newton_law (n : nat) (Gconst : Q) (n_massive : nat) :
  2 <= n -> (N.of_nat n < 2 ^ 32)%N -> n_massive <= n ->
  exists sys,
    make_nbody_sys_par_masses n Gconst n_massive = Return sys /\
    forall k c p, k < n -> (c, p) ∈ coords ->
      exists rhs,
        sys !! (6 * k + 3 + c)
        = Some (Var ("v" +:+ p +:+ li_to_string k), rhs) /\
        forall env pars pow_fn,
          (forall j, j < n_massive -> pars j <> 0%Qc) ->
          eval env pars pow_fn rhs
          = newton_acceleration (Q2Qc Gconst) pars env pow_fn n_massive p k.
Proof. intros _. apply par_masses_newton_lemma. Qed.

Lemma par_masses_newton_law_witness :
  exists sys,
    make_nbody_sys_par_masses 3 1 2 = Return sys /\
    forall k c p, k < 3 -> (c, p) ∈ coords ->
      exists rhs,
        sys !! (6 * k + 3 + c)
        = Some (Var ("v" +:+ p +:+ li_to_string k), rhs) /\
        forall env pars pow_fn,
          (forall j, j < 2 -> pars j <> 0%Qc) ->
          eval env pars pow_fn rhs
          = newton_acceleration (Q2Qc 1) pars env pow_fn 2 p k.
Proof.
  apply (par_masses_newton_law 3 1 2); [lia|reflexivity|lia].
Defined.

(** X6.  The general case, term by term.  When the test of the restricted
    case fails, the accumulator of body [k] holds, when its sum is taken,
    one term for each body [i < k] (the one-way term when [k] has no mass,
    the mutual term scaled by [-m_i / m_k] when it has one) followed by one
    term for each body [j > k] that has a mass; the ratio of two masses is
    only formed with a divisor that is not zero. *)
Theorem general_case_terms {arith : number_arith} (n : nat) (Gconst : Q)
    (masses : list Q) :
  2 <= n -> (N.of_nat n < 2 ^ 32)%N -> length masses = n ->
  negb (n_fc_massless masses =? 0)
  && (n_fc_massive masses + n_fc_massless masses =? n) = false ->
  exists sys,
    make_nbody_sys_fixed_masses n Gconst masses = Return sys /\
    forall k c p, k < n -> (c, p) ∈ coords ->
      let vs := make_vars p n in
      let ff := fixed_factors Gconst masses in
      sys !! (6 * k + 3 + c)
      = Some (Var ("v" +:+ p +:+ li_to_string k),
              sum_expr
                (map (fun i => if is_zero (masses !!! k)
                               then ow_term n ff vs i k
                               else on_term n ff vs i k) (seq 0 k)
                 ++ map (fun j => by_term n ff vs k j)
                        (List.filter (fun j => negb (is_zero (masses !!! j)))
                                     (seq (S k) (n - S k))))).
Proof.
  intros _ Hn Hlen Hc. unfold make_nbody_sys_fixed_masses.
  rewrite Hlen, Nat.eqb_refl, Hc. cbn [negb].
  rewrite general_system_blocks by (now apply u32_small).
  eexists. split; [reflexivity|]. cbv zeta. intros k c p Hk Hcp.
  pose proof (coords_lt c p Hcp).
  replace (6 * k + 3 + c) with (6 * k + (3 + c)) by lia.
  rewrite general_blocks_lookup by lia.
  now destruct (general_block_position n Gconst masses k c p Hk Hcp) as [_ ->].
Qed.

Lemma general_case_terms_witness :
  exists sys,
    make_nbody_sys_fixed_masses (arith := binary64_arith)
        3 1 [1; 0; 2]%Q = Return sys /\
    forall k c p, k < 3 -> (c, p) ∈ coords ->
      let vs := make_vars p 3 in
      let ff := fixed_factors (arith := binary64_arith) 1 [1; 0; 2]%Q in
      sys !! (6 * k + 3 + c)
      = Some (Var ("v" +:+ p +:+ li_to_string k),
              sum_expr
                (map (fun i => if is_zero ([1; 0; 2]%Q !!! k)
                               then ow_term 3 ff vs i k
                               else on_term 3 ff vs i k) (seq 0 k)
                 ++ map (fun j => by_term 3 ff vs k j)
                        (List.filter (fun j => negb (is_zero ([1; 0; 2]%Q !!! j)))
                                     (seq (S k) (3 - S k))))).
Proof.
  apply (general_case_terms (arith := binary64_arith) 3 1 [1; 0; 2]%Q);
    [lia|reflexivity|reflexivity|reflexivity].
Defined.

(** X7.  The restricted case, massive bodies.  With the masses of
    [n_massive] massive bodies followed by at least one massless body, the
    acceleration of a massive body [k] is the pairwise sum of exactly
    [n_massive - 1] terms, one for each other massive body; no position of
    a massless body occurs in it: the massless bodies do not act on the
    massive ones. *)
Theorem massive_acceleration_terms {arith : number_arith} (n : nat) (Gconst : Q)
    (massive massless : list Q) :
  2 <= n -> (N.of_nat n < 2 ^ 32)%N ->
  massless <> [] ->
  Forall (fun m => is_zero m = false) massive ->
  Forall (fun m => is_zero m = true) massless ->
  length (massive ++ massless) = n ->
  exists sys,
    make_nbody_sys_fixed_masses n Gconst (massive ++ massless) = Return sys /\
    forall k c p, k < length massive -> (c, p) ∈ coords ->
      let vs := make_vars p n in
      let ff := fixed_factors Gconst (massive ++ massless) in
      exists ts,
        sys !! (6 * k + 3 + c)
        = Some (Var ("v" +:+ p +:+ li_to_string k), sum_expr ts) /\
        ts = map (fun i => on_term n ff vs i k) (seq 0 k)
             ++ map (fun j => by_term n ff vs k j)
                    (seq (S k) (length massive - S k)) /\
        length ts = length massive - 1 /\
        forall j, length massive <= j ->
                  get_variables (sum_expr ts) ## pos_vars j.
Proof.
  intros _ Hn Hne Hnz Hz Hlen.
  rewrite fixed_masses_restricted_blocks by assumption.
  eexists. split; [reflexivity|]. cbv zeta. intros k c p Hk Hc.
  set (vs := make_vars p n).
  set (ff := fixed_factors Gconst (massive ++ massless)).
  assert (Hnm : length massive <= n) by (rewrite length_app in Hlen; lia).
  pose proof (coords_lt c p Hc).
  exists (terms n ff (length massive) vs k).
  split; [|split; [|split]].
  - replace (6 * k + 3 + c) with (6 * k + (3 + c)) by lia.
    rewrite blocks_lookup by lia.
    now destruct (block_position n ff (length massive) k c p ltac:(lia) Hc)
      as [_ ->].
  - now apply terms_massive.
  - rewrite terms_massive by exact Hk.
    rewrite length_app, !length_map, !length_seq. lia.
  - intros j Hj. apply elem_of_disjoint. intros s Hs Hsj.
    destruct (sum_expr_vars (fun i => i < length massive /\ i <> k) k _
                (terms_vars n ff (fixed_factors_vars _ _) c p Hc
                   (length massive) k Hnm ltac:(lia)) s Hs)
      as [Hs'|(i & [Hi _] & Hs')].
    + pose proof (pos_vars_inj _ _ s Hsj Hs'). lia.
    + pose proof (pos_vars_inj _ _ s Hsj Hs'). lia.
Qed.

Lemma massive_acceleration_terms_witness :
  exists sys,
    make_nbody_sys_fixed_masses (arith := binary64_arith)
        3 1 ([1; 2] ++ [0])%Q = Return sys /\
    forall k c p, k < length [1; 2]%Q -> (c, p) ∈ coords ->
      let vs := make_vars p 3 in
      let ff := fixed_factors (arith := binary64_arith) 1 ([1; 2] ++ [0])%Q in
      exists ts,
        sys !! (6 * k + 3 + c)
        = Some (Var ("v" +:+ p +:+ li_to_string k), sum_expr ts) /\
        ts = map (fun i => on_term 3 ff vs i k) (seq 0 k)
             ++ map (fun j => by_term 3 ff vs k j)
                    (seq (S k) (length [1; 2]%Q - S k)) /\
        length ts = length [1; 2]%Q - 1 /\
        forall j, length [1; 2]%Q <= j ->
                  get_variables (sum_expr ts) ## pos_vars j.
Proof.
  apply (massive_acceleration_terms (arith := binary64_arith)
           3 1 [1; 2]%Q [0]%Q);
    [lia|reflexivity|discriminate| | |reflexivity];
    repeat constructor.
Defined.

(** X8.  Without a massive body the motion is free.  When every mass is
    zero [make_nbody_sys_fixed_masses] returns a system in which the
    right-hand side of every acceleration is the number zero, the value of
    an empty pairwise sum; [make_nbody_sys_par_masses] with
    [n_massive = 0] returns such a system too. *)
Theorem no_massive_body_free_motion {arith : number_arith} (n : nat)
    (Gconst : Q) (masses : list Q) :
  2 <= n -> (N.of_nat n < 2 ^ 32)%N -> length masses = n ->
  Forall (fun m => is_zero m = true) masses ->
  (exists sys,
     make_nbody_sys_fixed_masses n Gconst masses = Return sys /\
     forall k c p, k < n -> (c, p) ∈ coords ->
       sys !! (6 * k + 3 + c)
       = Some (Var ("v" +:+ p +:+ li_to_string k), Num 0)) /\
  (exists sys,
     make_nbody_sys_par_masses n Gconst 0 = Return sys /\
     forall k c p, k < n -> (c, p) ∈ coords ->
       sys !! (6 * k + 3 + c)
       = Some (Var ("v" +:+ p +:+ li_to_string k), Num 0)).
Proof.
  intros H2 Hn Hlen Hz. split.
  - change masses with ([] ++ masses).
    rewrite fixed_masses_restricted_blocks;
      [|exact Hn|destruct masses; [cbn in Hlen; lia|discriminate]
       |constructor|exact Hz|exact Hlen].
    eexists. split; [reflexivity|]. intros k c p Hk Hc.
    now apply blocks_no_massive.
  - rewrite par_masses_blocks by (first [exact Hn|lia]).
    eexists. split; [reflexivity|]. intros k c p Hk Hc.
    now apply blocks_no_massive.
Qed.

Lemma no_massive_body_free_motion_witness :
  (exists sys,
     make_nbody_sys_fixed_masses (arith := binary64_arith)
         3 1 [0; 0; 0]%Q = Return sys /\
     forall k c p, k < 3 -> (c, p) ∈ coords ->
       sys !! (6 * k + 3 + c)
       = Some (Var ("v" +:+ p +:+ li_to_string k), Num 0)) /\
  (exists sys,
     make_nbody_sys_par_masses 3 1 0 = Return sys /\
     forall k c p, k < 3 -> (c, p) ∈ coords ->
       sys !! (6 * k + 3 + c)
       = Some (Var ("v" +:+ p +:+ li_to_string k), Num 0)).
Proof.
  apply (no_massive_body_free_motion (arith := binary64_arith) 3 1 [0; 0; 0]%Q);
    [lia|reflexivity|reflexivity|repeat constructor].
Defined.

End NBodyProperties.

Module AngularProperties.
Import Expr NBody NBodyTerms NBodyFacts Gravity NBodyShape FixedMassesFacts
  AngularFacts.

(** X9.  The total angular momentum is conserved.  When the constants
    that the code computes from the masses ([Gconst * masses[j]],
    [-Gconst * masses[i]], [-masses[i] / masses[j]]) are exact in the
    arithmetic of [number], then in the system of
    [make_nbody_sys_fixed_masses], for every state, every pair of
    coordinates [p1], [p2] and in exact evaluation, the moments of the
    accelerations weighted by the masses add up to zero,
    [Σ_k m_k (p1_k a_k^p2 - p2_k a_k^p1) = 0]: the force between two bodies
    lies along the line that joins them. *)
Theorem fixed_masses_angular_momentum {arith : number_arith} (n : nat)
    (Gconst : Q) (masses : list Q) :
  2 <= n -> (N.of_nat n < 2 ^ 32)%N -> length masses = n ->
  exact_constants n Gconst masses = true ->
  exists sys,
    make_nbody_sys_fixed_masses n Gconst masses = Return sys /\
    forall env pars pow_fn c1 p1 c2 p2,
      (c1, p1) ∈ coords -> (c2, p2) ∈ coords ->
      sumQc (map (fun k =>
                    Q2Qc (masses !!! k)
                    * (coord env p1 k
                       * eval env pars pow_fn (sys !!! (6 * k + 3 + c2)%nat).2
                       - coord env p2 k
                         * eval env pars pow_fn (sys !!! (6 * k + 3 + c1)%nat).2))%Qc
                 (seq 0 n)) = 0%Qc.
Proof. intros _. apply fixed_masses_angular_momentum_lemma. Qed.

Lemma fixed_masses_angular_momentum_witness :
  exists sys,
    make_nbody_sys_fixed_masses (arith := binary64_arith)
        3 1 [1; 0; 2]%Q = Return sys /\
    forall env pars pow_fn c1 p1 c2 p2,
      (c1, p1) ∈ coords -> (c2, p2) ∈ coords ->
      sumQc (map (fun k =>
                    Q2Qc ([1; 0; 2]%Q !!! k)
                    * (coord env p1 k
                       * eval env pars pow_fn (sys !!! (6 * k + 3 + c2)%nat).2
                       - coord env p2 k
                         * eval env pars pow_fn (sys !!! (6 * k + 3 + c1)%nat).2))%Qc
                 (seq 0 3)) = 0%Qc.
Proof.
  apply (fixed_masses_angular_momentum (arith := binary64_arith)
           3 1 [1; 0; 2]%Q);
    [lia|reflexivity|reflexivity|vm_compute; reflexivity].
Defined.

End AngularProperties.

Module MasconProperties.
Import Pairwise Mascon.
Local Open Scope float_scope.

Lemma ctor_point (pts : list (list double)) (ms : list double)
    (p q r G : double) (i c : nat) :
  (i < length ms)%nat -> (c < 3)%nat ->
  at2 (m_mascon_points (mascon_dynamics_ctor pts ms p q r G)) i c = at2 pts i c.
Proof.
  intros Hi Hc. unfold mascon_dynamics_ctor, at2 at 1. cbn [m_mascon_points].
  rewrite (nth_indep _ [] [at2 pts 0 0; at2 pts 0 1; at2 pts 0 2])
    by (rewrite length_map, length_seq; exact Hi).
  rewrite (map_nth (fun i => [at2 pts i 0; at2 pts i 1; at2 pts i 2])).
  rewrite seq_nth by exact Hi. cbn [Nat.add].
  destruct c as [|[|[|c]]]; try reflexivity. lia.
Qed.

(** X10.  The benchmark as it is run.  [main] builds the functor from the
    file-scope array [mascon_points_itokawa] itself.  For an object built
    from the array that [operator()] reads at file scope (an array that holds
    a point of three coordinates for each mass), the call gives what it
    would give if all of [r2] were computed from the points stored in the
    object: the stray reference reads a value the object stores as well. *)
Theorem stray_reference_harmless_in_main
    (mascon_points_itokawa : list (list double)) (masses : list double)
    (p q r G : double) (std_pow : double -> double -> double)
    (x dxdt : list double) (t : double) :
  (length masses <= length mascon_points_itokawa)%nat ->
  Forall (fun pt => length pt = 3%nat) mascon_points_itokawa ->
  let d := mascon_dynamics_ctor mascon_points_itokawa masses p q r G in
  (forall i, (i < length masses)%nat ->
     r2 mascon_points_itokawa d x i
     = (at1 x 0 - at2 (m_mascon_points d) i 0)
       * (at1 x 0 - at2 (m_mascon_points d) i 0)
       + (at1 x 1 - at2 (m_mascon_points d) i 1)
         * (at1 x 1 - at2 (m_mascon_points d) i 1)
       + (at1 x 2 - at2 (m_mascon_points d) i 2)
         * (at1 x 2 - at2 (m_mascon_points d) i 2)) /\
  operator_call mascon_points_itokawa std_pow d x dxdt t
  = operator_call (m_mascon_points d) std_pow d x dxdt t.
Proof.
  intros _ _ d.
  assert (Hr2 : forall i, (i < length masses)%nat ->
            r2 mascon_points_itokawa d x i = r2 (m_mascon_points d) d x i).
  { intros i Hi. unfold r2. subst d. now rewrite !ctor_point by (lia || exact Hi). }
  split; [intros i Hi; rewrite (Hr2 i Hi); reflexivity|].
  assert (Hacc : forall c, acc mascon_points_itokawa std_pow d x c
                           = acc (m_mascon_points d) std_pow d x c).
  { intros c. unfold acc. apply map_ext_in. intros i Hi%in_seq.
    unfold mGpow. rewrite Hr2; [reflexivity|].
    subst d. cbn [m_mascon_masses mascon_dynamics_ctor] in Hi. lia. }
  unfold operator_call. now rewrite !Hacc.
Qed.

Lemma stray_reference_harmless_in_main_witness :
  let d := mascon_dynamics_ctor [[0; 0; 1]; [1; 0; 0]] [1; 2] 0 0 1 1 in
  (forall i, (i < length [1; 2])%nat ->
     r2 [[0; 0; 1]; [1; 0; 0]] d [2; 0; 0; 0; 0; 0] i
     = (at1 [2; 0; 0; 0; 0; 0] 0 - at2 (m_mascon_points d) i 0)
       * (at1 [2; 0; 0; 0; 0; 0] 0 - at2 (m_mascon_points d) i 0)
       + (at1 [2; 0; 0; 0; 0; 0] 1 - at2 (m_mascon_points d) i 1)
         * (at1 [2; 0; 0; 0; 0; 0] 1 - at2 (m_mascon_points d) i 1)
       + (at1 [2; 0; 0; 0; 0; 0] 2 - at2 (m_mascon_points d) i 2)
         * (at1 [2; 0; 0; 0; 0; 0] 2 - at2 (m_mascon_points d) i 2)) /\
  operator_call [[0; 0; 1]; [1; 0; 0]] PrimFloat.mul d [2; 0; 0; 0; 0; 0]
    [0; 0; 0; 0; 0; 0] 0
  = operator_call (m_mascon_points d) PrimFloat.mul d [2; 0; 0; 0; 0; 0]
      [0; 0; 0; 0; 0; 0] 0.
Proof.
  apply (stray_reference_harmless_in_main [[0; 0; 1]; [1; 0; 0]] [1; 2] 0 0 1 1
           PrimFloat.mul [2; 0; 0; 0; 0; 0] [0; 0; 0; 0; 0; 0] 0);
    [cbn; lia|repeat constructor].
Defined.

End MasconProperties.

Module MasconSystemProperties.
Import Expr NBodyTerms NBodyFacts NBodyParFacts Gravity GravityFacts
  NBodyShape MasconSystem MasconSystemFacts.

Lemma vars_add a b (S : gset string) :
  get_variables a ⊆ S -> get_variables b ⊆ S ->
  get_variables (expr_add a b) ⊆ S.
Proof. pose proof (get_variables_expr_add a b). set_solver. Qed.

Lemma vars_sub a b (S : gset string) :
  get_variables a ⊆ S -> get_variables b ⊆ S ->
  get_variables (expr_sub a b) ⊆ S.
Proof. pose proof (get_variables_expr_sub a b). set_solver. Qed.

Lemma vars_mul a b (S : gset string) :
  get_variables a ⊆ S -> get_variables b ⊆ S ->
  get_variables (expr_mul a b) ⊆ S.
Proof. pose proof (get_variables_expr_mul a b). set_solver. Qed.

Lemma vars_neg a (S : gset string) :
  get_variables a ⊆ S -> get_variables (expr_neg a) ⊆ S.
Proof.
  intros H. unfold expr_neg.
  destruct a; try (apply vars_mul; [cbn; set_solver|exact H]).
  cbn. set_solver.
Qed.

Lemma vars_pow a b (S : gset string) :
  get_variables a ⊆ S -> get_variables b ⊆ S ->
  get_variables (pow a b) ⊆ S.
Proof. unfold pow. cbn [get_variables]. set_solver. Qed.

Lemma vars_sum_expr l (S : gset string) :
  Forall (fun t => get_variables t ⊆ S) l -> get_variables (sum_expr l) ⊆ S.
Proof.
  apply (sum_expr_closed (fun e => get_variables e ⊆ S)).
  - cbn. set_solver.
  - intros a b. apply vars_add.
Qed.

Ltac vars_tac :=
  repeat match goal with
         | |- get_variables (expr_add _ _) ⊆ _ => apply vars_add
         | |- get_variables (expr_sub _ _) ⊆ _ => apply vars_sub
         | |- get_variables (expr_mul _ _) ⊆ _ => apply vars_mul
         | |- get_variables (expr_neg _) ⊆ _ => apply vars_neg
         | |- get_variables (pow _ _) ⊆ _ => apply vars_pow
         end;
  cbn [get_variables]; set_solver.

Lemma acc_vars pts ms G_kw :
  Forall (fun t => get_variables t ⊆ state_vars) (x_acc pts ms G_kw) /\
  Forall (fun t => get_variables t ⊆ state_vars) (y_acc pts ms G_kw) /\
  Forall (fun t => get_variables t ⊆ state_vars) (z_acc pts ms G_kw).
Proof.
  unfold x_acc, y_acc, z_acc.
  repeat split; apply Forall_map, Forall_forall; intros i _; cbv beta;
    unfold acc_term, r2, G_const, m_masc, x_masc, y_masc, z_masc, x, y, z,
      variable, state_vars; vars_tac.
Qed.

(** X11.  The equations of motion in a rotating frame.  For a vector of
    masses that does not have [SIZE_MAX] elements, [make_mascon_system]
    returns the six equations of [x, y, z, vx, vy, vz], in this order, and
    their right-hand sides have, in exact arithmetic and for every state, the
    values [v] and [g - w x (w x r) - 2 w x v], where [w = (pd, qd, rd)] and
    [g] is the sum of the attractions [G m_i (r_i - r) pow (|r - r_i|^2, -3/2)]
    of the mascons passed to the call ([G] is 1 when it is not given). *)
Theorem make_mascon_system_rotating_frame
    (mascon_points : list (list Q)) (mascon_masses : list Q) (pd qd rd : Q)
    (G_kw : option Q) :
  N.of_nat (length mascon_masses) <> Pairwise.size_max ->
  exists sys,
    make_mascon_system mascon_points mascon_masses pd qd rd G_kw = Return sys /\
    fst <$> sys = [Var "x"; Var "y"; Var "z"; Var "vx"; Var "vy"; Var "vz"] /\
    forall env pars pow_fn,
      let r := (env "x", env "y", env "z") in
      let v := (env "vx", env "vy", env "vz") in
      let w := (Q2Qc pd, Q2Qc qd, Q2Qc rd) in
      let g := mascon_gravity
                 (Q2Qc (match G_kw with Some g => g | None => 1%Q end))
                 mascon_points mascon_masses pow_fn r in
      (fun eq => eval env pars pow_fn eq.2) <$> sys
      = [comp 0 v; comp 1 v; comp 2 v;
         (g 0%nat - comp 0 (cross3 w (cross3 w r))
          - Q2Qc 2 * comp 0 (cross3 w v))%Qc;
         (g 1%nat - comp 1 (cross3 w (cross3 w r))
          - Q2Qc 2 * comp 1 (cross3 w v))%Qc;
         (g 2%nat - comp 2 (cross3 w (cross3 w r))
          - Q2Qc 2 * comp 2 (cross3 w v))%Qc].
Proof.
  intros H. rewrite make_mascon_system_returns by exact H.
  eexists. split; [reflexivity|]. split; [reflexivity|].
  intros env pars pow_fn. cbv zeta.
  cbn [fmap list_fmap snd prime_eq].
  unfold prime_eq. cbn [snd].
  rewrite !eval_expr_sub.
  rewrite ev_x_acc, ev_y_acc, ev_z_acc.
  rewrite (ev_centripetal pd qd rd env pars pow_fn 0 (centripetal_x pd qd rd))
    by set_solver.
  rewrite (ev_centripetal pd qd rd env pars pow_fn 1 (centripetal_y pd qd rd))
    by set_solver.
  rewrite (ev_centripetal pd qd rd env pars pow_fn 2 (centripetal_z pd qd rd))
    by set_solver.
  rewrite (ev_coriolis pd qd rd env pars pow_fn 0 (coriolis_x qd rd))
    by set_solver.
  rewrite (ev_coriolis pd qd rd env pars pow_fn 1 (coriolis_y pd rd))
    by set_solver.
  rewrite (ev_coriolis pd qd rd env pars pow_fn 2 (coriolis_z pd qd))
    by set_solver.
  reflexivity.
Qed.

Lemma make_mascon_system_rotating_frame_witness :
  exists sys,
    make_mascon_system [[0; 0; 1]; [1; 0; 0]]%Q [1; 2]%Q 0 0 (3 # 2) (Some 1%Q)
    = Return sys /\
    fst <$> sys = [Var "x"; Var "y"; Var "z"; Var "vx"; Var "vy"; Var "vz"] /\
    forall env pars pow_fn,
      let r := (env "x", env "y", env "z") in
      let v := (env "vx", env "vy", env "vz") in
      let w := (Q2Qc 0, Q2Qc 0, Q2Qc (3 # 2)) in
      let g := mascon_gravity
                 (Q2Qc (match Some 1%Q with Some g => g | None => 1%Q end))
                 [[0; 0; 1]; [1; 0; 0]]%Q [1; 2]%Q pow_fn r in
      (fun eq => eval env pars pow_fn eq.2) <$> sys
      = [comp 0 v; comp 1 v; comp 2 v;
         (g 0%nat - comp 0 (cross3 w (cross3 w r))
          - Q2Qc 2 * comp 0 (cross3 w v))%Qc;
         (g 1%nat - comp 1 (cross3 w (cross3 w r))
          - Q2Qc 2 * comp 1 (cross3 w v))%Qc;
         (g 2%nat - comp 2 (cross3 w (cross3 w r))
          - Q2Qc 2 * comp 2 (cross3 w v))%Qc].
Proof.
  apply (make_mascon_system_rotating_frame [[0; 0; 1]; [1; 0; 0]]%Q [1; 2]%Q
           0 0 (3 # 2) (Some 1%Q)).
  discriminate.
Defined.

(** X12.  The system of [make_mascon_system] is well posed: its six
    left-hand sides are distinct, and every variable that occurs on a
    right-hand side is one of them, whatever the number of mascons. *)
Theorem make_mascon_system_well_posed
    (mascon_points : list (list Q)) (mascon_masses : list Q) (pd qd rd : Q)
    (G_kw : option Q) :
  N.of_nat (length mascon_masses) <> Pairwise.size_max ->
  exists sys,
    make_mascon_system mascon_points mascon_masses pd qd rd G_kw = Return sys /\
    well_posed sys /\
    forall lhs rhs, (lhs, rhs) ∈ sys -> get_variables rhs ⊆ state_vars.
Proof.
  intros H. rewrite make_mascon_system_returns by exact H.
  eexists. split; [reflexivity|].
  destruct (acc_vars mascon_points mascon_masses G_kw) as (Hx & Hy & Hz).
  apply vars_sum_expr in Hx, Hy, Hz.
  set (sys := [_; _; _; _; _; _]).
  assert (Hall : Forall (fun eq => get_variables eq.2 ⊆ state_vars) sys).
  { subst sys. unfold prime_eq.
    repeat (apply Forall_cons; split); [..|constructor]; cbn [snd].
    1-3: unfold vx, vy, vz, variable, state_vars; cbn [get_variables];
      set_solver.
    all: (apply vars_sub; [apply vars_sub; [assumption|]|]);
      unfold centripetal_x, centripetal_y, centripetal_z, coriolis_x,
        coriolis_y, coriolis_z, p, q, r, x, y, z, vx, vy, vz, variable,
        state_vars; vars_tac. }
  assert (Hrhs : forall lhs rhs, (lhs, rhs) ∈ sys ->
                                 get_variables rhs ⊆ state_vars).
  { intros lhs rhs Hin. rewrite Forall_forall in Hall.
    exact (Hall _ Hin). }
  split; [split|exact Hrhs].
  - subst sys. unfold prime_eq, x, y, z, vx, vy, vz, variable.
    cbn [fmap list_fmap fst].
    repeat (constructor; [set_solver|]). constructor.
  - intros lhs rhs s Hin Hs. apply Hrhs in Hin. apply Hin in Hs.
    unfold state_vars in Hs. rewrite !elem_of_union, !elem_of_singleton in Hs.
    subst sys. unfold prime_eq, x, y, z, vx, vy, vz, variable.
    destruct Hs as [[[[[->| ->]| ->]| ->]| ->]| ->]; eexists;
      apply list_elem_of_In; cbn [In];
      repeat (first [left; reflexivity | right]).
Qed.

Lemma make_mascon_system_well_posed_witness :
  exists sys,
    make_mascon_system [[0; 0; 1]; [1; 0; 0]]%Q [1; 2]%Q 0 0 (3 # 2) None
    = Return sys /\
    well_posed sys /\
    forall lhs rhs, (lhs, rhs) ∈ sys -> get_variables rhs ⊆ state_vars.
Proof.
  apply (make_mascon_system_well_posed [[0; 0; 1]; [1; 0; 0]]%Q [1; 2]%Q
           0 0 (3 # 2) None).
  discriminate.
Defined.

End MasconSystemProperties.

Module KeplerProperties.
Import Elliptic Kepler.
Local Open Scope float_scope.

(** X13.  [cartesian_to_oe] throws [std::invalid_argument] exactly when a
    component of the state is infinite or NaN, and it throws nothing else;
    for a finite state it returns six elements whatever [mu] is: the
    gravitational parameter is not validated (a zero, negative, infinite or
    NaN [mu] is divided by as it is). *)
Theorem cartesian_to_oe_throws_iff (acos : double -> double) (mu : double)
    (s : list double) :
  length s = 6%nat ->
  (cartesian_to_oe acos mu s = Throw invalid_argument
   <-> exists x, In x s /\ isfinite x = false) /\
  (forall e, cartesian_to_oe acos mu s = Throw e -> e = invalid_argument) /\
  (Forall (fun x => isfinite x = true) s ->
   exists oe, cartesian_to_oe acos mu s = Return oe /\ length oe = 6%nat).
Proof.
  intros _. unfold cartesian_to_oe.
  destruct (existsb (fun x => negb (isfinite x)) s) eqn:E.
  - apply existsb_exists in E as (x & Hx & Hf%negb_true_iff).
    split; [|split].
    + split; [eauto|reflexivity].
    + now intros e [= <-].
    + intros Hall. rewrite Forall_forall in Hall.
      apply list_elem_of_In, Hall in Hx. congruence.
  - cbv zeta.
    repeat match goal with
           | |- context [let '(_, _) := ?t in _] => destruct t as [[? ?] ?]
           end.
    split; [|split].
    + split; [discriminate|]. intros (x & Hx & Hf).
      assert (existsb (fun x => negb (isfinite x)) s = true)
        by (apply existsb_exists; exists x; now rewrite Hf).
      congruence.
    + discriminate.
    + intros _. eexists. split; reflexivity.
Qed.

Lemma cartesian_to_oe_throws_iff_witness :
  (cartesian_to_oe (fun x => x) 0 [1; 0; 0; 0; infinity; 0]
   = Throw invalid_argument
   <-> exists x, In x [1; 0; 0; 0; infinity; 0] /\ isfinite x = false) /\
  (forall e, cartesian_to_oe (fun x => x) 0 [1; 0; 0; 0; infinity; 0] = Throw e ->
             e = invalid_argument) /\
  (Forall (fun x => isfinite x = true) [1; 0; 0; 0; infinity; 0] ->
   exists oe, cartesian_to_oe (fun x => x) 0 [1; 0; 0; 0; infinity; 0]
              = Return oe /\ length oe = 6%nat).
Proof.
  apply (cartesian_to_oe_throws_iff (fun x => x) 0 [1; 0; 0; 0; infinity; 0]).
  reflexivity.
Defined.

End KeplerProperties.

Module PairwiseProperties.
Import Pairwise PairwiseFacts FloatFacts.
Local Open Scope float_scope.

Lemma pairwise_round_Exists {A : Type} (P : A -> Prop) (add : A -> A -> A)
    (l : list A) :
  (forall a b, P a \/ P b -> P (add a b)) ->
  Exists P l -> Exists P (pairwise_round add l).
Proof.
  intros Hadd.
  induction l as [|x|x y l IH] using pair_ind; intros H.
  - exact H.
  - exact H.
  - cbn [pairwise_round].
    apply Exists_cons in H as [H|H]; [left; auto|].
    apply Exists_cons in H as [H|H]; [left; auto|right; auto].
Qed.

(** X14.  A NaN is never lost.  When one of the operands is a NaN, the
    [pairwise_sum] of the doubles is a NaN, wherever the operand stands in
    the vector: every operand enters the result. *)
Theorem pairwise_sum_keeps_nan (sum : list float) :
  N.of_nat (length sum) <> size_max ->
  Exists (fun x => PrimFloat.is_nan x = true) sum ->
  exists r, pairwise_sum PrimFloat.add 0 sum = Return r /\
            PrimFloat.is_nan r = true.
Proof.
  intros Hsize Hnan. unfold pairwise_sum.
  destruct (N.eqb_spec (N.of_nat (length sum)) size_max); [contradiction|].
  destruct sum as [|x sum]; [now apply Exists_nil in Hnan|].
  eexists. split; [reflexivity|]. revert Hnan.
  apply (pairwise_loop_ind PrimFloat.add 0
           (fun l r => Exists (fun x => PrimFloat.is_nan x = true) l ->
                       PrimFloat.is_nan r = true)); [| |discriminate].
  - intros y Hy. apply Exists_cons in Hy as [Hy|Hy]; [exact Hy|].
    now apply Exists_nil in Hy.
  - intros a b rest r IH H. apply IH.
    apply pairwise_round_Exists; [apply add_nan|exact H].
Qed.

Lemma pairwise_sum_keeps_nan_witness :
  exists r, pairwise_sum PrimFloat.add 0 [1; 2; nan; 4; 5] = Return r /\
            PrimFloat.is_nan r = true.
Proof.
  apply (pairwise_sum_keeps_nan [1; 2; nan; 4; 5]); [discriminate|].
  right. right. left. reflexivity.
Defined.

End PairwiseProperties.

Module MasconMoreProperties.
Import Pairwise Mascon MasconEnergy FloatFacts.
Local Open Scope float_scope.

(** The square of a double and of its opposite are the same double. *)
Lemma mul_opp_opp (a : float) : (- a) * (- a) = a * a.
Proof.
  apply Prim2SF_inj. rewrite !FloatAxioms.mul_spec, !FloatAxioms.opp_spec.
  destruct (Prim2SF a) as [[]|[]| |[] m e]; reflexivity.
Qed.

(** X15.  The energy does not change when the velocity is reversed: for
    a velocity without a NaN component, [compute_energy] returns the same
    double for the states [(r, v)] and [(r, -v)].  (A NaN component is set
    aside: the squares of a NaN and of its opposite are both NaN, but their
    sign bits may differ, and [PrimFloat] has a single NaN.) *)
Theorem compute_energy_time_reversal (x0 x1 x2 v0 v1 v2 : double)
    (mascon_points : list (list double)) (mascon_masses : list double)
    (p q r G : double) :
  is_nan v0 = false -> is_nan v1 = false -> is_nan v2 = false ->
  compute_energy [x0; x1; x2; - v0; - v1; - v2] mascon_points mascon_masses
                 p q r G
  = compute_energy [x0; x1; x2; v0; v1; v2] mascon_points mascon_masses
                   p q r G.
Proof.
  intros _ _ _.
  unfold compute_energy, at1. cbn [nth]. now rewrite !mul_opp_opp.
Qed.

Lemma compute_energy_time_reversal_witness :
  compute_energy [1; 2; 3; - 0.5; - (-1); - 2] [[0; 0; 0]] [1] 0 0 1 1
  = compute_energy [1; 2; 3; 0.5; -1; 2] [[0; 0; 0]] [1] 0 0 1 1.
Proof.
  apply (compute_energy_time_reversal 1 2 3 0.5 (-1) 2 [[0; 0; 0]] [1]
           0 0 1 1); reflexivity.
Defined.

Lemma acc_length g std_pow d x c :
  length (acc g std_pow d x c) = length (m_mascon_masses d).
Proof. unfold acc. now rewrite length_map, length_seq. Qed.

(** X16.  [operator()] overwrites its output.  For an output vector of
    six entries (and a number of masses other than [SIZE_MAX]) the call
    returns without throwing, and what it leaves in [dxdt] depends neither
    on what [dxdt] held before nor on the time [t]; the first three entries
    are the velocities [x[3]], [x[4]], [x[5]]. *)
Theorem operator_call_overwrites
    (mascon_points_itokawa : list (list double))
    (std_pow : double -> double -> double) (d : mascon_dynamics)
    (x dxdt dxdt' : list double) (t t' : double) :
  length dxdt = 6%nat -> length dxdt' = 6%nat ->
  N.of_nat (length (m_mascon_masses d)) <> size_max ->
  exists out,
    operator_call mascon_points_itokawa std_pow d x dxdt t = Return out /\
    operator_call mascon_points_itokawa std_pow d x dxdt' t' = Return out /\
    length out = 6%nat /\
    take 3 out = [at1 x 3; at1 x 4; at1 x 5].
Proof.
  intros H1 H2 Hsize.
  destruct dxdt as [|a0 [|a1 [|a2 [|a3 [|a4 [|a5 [|]]]]]]]; try discriminate H1.
  destruct dxdt' as [|b0 [|b1 [|b2 [|b3 [|b4 [|b5 [|]]]]]]]; try discriminate H2.
  unfold operator_call, pairwise_sum.
  rewrite !acc_length.
  destruct (N.eqb_spec (N.of_nat (length (m_mascon_masses d))) size_max);
    [contradiction|].
  destruct (acc _ _ _ _ 0), (acc _ _ _ _ 1), (acc _ _ _ _ 2);
    cbn [bind]; eexists; repeat split; reflexivity.
Qed.

Lemma operator_call_overwrites_witness :
  exists out,
    operator_call [[0; 0; 1]] PrimFloat.mul
      (mascon_dynamics_ctor [[0; 0; 1]] [1] 0 0 1 1) [2; 0; 0; 0; 1; 0]
      [0; 0; 0; 0; 0; 0] 0 = Return out /\
    operator_call [[0; 0; 1]] PrimFloat.mul
      (mascon_dynamics_ctor [[0; 0; 1]] [1] 0 0 1 1) [2; 0; 0; 0; 1; 0]
      [7; 7; 7; 7; 7; 7] 1 = Return out /\
    length out = 6%nat /\
    take 3 out = [at1 [2; 0; 0; 0; 1; 0] 3; at1 [2; 0; 0; 0; 1; 0] 4;
                  at1 [2; 0; 0; 0; 1; 0] 5].
Proof.
  apply (operator_call_overwrites [[0; 0; 1]] PrimFloat.mul
           (mascon_dynamics_ctor [[0; 0; 1]] [1] 0 0 1 1) [2; 0; 0; 0; 1; 0]
           [0; 0; 0; 0; 0; 0] [7; 7; 7; 7; 7; 7] 0 1);
    [reflexivity|reflexivity|discriminate].
Defined.

End MasconMoreProperties.

Module JetLanesProperties.
Import Expr Jet JetFacts JetLanes JetLanesFacts.

(** X17.  The lanes of a batch do not interact.  For every system that
    has a jet function, every order and every batch size, lane [l] of the
    slab after a call of the batch function is what the function of batch
    size one returns on lane [l] of the slab before the call: the same
    coefficients, computed from the initial state of that lane alone. *)
Theorem jet_lanes_independent (sys : list (string * expression)) (p B : nat)
    (jet_batch jet_scalar : list Q -> list Q) (slab : list Q) (l : nat) :
  add_taylor_jet_batch sys p B = Some jet_batch ->
  add_taylor_jet_batch sys p 1 = Some jet_scalar ->
  length slab = length sys * B * (p + 1) -> l < B ->
  lane B l (length sys * (p + 1)) (jet_batch slab)
  = jet_scalar (lane B l (length sys * (p + 1)) slab).
Proof.
  unfold add_taylor_jet_batch.
  destruct (taylor_decompose sys) as [D|] eqn:ED; [|discriminate].
  destruct (taylor_decompose_shape sys D ED) as [HS Htail].
  cbn. intros [= <-] [= <-] Hlen Hl. rewrite <- HS in *.
  now apply jet_lane.
Qed.

Lemma jet_lanes_independent_witness :
  lane 3 1 (length [("x", expr_mul (Var "x") (Var "y"));
                    ("y", expr_mul (Var "y") (Var "x"))] * (3 + 1))
       (jet product_decomposition 3 3 (test_slab [2; 1; 3; 3; -4; 6]%Q 24))
  = jet product_decomposition 3 1
      (lane 3 1 (length [("x", expr_mul (Var "x") (Var "y"));
                         ("y", expr_mul (Var "y") (Var "x"))] * (3 + 1))
            (test_slab [2; 1; 3; 3; -4; 6]%Q 24)).
Proof.
  apply (jet_lanes_independent
           [("x", expr_mul (Var "x") (Var "y"));
            ("y", expr_mul (Var "y") (Var "x"))] 3 3
           (jet product_decomposition 3 3) (jet product_decomposition 3 1)
           (test_slab [2; 1; 3; 3; -4; 6]%Q 24) 1);
    [reflexivity|reflexivity|reflexivity|lia].
Defined.

End JetLanesProperties.

Module KeplerEdgeProperties.
Import Elliptic Kepler FloatFacts FloatZeroFacts.
Local Open Scope float_scope.

(** X18.  The singular case of the equatorial orbits.  For a finite state
    in the plane [z = 0] with a velocity in that plane ([z] and [vz] equal
    to zero, of either sign), [cartesian_to_oe] does not throw: the node
    vector is zero, the quotient [n[0] / norm(n)] is the NaN [0 / 0], and the
    longitude of the ascending node that is returned is [acos] of a NaN,
    whatever the other components and [mu] are. *)
Theorem cartesian_to_oe_equatorial (acos : double -> double)
    (mu x y z vx vy vz : double) :
  isfinite x = true -> isfinite y = true ->
  isfinite vx = true -> isfinite vy = true ->
  (z =? 0) = true -> (vz =? 0) = true ->
  exists a e inc om f,
    cartesian_to_oe acos mu [x; y; z; vx; vy; vz]
    = Return [a; e; inc; om; acos nan; f].
Proof.
  intros Hx Hy Hvx Hvy Hz Hvz.
  unfold cartesian_to_oe. cbn [existsb]. unfold isfinite in *.
  rewrite Hx, Hy, Hvx, Hvy, (zero_is_finite z Hz), (zero_is_finite vz Hvz).
  cbn [negb orb nth]. unfold cross. cbv zeta.
  set (h0 := y * vz - z * vy). set (h1 := z * vx - x * vz).
  assert (H0 : (h0 =? 0) = true)
    by (apply sub_zero; [apply mul_zero_r|apply mul_zero_l]; assumption).
  assert (H1 : (h1 =? 0) = true)
    by (apply sub_zero; [apply mul_zero_l|apply mul_zero_r]; assumption).
  assert (Hn : norm (- h1, h0, 0) = 0).
  { unfold norm, norm2. rewrite (sq_zero _ (opp_zero _ H1)), (sq_zero _ H0).
    reflexivity. }
  destruct (sub _ _) as [[e0 e1] e2].
  rewrite Hn, (div_zero_zero _ (opp_zero _ H1)), (ltb_zero_zero _ H0).
  eauto 10.
Qed.

Lemma cartesian_to_oe_equatorial_witness :
  exists a e inc om f,
    cartesian_to_oe (fun x => x) 1 [1; 0; 0; 0; 1; -0]
    = Return [a; e; inc; om; (fun x => x) nan; f].
Proof.
  apply (cartesian_to_oe_equatorial (fun x => x) 1 1 0 0 0 1 (-0));
    reflexivity.
Defined.

End KeplerEdgeProperties.

Module MasconEnergyProperties.
Import Pairwise Mascon MasconEnergy FloatFacts FloatZeroFacts
  FloatNonFiniteFacts.
Local Open Scope float_scope.

Lemma fold_not_finite (step : float -> nat -> float) (l : list nat) (a : float) :
  (forall v i, PrimFloat.is_finite v = false ->
               PrimFloat.is_finite (step v i) = false) ->
  PrimFloat.is_finite a = false ->
  PrimFloat.is_finite (fold_left step l a) = false.
Proof.
  intros Hstep. revert a. induction l as [|i l IH]; intros a Ha; [exact Ha|].
  cbn [fold_left]. apply IH, Hstep, Ha.
Qed.

(** X19.  The singularity of the potential.  At a finite position that
    coincides with one of the mascons, [compute_energy] divides by the
    distance [+0] and the energy it returns is not finite (an infinity or a
    NaN), whatever the masses, the velocity and the other mascons are. *)
Theorem compute_energy_at_a_mascon (x : list double)
    (mascon_points : list (list double)) (mascon_masses : list double)
    (p q r G : double) (i : nat) :
  (i < length mascon_masses)%nat ->
  (forall c, (c < 3)%nat ->
     PrimFloat.is_finite (at1 x c) = true /\ at2 mascon_points i c = at1 x c) ->
  PrimFloat.is_finite
    (compute_energy x mascon_points mascon_masses p q r G) = false.
Proof.
  intros Hi Hx. unfold compute_energy. cbv zeta.
  apply add_not_finite. left. apply add_not_finite. right.
  set (step := fun potential_g j => potential_g - _ / sqrt _).
  replace (seq 0 (length mascon_masses))
    with (seq 0 i ++ i :: seq (S i) (length mascon_masses - S i)).
  2:{ change (i :: seq (S i) (length mascon_masses - S i))
        with (seq i (S (length mascon_masses - S i))).
      rewrite <- seq_app. f_equal. lia. }
  rewrite fold_left_app. cbn [fold_left].
  apply fold_not_finite.
  - intros v j Hv. subst step. cbv beta. apply sub_not_finite. now left.
  - subst step. cbv beta. apply sub_not_finite. right.
    destruct (Hx 0%nat ltac:(lia)) as [F0 ->].
    destruct (Hx 1%nat ltac:(lia)) as [F1 ->].
    destruct (Hx 2%nat ltac:(lia)) as [F2 ->].
    rewrite (sq_zero _ (sub_diag_zero _ F0)), (sq_zero _ (sub_diag_zero _ F1)),
      (sq_zero _ (sub_diag_zero _ F2)).
    change (sqrt (0 + 0 + 0)) with 0. apply div_zero_not_finite.
Qed.

Lemma compute_energy_at_a_mascon_witness :
  PrimFloat.is_finite
    (compute_energy [1; 2; 3; 0; 1; 0] [[0; 0; 1]; [1; 2; 3]] [1; 2] 0 0 1 1)
  = false.
Proof.
  apply (compute_energy_at_a_mascon [1; 2; 3; 0; 1; 0] [[0; 0; 1]; [1; 2; 3]]
           [1; 2] 0 0 1 1 1); [cbn; lia|].
  intros [|[|[|c]]] Hc; try lia; split; reflexivity.
Defined.

End MasconEnergyProperties.
